(** * TradeStreet: the market simulation engine

    A shallow embedding of the price engine ([utils/priceEngine.ts]), the
    market hook ([hooks/useMarket.ts]), the news collaborator
    ([api/generateNews.ts]), the portfolio ledger ([utils/portfolio.ts]),
    the stock chart ([components/StockChart.tsx]), the news feed
    ([components/NewsFeed.tsx]) and the price change of [App.tsx].

    Conventions.
    - A JavaScript [number] is modelled as an exact rational ([Q]) in the
      first model of each function: the arithmetic the code performs is kept
      operation by operation, its binary64 rounding, its infinities and NaN
      are not.  The statements that are about structure (which events count,
      which entries a buffer keeps, what a firing reads and writes) or about
      the order of values are made on this model.
    - The statements that depend on the numbers themselves are made on a
      second model: the price engine and the tick of the hook on binary64
      values ([Binary64], over [PrimFloat.float]), the ledger instantiated at
      binary64 through its interface of numbers ([JsNumber]), and the chart
      on prices that can be NaN ([NaNAware]).
    - [Math.random()] and [Date.now()] are inputs: every function that reads
      them takes the values read as arguments.
    - A JavaScript object used as a dictionary is a [gmap string _]; reading
      an absent key is [None] (JavaScript's [undefined]). *)

From Stdlib Require Import ZArith QArith Qminmax Qround Qabs Lqa Lia List.
From Stdlib Require Import PrimFloat Uint63 SpecFloat FloatOps FloatAxioms.
From stdpp Require Import base option list strings gmap fin_maps.
From stdpp Require Import sorting.

Local Set Warnings "-inexact-float".

(** ** Numbers *)

(** The operations the ledger uses on JavaScript numbers. *)
Class JsNumber (N : Type) := {
  num_add : N → N → N;
  num_sub : N → N → N;
  num_mul : N → N → N;
  num_div : N → N → N;
  (** [a > b] *)
  num_gtb : N → N → bool;
  (** an integer share count as a number *)
  num_of_Z : Z → N
}.

(** [a < b] and [a > b] on rationals, as booleans. *)
Definition Qltb (a b : Q) : bool := negb (Qle_bool b a).
Definition Qgtb (a b : Q) : bool := Qltb b a.

#[global] Instance Q_number : JsNumber Q := {|
  num_add := Qplus; num_sub := Qminus; num_mul := Qmult; num_div := Qdiv;
  num_gtb := Qgtb; num_of_Z := inject_Z
|}.

(** Integers as binary64 values (exact below 2^53, the range in which
    JavaScript itself has integers). *)
Definition float_of_Z (z : Z) : float :=
  match z with
  | Z0 => PrimFloat.zero
  | Zpos _ => PrimFloat.of_uint63 (Uint63.of_Z z)
  | Zneg p => PrimFloat.opp (PrimFloat.of_uint63 (Uint63.of_Z (Zpos p)))
  end.

#[global] Instance binary64_number : JsNumber float := {|
  num_add := PrimFloat.add; num_sub := PrimFloat.sub;
  num_mul := PrimFloat.mul; num_div := PrimFloat.div;
  num_gtb := fun a b => PrimFloat.ltb b a; num_of_Z := float_of_Z
|}.

(** ** Data model *)

(** Modelled from the spec: [types/market.ts] is not among the sources; the
    records below carry the fields the code reads and writes (section 3 of
    the specification names the same ones). *)
Module Company.
Record t := mk {
  ticker : string;
  name : string;
  sector : string;
  description : string;
  basePrice : Q;
  volatility : Q
}.
End Company.

Module PricePoint.
Record t := mk {
  ticker : string;
  price : Q;
  timestamp : Z
}.
End PricePoint.

Module NewsEvent.
Record t := mk {
  ticker : string;
  headline : string;
  body : string;
  sentiment : Q;
  magnitude : Q;
  timestamp : Z
}.
End NewsEvent.

(** ** Price engine ([utils/priceEngine.ts]) *)

(** What one call of [calculateNewPrice] reads from its environment:
    [Math.random()] and [Date.now()]. *)
Record Draw := mkDraw { random : Q; clock : Z }.

(** [recentNews.filter(n => n.ticker === company.ticker &&
                            now - n.timestamp < 120000)] *)
Definition recentNewsForCompany (now : Z) (company : Company.t)
    (recentNews : list NewsEvent.t) : list NewsEvent.t :=
  List.filter
    (fun n => String.eqb (NewsEvent.ticker n) (Company.ticker company)
              && (now - NewsEvent.timestamp n <? 120000)%Z)
    recentNews.

(** [reduce((sum, news) => sum + news.sentiment * news.magnitude, 0)] *)
Definition totalImpact (l : list NewsEvent.t) : Q :=
  fold_left (fun sum news => sum + NewsEvent.sentiment news * NewsEvent.magnitude news)%Q
            l 0%Q.

Definition drift (d : Draw) (timeDelta : Q) : Q :=
  ((random d - 0.5) * 0.02 * Qmax 1 timeDelta)%Q.

Definition sentimentImpact (now : Z) (company : Company.t)
    (recentNews : list NewsEvent.t) : Q :=
  let l := recentNewsForCompany now company recentNews in
  if (0 <? length l)%nat
  then (totalImpact l * Company.volatility company * 0.08)%Q
  else 0%Q.

Definition volatilityMultiplier (company : Company.t) : Q :=
  (1 + Company.volatility company * 0.5)%Q.

Definition calculateNewPrice (d : Draw) (currentPrice : Q) (company : Company.t)
    (recentNews : list NewsEvent.t) (timeDelta : Q) : Q :=
  let drift := drift d timeDelta in
  let sentimentImpact := sentimentImpact (clock d) company recentNews in
  let volatilityMultiplier := volatilityMultiplier company in
  let priceChangePercent := ((drift + sentimentImpact) * volatilityMultiplier)%Q in
  let newPrice := (currentPrice * (1 + priceChangePercent))%Q in
  Qmax newPrice 0.01.

(** [initializePriceHistory(ticker, basePrice)], [now] being the clock it
    reads. *)
Definition initializePriceHistory (now : Z) (ticker : string) (basePrice : Q)
    : list PricePoint.t :=
  [ PricePoint.mk ticker basePrice now ].

(** ** Portfolio ledger ([utils/portfolio.ts]) *)

Inductive TradeError :=
  | InvalidQuantity
  | InsufficientFunds
  | InsufficientShares
  | NoPosition.

(** Modelled from the spec: the portfolio value object of section 3 (a cash
    balance and a mapping from ticker to a position of an integer number of
    shares at an average cost); its declaration in [types/market.ts] is not
    among the sources. *)
Record Position (N : Type) := mkPosition {
  shares : Z;
  averageCost : N
}.
Arguments mkPosition {N} _ _.
Arguments shares {N} _.
Arguments averageCost {N} _.

Record Portfolio (N : Type) := mkPortfolio {
  cash : N;
  positions : gmap string (Position N)
}.
Arguments mkPortfolio {N} _ _.
Arguments cash {N} _.
Arguments positions {N} _.

Section Ledger.
Context {N : Type} `{JsNumber N}.

(** Modelled from the spec: [buyStock] of [utils/portfolio.ts], which is
    not among the sources.  Section 4.2: fails with [InsufficientFunds]
    when [shares × price > cash] and with [InvalidQuantity] when
    [shares ≤ 0]; otherwise deducts [shares × price] from the cash and
    merges the shares into the position at the weighted-average cost
    [(oldShares×oldAvgCost + shares×price) / (oldShares+shares)]. *)
Definition buyStock (portfolio : Portfolio N) (ticker : string) (shares_ : Z)
    (price : N) : TradeError + Portfolio N :=
  let totalCost := num_mul (num_of_Z shares_) price in
  if num_gtb totalCost (cash portfolio) then inl InsufficientFunds
  else if (shares_ <=? 0)%Z then inl InvalidQuantity
  else
    let newPosition :=
      match positions portfolio !! ticker with
      | Some pos =>
          mkPosition (shares pos + shares_)
            (num_div
               (num_add (num_mul (num_of_Z (shares pos)) (averageCost pos)) totalCost)
               (num_of_Z (shares pos + shares_)))
      | None => mkPosition shares_ price
      end in
    inr (mkPortfolio (num_sub (cash portfolio) totalCost)
                     (<[ticker := newPosition]> (positions portfolio))).

(** Modelled from the spec: [sellStock] of [utils/portfolio.ts], which is
    not among the sources.  Section 4.2: fails with [InvalidQuantity] when
    [shares ≤ 0], with [NoPosition] when the ticker is absent and with
    [InsufficientShares] when [shares > heldShares]; otherwise credits
    [shares × price] to the cash, reduces the held shares, removes the
    position when none remain and leaves the average cost as it is. *)
Definition sellStock (portfolio : Portfolio N) (ticker : string) (shares_ : Z)
    (price : N) : TradeError + Portfolio N :=
  if (shares_ <=? 0)%Z then inl InvalidQuantity
  else
    match positions portfolio !! ticker with
    | None => inl NoPosition
    | Some pos =>
        if (shares pos <? shares_)%Z then inl InsufficientShares
        else
          let remaining := (shares pos - shares_)%Z in
          inr (mkPortfolio
                 (num_add (cash portfolio) (num_mul (num_of_Z shares_) price))
                 (if (remaining =? 0)%Z
                  then delete ticker (positions portfolio)
                  else <[ticker := mkPosition remaining (averageCost pos)]>
                         (positions portfolio)))
    end.
End Ledger.

(** One trade request against the ledger, at the price it is executed at. *)
Inductive TradeOp (N : Type) :=
  | Buy (ticker : string) (shares_ : Z) (price : N)
  | Sell (ticker : string) (shares_ : Z) (price : N).
Arguments Buy {N} _ _ _.
Arguments Sell {N} _ _ _.

Definition op_price {N} (op : TradeOp N) : N :=
  match op with Buy _ _ p | Sell _ _ p => p end.

Definition applyOp {N} `{JsNumber N} (portfolio : Portfolio N) (op : TradeOp N)
    : TradeError + Portfolio N :=
  match op with
  | Buy t s p => buyStock portfolio t s p
  | Sell t s p => sellStock portfolio t s p
  end.

(** The portfolio after a request: a failed request leaves it as it was. *)
Definition afterOp {N} `{JsNumber N} (portfolio : Portfolio N) (op : TradeOp N)
    : Portfolio N :=
  match applyOp portfolio op with
  | inr portfolio' => portfolio'
  | inl _ => portfolio
  end.

(** The portfolios after each request of a sequence, in order. *)
Fixpoint ledgerTrace {N} `{JsNumber N} (portfolio : Portfolio N)
    (ops : list (TradeOp N)) : list (Portfolio N) :=
  match ops with
  | [] => []
  | op :: rest =>
      let portfolio' := afterOp portfolio op in
      portfolio' :: ledgerTrace portfolio' rest
  end.

(** Modelled from the spec: [getInitialPortfolio] of [utils/portfolio.ts],
    which is not among the sources: the fixed starting cash (100000) and no
    positions. *)
Definition getInitialPortfolio : Portfolio Q := mkPortfolio 100000%Q ∅.

(** ** Market hook ([hooks/useMarket.ts]) *)

Record MarketState := mkState {
  companies : list Company.t;
  prices : gmap string Q;
  priceHistory : gmap string (list PricePoint.t);
  news : list NewsEvent.t;
  portfolio : Portfolio Q
}.

(** The [companies.forEach] of [initialize], from the [i]-th company on;
    [clock i] is what [Date.now()] returns inside the [i]-th call of
    [initializePriceHistory]. *)
Fixpoint initializeLoop (clock : nat → Z) (i : nat) (cs : list Company.t)
    (acc : gmap string Q * gmap string (list PricePoint.t))
    : gmap string Q * gmap string (list PricePoint.t) :=
  match cs with
  | [] => acc
  | company :: rest =>
      initializeLoop clock (S i) rest
        (<[Company.ticker company := Company.basePrice company]> acc.1,
         <[Company.ticker company :=
             initializePriceHistory (clock i) (Company.ticker company)
               (Company.basePrice company)]> acc.2)
  end.

(** The state [initialize] sets, [companies] being the roster that
    [generateCompanies] returned. *)
Definition initialize (clock : nat → Z) (companies : list Company.t) : MarketState :=
  let r := initializeLoop clock 0 companies (∅, ∅) in
  mkState companies r.1 r.2 [] getInitialPortfolio.

(** [history.push(point); if (history.length > 100) history.shift()] *)
Definition appendPricePoint (history : list PricePoint.t) (point : PricePoint.t)
    : list PricePoint.t :=
  let history := history ++ [point] in
  if (100 <? length history)%nat then tail history else history.

(** The [prevState.companies.forEach] of one firing of the tick timer, from
    the [i]-th company on.  [now] is the [Date.now()] of the firing and
    [env i] what the [i]-th call of [calculateNewPrice] reads.  [None] stands
    for the runs that leave the model: a company without an entry in
    [prevState.priceHistory] (the spread of [undefined] is a [TypeError]) or
    in [prevState.prices] (arithmetic on [undefined] is [NaN]). *)
Fixpoint tickLoop (now : Z) (env : nat → Draw) (prevState : MarketState)
    (i : nat) (cs : list Company.t)
    (acc : gmap string Q * gmap string (list PricePoint.t))
    : option (gmap string Q * gmap string (list PricePoint.t)) :=
  match cs with
  | [] => Some acc
  | company :: rest =>
      match prices prevState !! Company.ticker company,
            priceHistory prevState !! Company.ticker company with
      | Some currentPrice, Some prevHistory =>
          let newPrice :=
            calculateNewPrice (env i) currentPrice company (news prevState) 1 in
          let history :=
            appendPricePoint prevHistory
              (PricePoint.mk (Company.ticker company) newPrice now) in
          tickLoop now env prevState (S i) rest
            (<[Company.ticker company := newPrice]> acc.1,
             <[Company.ticker company := history]> acc.2)
      | _, _ => None
      end
  end.

(** The state updater of the tick timer, on a state that is not [null] (a
    [null] state is returned as it is). *)
Definition tick (now : Z) (env : nat → Draw) (prevState : MarketState)
    : option MarketState :=
  match tickLoop now env prevState 0 (companies prevState) (∅, ∅) with
  | Some (newPrices, newPriceHistory) =>
      Some (mkState (companies prevState) newPrices newPriceHistory
                    (news prevState) (portfolio prevState))
  | None => None
  end.

(** [const updatedNews = [...prevState.news, ...newsEvents];
     if (updatedNews.length > 50)
       updatedNews.splice(0, updatedNews.length - 50)] *)
Definition appendNews (news newsEvents : list NewsEvent.t) : list NewsEvent.t :=
  let updatedNews := news ++ newsEvents in
  if (50 <? length updatedNews)%nat
  then drop (length updatedNews - 50) updatedNews
  else updatedNews.

(** What [generateAndUpdateNews] does to the state once [generateNews] has
    answered with [newsEvents]. *)
Definition updateNews (prevState : MarketState) (newsEvents : list NewsEvent.t)
    : MarketState :=
  if (0 <? length newsEvents)%nat
  then mkState (companies prevState) (prices prevState) (priceHistory prevState)
               (appendNews (news prevState) newsEvents) (portfolio prevState)
  else prevState.

(** How a call of a trade entry point ends. *)
Inductive Completion (E : Type) :=
  | Returned
  | Thrown (err : E).
Arguments Returned {E}.
Arguments Thrown {E} _.

Section TradeEntryPoints.
(** [buyStock] and [sellStock] as the hook imports them: they receive the
    price read from [state.prices], [None] when the ticker has no entry, and
    either return the new portfolio or throw. *)
Context {E : Type}.
Variable buyStock_ sellStock_ :
  Portfolio Q → string → Z → option Q → E + Portfolio Q.

(** The state after the call and how the call ended. *)
Definition handleBuy (state : option MarketState) (ticker : string) (shares_ : Z)
    : option MarketState * Completion E :=
  match state with
  | None => (state, Returned)
  | Some st =>
      let price := prices st !! ticker in
      match buyStock_ (portfolio st) ticker shares_ price with
      | inr newPortfolio =>
          (Some (mkState (companies st) (prices st) (priceHistory st) (news st)
                         newPortfolio),
           Returned)
      | inl err => (state, Thrown err)
      end
  end.

Definition handleSell (state : option MarketState) (ticker : string) (shares_ : Z)
    : option MarketState * Completion E :=
  match state with
  | None => (state, Returned)
  | Some st =>
      let price := prices st !! ticker in
      match sellStock_ (portfolio st) ticker shares_ price with
      | inr newPortfolio =>
          (Some (mkState (companies st) (prices st) (priceHistory st) (news st)
                         newPortfolio),
           Returned)
      | inl err => (state, Thrown err)
      end
  end.
End TradeEntryPoints.

(** The ledger as the hook calls it, at the price read from [state.prices].
    It is used at tickers that have a price; at a ticker without one the
    ledger would compute with [undefined], which the rational model does not
    represent, and the price stands as 0. *)
Definition atQuote (op : Portfolio Q → string → Z → Q → TradeError + Portfolio Q)
    : Portfolio Q → string → Z → option Q → TradeError + Portfolio Q :=
  fun portfolio ticker shares_ price => op portfolio ticker shares_ (default 0%Q price).

(** ** News collaborator ([api/generateNews.ts]) *)

(** [arr[idx]] for an integer [idx]: [undefined] out of range. *)
Definition jsIndex {A} (arr : list A) (idx : Z) : option A :=
  if (idx <? 0)%Z then None else arr !! Z.to_nat idx.

(** [Math.floor(r * arr.length)] *)
Definition randomIndex {A} (r : Q) (arr : list A) : Z :=
  Qfloor (r * inject_Z (Z.of_nat (length arr))).

(** [arr.slice(0, count)]: a negative [count] counts from the end. *)
Definition jsSlice0 {A} (arr : list A) (count : Z) : list A :=
  take (Z.to_nat (if (count <? 0)%Z then Z.of_nat (length arr) + count else count)) arr.

Record Template := mkTemplate {
  t_headline : string;
  t_sentiment : Q;
  t_magnitude : Q
}.

Definition positiveTemplates : list Template := [
  mkTemplate "Reports Strong Quarterly Earnings, Beats Estimates" 0.8 0.7;
  mkTemplate "Signs Major Partnership Deal Worth Millions" 0.7 0.6;
  mkTemplate "FDA Approves New Product for Market" 0.9 0.8;
  mkTemplate "Analyst Upgrades Stock to Buy Rating" 0.6 0.5;
  mkTemplate "Announces Breakthrough Innovation" 0.85 0.75 ].

Definition negativeTemplates : list Template := [
  mkTemplate "Reports Earnings Miss, Stock Drops" (-0.7) 0.7;
  mkTemplate "Faces Regulatory Investigation" (-0.8) 0.8;
  mkTemplate "Product Recall Announced" (-0.9) 0.9;
  mkTemplate "Key Executive Resigns Unexpectedly" (-0.6) 0.6;
  mkTemplate "Loses Major Contract to Competitor" (-0.75) 0.7 ].

Definition bodyTemplates (company : Company.t) : list string := [
  "The " +:+ Company.sector company +:+
    " sector company's stock is moving in response to market developments.";
  "Investors are reacting to breaking news affecting the company's valuation.";
  "Market analysts are closely watching the impact of this development.";
  "The announcement is expected to significantly influence trading activity." ].

(** The body of the [for] loop of [generateFallbackNews] at index [i].  The
    four calls of [Math.random()] of the [i]-th iteration are the draws
    [4i .. 4i+3] of [rng].  [None] is the [TypeError] of reading a field of
    [undefined]. *)
Definition fallbackEvent (rng : nat → Q) (now : Z) (companies : list Company.t)
    (i : nat) : option NewsEvent.t :=
  company ← jsIndex companies (randomIndex (rng (4 * i)%nat) companies);
  let isPositive := Qgtb (rng (4 * i + 1)%nat) 0.5 in
  let templates := if isPositive then positiveTemplates else negativeTemplates in
  template ← jsIndex templates (randomIndex (rng (4 * i + 2)%nat) templates);
  let bodies := bodyTemplates company in
  body ← jsIndex bodies (randomIndex (rng (4 * i + 3)%nat) bodies);
  Some (NewsEvent.mk (Company.ticker company)
          (Company.ticker company +:+ ": " +:+ t_headline template)
          body (t_sentiment template) (t_magnitude template)
          (now + Z.of_nat i * 100)).

(** [n] more iterations of the loop from index [i], pushing onto [news]. *)
Fixpoint fallbackLoop (rng : nat → Q) (now : Z) (companies : list Company.t)
    (n i : nat) (news : list NewsEvent.t) : option (list NewsEvent.t) :=
  match n with
  | O => Some news
  | S n' =>
      match fallbackEvent rng now companies i with
      | Some event => fallbackLoop rng now companies n' (S i) (news ++ [event])
      | None => None
      end
  end.

(** [for (let i = 0; i < count && i < companies.length; i++)] runs
    [min(count, companies.length)] times, and not at all when that is not
    positive. *)
Definition generateFallbackNews (rng : nat → Q) (now : Z)
    (companies : list Company.t) (count : Z) : option (list NewsEvent.t) :=
  fallbackLoop rng now companies
    (Z.to_nat (Z.min count (Z.of_nat (length companies)))) 0 [].

(** An element of the array parsed from the answer of the external service
    ([Omit<NewsEvent, 'timestamp'>]). *)
Module RawNews.
Record t := mk {
  ticker : string;
  headline : string;
  body : string;
  sentiment : Q;
  magnitude : Q
}.
End RawNews.

(** What the [try] block of [generateNews] gets from the external service:
    the parsed array, or an exception ([callClaude] rejected, no JSON array in
    the answer, [JSON.parse] threw). *)
Inductive ApiOutcome :=
  | ApiParsed (news : list RawNews.t)
  | ApiFailed.

(** [None] is a rejected promise. *)
Definition generateNews (api : ApiOutcome) (rng : nat → Q) (now : Z)
    (companies : list Company.t) (count : Z) : option (list NewsEvent.t) :=
  match api with
  | ApiParsed news =>
      Some
        (map (fun n => NewsEvent.mk (RawNews.ticker n) (RawNews.headline n)
                         (RawNews.body n) (RawNews.sentiment n)
                         (RawNews.magnitude n) now)
           (jsSlice0
              (List.filter
                 (fun n => existsb (fun c => String.eqb (Company.ticker c) (RawNews.ticker n))
                             companies)
                 news)
              count))
  | ApiFailed => generateFallbackNews rng now companies count
  end.

(** ** Notions the statements use *)

(** Does the event count for [ticker] at time [now]? *)
Definition countsFor (now : Z) (ticker : string) (n : NewsEvent.t) : bool :=
  String.eqb (NewsEvent.ticker n) ticker && (now - NewsEvent.timestamp n <? 120000)%Z.

(** [Σ (sentiment_i × magnitude_i)] over the events of [ticker] that are less
    than 120 seconds old at [now], as the specification writes the sum. *)
Fixpoint sentimentSum (now : Z) (ticker : string) (news : list NewsEvent.t) : Q :=
  match news with
  | [] => 0
  | n :: rest =>
      (if countsFor now ticker n
       then NewsEvent.sentiment n * NewsEvent.magnitude n
       else 0)
      + sentimentSum now ticker rest
  end%Q.

(** The number of events that count for [ticker] at [now]. *)
Definition countingEvents (now : Z) (ticker : string) (news : list NewsEvent.t) : nat :=
  length (List.filter (countsFor now ticker) news).

(** The last [n] entries of a sequence, in their order. *)
Definition lastN {A} (n : nat) (l : list A) : list A := drop (length l - n) l.

(** The invariants of a portfolio: the cash is not negative and every
    position present holds a positive number of shares. *)
Definition wellFormed (portfolio : Portfolio Q) : Prop :=
  (0 <= cash portfolio)%Q
  ∧ ∀ (ticker : string) (pos : Position Q),
      positions portfolio !! ticker = Some pos → (0 < shares pos)%Z.

Definition tickers (cs : list Company.t) : list string := map Company.ticker cs.

(** Every company of the roster has a price and a history. *)
Definition quoted (st : MarketState) : Prop :=
  ∀ t, t ∈ tickers (companies st) →
       is_Some (prices st !! t) ∧ is_Some (priceHistory st !! t).

(** The states the hook goes through: the one [initialize] sets, then firings
    of the tick timer, news updates and replacements of the portfolio by the
    trade entry points. *)
Inductive reachable : MarketState → Prop :=
  | reach_initialize clock cs :
      reachable (initialize clock cs)
  | reach_tick now env st st' :
      reachable st → tick now env st = Some st' → reachable st'
  | reach_news st newsEvents :
      reachable st → reachable (updateNews st newsEvents)
  | reach_trade st newPortfolio :
      reachable st →
      reachable (mkState (companies st) (prices st) (priceHistory st) (news st)
                         newPortfolio).

(** What one firing leaves at ticker [t], as a function of the previous
    state alone: the new price and the history extended by the new point. *)
Definition advanced (now : Z) (d : Draw) (prevState : MarketState)
    (company : Company.t) (currentPrice : Q) (prevHistory : list PricePoint.t)
    : Q * list PricePoint.t :=
  let newPrice := calculateNewPrice d currentPrice company (news prevState) 1 in
  (newPrice,
   appendPricePoint prevHistory (PricePoint.mk (Company.ticker company) newPrice now)).

Definition unitDraws (rng : nat → Q) : Prop := ∀ n, (0 <= rng n)%Q ∧ (rng n < 1)%Q.

(** ** Sample data *)

Definition acme : Company.t :=
  Company.mk "ACME" "Acme Corp" "Technology" "A maker of everything" 100 0.2.

(** Two events of the fallback generator ("FDA Approves New Product for
    Market": sentiment 0.9, magnitude 0.8) on one company of volatility 0.8,
    both less than 120 seconds old. *)
Definition volatileCo : Company.t :=
  Company.mk "MEDI" "MediCore" "Healthcare" "A drug maker" 50 0.8.

Definition twoApprovals : list NewsEvent.t := [
  NewsEvent.mk "MEDI" "MEDI: FDA Approves New Product for Market" "b" 0.9 0.8 1000;
  NewsEvent.mk "MEDI" "MEDI: FDA Approves New Product for Market" "b" 0.9 0.8 31000 ].

Definition smallPortfolio : Portfolio Q :=
  mkPortfolio 1000%Q {[ "ACME" := mkPosition 10 100%Q ]}.

Definition acmeMarket : MarketState := initialize (fun _ => 0%Z) [acme].

(** The market of one company with a full news window: fifty events, the
    [i]-th of timestamp [i]. *)
Definition fullWindowMarket : MarketState :=
  updateNews acmeMarket
    (map (fun i => NewsEvent.mk "ACME" "ACME: Announces Breakthrough Innovation" "b"
                     0.85 0.75 (Z.of_nat i))
         (seq 0 50)).

(** A market of two companies whose news window holds the two approvals. *)
Definition twoCompanyMarket : MarketState :=
  updateNews (initialize (fun _ => 0%Z) [acme; volatileCo]) twoApprovals.

(** The draws of one firing at 34 seconds: 0.75 for the first company, 0.25
    for the others. *)
Definition mixedDraws (i : nat) : Draw :=
  mkDraw (if (i =? 0)%nat then 0.75 else 0.25) 34000.

(** ** App component ([App.tsx]) *)

(** [getPriceChange(ticker)]: the pair [(change, percent)].  The history is
    [state.priceHistory[ticker] || []]; with fewer than two points the answer
    is [(0, 0)].  [previous !== 0] compares the values. *)
Definition getPriceChange (state : MarketState) (ticker : string) : Q * Q :=
  let history := default [] (priceHistory state !! ticker) in
  if (length history <? 2)%nat then (0%Q, 0%Q)
  else
    match history !! (length history - 1)%nat, history !! (length history - 2)%nat with
    | Some last_, Some before =>
        let current := PricePoint.price last_ in
        let previous := PricePoint.price before in
        let change := (current - previous)%Q in
        let percent := if Qeq_bool previous 0 then 0%Q else (change / previous * 100)%Q in
        (change, percent)
    | _, _ => (0%Q, 0%Q)
    end.

(** ** More of the market hook ([hooks/useMarket.ts]) *)

(** The prices and the histories of a state agree: only the tickers of the
    roster have entries, and at each of them the price is the price of the
    last point of the history, whose points all carry that ticker. *)
Definition coherent (st : MarketState) : Prop :=
  ∀ t : string,
    (t ∉ tickers (companies st) →
     prices st !! t = None ∧ priceHistory st !! t = None)
    ∧ (t ∈ tickers (companies st) →
       ∃ (h : list PricePoint.t) (point : PricePoint.t),
         priceHistory st !! t = Some h
         ∧ last h = Some point
         ∧ prices st !! t = Some (PricePoint.price point)
         ∧ Forall (fun x => PricePoint.ticker x = t) h).

(** [generateAndUpdateNews] of the news effect: [r] is the draw that fixes
    the number of events asked for ([Math.floor(Math.random() * 3) + 1]),
    [companies] the roster captured when the effect was set up, and
    [prevState] the state the updater is applied to.  A rejected promise is
    caught and logged: the state stays. *)
Definition generateAndUpdateNews (r : Q) (api : ApiOutcome) (rng : nat → Q) (now : Z)
    (companies : list Company.t) (prevState : MarketState) : MarketState :=
  match generateNews api rng now companies (Qfloor (r * 3) + 1) with
  | Some newsEvents => updateNews prevState newsEvents
  | None => prevState
  end.

(** Is the ticker of the parsed event the ticker of a company of the roster? *)
Definition knownTicker (companies : list Company.t) (n : RawNews.t) : bool :=
  existsb (fun c => String.eqb (Company.ticker c) (RawNews.ticker n)) companies.

(** The parsed event with its timestamp. *)
Definition stamped (now : Z) (n : RawNews.t) : NewsEvent.t :=
  NewsEvent.mk (RawNews.ticker n) (RawNews.headline n) (RawNews.body n)
    (RawNews.sentiment n) (RawNews.magnitude n) now.

(** ** Stock chart ([components/StockChart.tsx]) *)

Module Candle.
Record t := mk {
  time : Z;
  open : Q;
  high : Q;
  low : Q;
  close : Q
}.
End Candle.

(** [Number(x.toFixed(2))]: [toFixed] takes the integer [n] for which
    [n / 100] is nearest to the absolute value (the larger one on a tie) and
    restores the sign; from [10^21] on it prints the number itself. *)
Definition toFixed2 (x : Q) : Q :=
  if Qle_bool 1000000000000000000000 (Qabs x) then x
  else if Qltb x 0 then (- (inject_Z (Qfloor (- x * 100 + 0.5)) / 100))%Q
  else (inject_Z (Qfloor (x * 100 + 0.5)) / 100)%Q.

(** The body of the loop of [convertToCandlesticks] on one group of
    numbers: [None] is a [continue] (an empty group, or a high below the
    low; the [isNaN] tests never fire on rationals, [NaNAware.candleOf] below
    has them). *)
Definition candleOf (group : list PricePoint.t) : option Candle.t :=
  match group with
  | [] => None
  | first :: rest =>
      let open := PricePoint.price first in
      let close := PricePoint.price (List.last group first) in
      let actualHigh := fold_left Qmax (map PricePoint.price rest) (PricePoint.price first) in
      let actualLow := fold_left Qmin (map PricePoint.price rest) (PricePoint.price first) in
      let bodyTop := Qmax open close in
      let bodyBottom := Qmin open close in
      if Qltb actualHigh actualLow then None
      else
        let time := (PricePoint.timestamp first / 1000)%Z in
        let bodySize :=
          if Qeq_bool (bodyTop - bodyBottom) 0 then 0.01%Q else (bodyTop - bodyBottom)%Q in
        let proportionalWickSize := Qmax (bodySize * 0.20) 0.05 in
        let minWickSize := Qmin proportionalWickSize 0.50 in
        let finalHigh :=
          if Qle_bool actualHigh bodyTop then (bodyTop + minWickSize)%Q else actualHigh in
        let finalLow :=
          if Qle_bool bodyBottom actualLow then (bodyBottom - minWickSize)%Q else actualLow in
        let finalHigh := Qmax finalHigh bodyTop in
        let finalLow := Qmin finalLow bodyBottom in
        Some (Candle.mk time (toFixed2 open) (toFixed2 finalHigh) (toFixed2 finalLow)
                (toFixed2 close))
  end.

(** [for (let i = ...; i < priceHistory.length; i += candlesPerGroup)] from
    index [i], pushing onto [candles]; [priceHistory.slice(i, i +
    candlesPerGroup)] is the group.  The fuel runs out only when the loop
    does not end ([candlesPerGroup = 0]). *)
Fixpoint candleLoop (fuel : nat) (priceHistory : list PricePoint.t)
    (candlesPerGroup i : nat) (candles : list Candle.t) : option (list Candle.t) :=
  if (i <? length priceHistory)%nat then
    match fuel with
    | O => None
    | S fuel' =>
        let group := take candlesPerGroup (drop i priceHistory) in
        let candles' :=
          match candleOf group with
          | Some candle => candles ++ [candle]
          | None => candles
          end in
        candleLoop fuel' priceHistory candlesPerGroup (i + candlesPerGroup) candles'
    end
  else Some candles.

(** [None]: the call does not return. *)
Definition convertToCandlesticks (priceHistory : list PricePoint.t)
    (candlesPerGroup : nat) : option (list Candle.t) :=
  if (length priceHistory =? 0)%nat then Some []
  else candleLoop (length priceHistory) priceHistory candlesPerGroup 0 [].

(** The test of the filter that the chart applies before [setData] (its
    [isNaN] tests never fire on rationals). *)
Definition isValidCandle (candle : Candle.t) : bool :=
  Qle_bool (Candle.low candle) (Candle.high candle)
  && Qle_bool (Qmax (Candle.open candle) (Candle.close candle)) (Candle.high candle)
  && Qle_bool (Candle.low candle) (Qmin (Candle.open candle) (Candle.close candle)).

(** Three points of one ticker, four seconds apart. *)
Definition risingPoints : list PricePoint.t := [
  PricePoint.mk "ACME" 100 0;
  PricePoint.mk "ACME" 100.554 4000;
  PricePoint.mk "ACME" 101.2 8000 ].

(** An item of the data that the candlestick series holds: a bar, or a
    whitespace item that only has a time. *)
Inductive SeriesItem :=
  | Whitespace (time : Z)
  | Bar (candle : Candle.t).

(** [existingDataRaw.filter(c => 'open' in c && 'high' in c && 'low' in c
    && 'close' in c)] *)
Definition barsOf (existingDataRaw : list SeriesItem) : list Candle.t :=
  omap (fun item => match item with Bar candle => Some candle | Whitespace _ => None end)
       existingDataRaw.

(** [candles.find(c => c.time === time)] *)
Definition findByTime (time : Z) (candles : list Candle.t) : option Candle.t :=
  List.find (fun c => (Candle.time c =? time)%Z) candles.

(** [Array.prototype.sort] with the comparator [a.time - b.time].  The sort
    is stable, so its result is the one arrangement by time in which entries
    of equal time keep their order; inserting the entries from the last to
    the first, each before the first entry that is not earlier, builds it. *)
Fixpoint insertByTime (c : Candle.t) (l : list Candle.t) : list Candle.t :=
  match l with
  | [] => [c]
  | d :: l' =>
      if (Candle.time c <=? Candle.time d)%Z then c :: l else d :: insertByTime c l'
  end.

Definition sortByTime (l : list Candle.t) : list Candle.t := foldr insertByTime [] l.

(** The data that a later update of the chart hands to [setData], from the
    bars the series holds and the valid candles of the current history. *)
Definition mergeCandles (existingData validData : list Candle.t) : list Candle.t :=
  let existingTimes := map Candle.time existingData in
  let newCandles :=
    List.filter (fun c => negb (existsb (Z.eqb (Candle.time c)) existingTimes)) validData in
  let lastTime := option_map Candle.time (last existingData) in
  let kept :=
    map (fun existingCandle =>
           match findByTime (Candle.time existingCandle) validData with
           | Some matchingNew =>
               if bool_decide (Some (Candle.time existingCandle) = lastTime)
               then matchingNew else existingCandle
           | None => existingCandle
           end)
        existingData in
  let candlesToSet :=
    fold_left (fun acc newCandle =>
                 match findByTime (Candle.time newCandle) acc with
                 | Some _ => acc
                 | None => acc ++ [newCandle]
                 end)
              newCandles kept in
  sortByTime candlesToSet.

(** What the update effect of the chart does with the series. *)
Inductive ChartCall :=
  | SetData (candles : list Candle.t)
  | NoCall.

(** The step of [newCandles.forEach]: push the candle unless one of its time
    is there. *)
Definition pushNew (acc : list Candle.t) (newCandle : Candle.t) : list Candle.t :=
  match findByTime (Candle.time newCandle) acc with
  | Some _ => acc
  | None => acc ++ [newCandle]
  end.

(** The step of [existingData.forEach]: the bar that is kept in the place of
    an existing one. *)
Definition keepOrUpdate (lastTime : option Z) (validData : list Candle.t)
    (existingCandle : Candle.t) : Candle.t :=
  match findByTime (Candle.time existingCandle) validData with
  | Some matchingNew =>
      if bool_decide (Some (Candle.time existingCandle) = lastTime)
      then matchingNew else existingCandle
  | None => existingCandle
  end.

(** The bars a series holds, and the candles of a history one tick later. *)
Definition heldBars : list Candle.t := [
  Candle.mk 0 100 100.66 99.89 100.55;
  Candle.mk 8 101.2 101.25 101.15 101.2 ].

Definition freshCandles : list Candle.t := [
  Candle.mk 0 100 100.66 99.89 100.55;
  Candle.mk 8 101.2 101.5 101 101.4;
  Candle.mk 16 101.4 101.45 101.35 101.4 ].

(** ** News feed ([components/NewsFeed.tsx]) *)

(** [[...news].sort((a, b) => b.timestamp - a.timestamp)]: the stable sort,
    as for [sortByTime]; an entry goes before the first one that is not
    newer than it. *)
Fixpoint insertNewest (n : NewsEvent.t) (l : list NewsEvent.t) : list NewsEvent.t :=
  match l with
  | [] => [n]
  | m :: l' =>
      if (NewsEvent.timestamp m <=? NewsEvent.timestamp n)%Z
      then n :: l else m :: insertNewest n l'
  end.

Definition sortedNews (news : list NewsEvent.t) : list NewsEvent.t :=
  foldr insertNewest [] news.

(** Successive firings of the tick timer ([setInterval]): each one has its
    [Date.now()] and the draws its calls of [calculateNewPrice] read. *)
Fixpoint runTicks (firings : list (Z * (nat → Draw))) (st : MarketState)
    : option MarketState :=
  match firings with
  | [] => Some st
  | (now, env) :: rest =>
      match tick now env st with
      | Some st' => runTicks rest st'
      | None => None
      end
  end.

(** 150 firings, four seconds apart, every draw at 0.5. *)
Definition firings150 : list (Z * (nat → Draw)) :=
  map (fun i => ((Z.of_nat i * 4000)%Z, fun _ : nat => mkDraw 0.5 0)) (seq 1 150).

(** ** The engine and the hook on binary64 numbers *)

(** The price engine and the tick of the hook once more, now on the numbers
    JavaScript computes with: binary64 values, with their rounding, their
    infinities and NaN.  A field that an object lacks, or that does not hold
    a number, enters the arithmetic below as NaN, which is what it reads as
    there.  Time stamps are values of [Date.now()], whole numbers of
    milliseconds. *)

(** [Math.max(a, b)]: NaN when an argument is NaN; otherwise the larger one,
    +0 being larger than -0. *)
Definition mathMax (a b : float) : float :=
  if is_nan a || is_nan b then nan
  else if (a <? b)%float then b
  else if (a =? 0)%float && (b =? 0)%float && get_sign a && negb (get_sign b) then b
  else a.

Module Binary64.

(** Modelled from the spec: the records of [types/market.ts], which is not
    among the sources, as in the data model above, their numbers being
    binary64 values. *)
Module Company.
Record t := mk {
  ticker : string;
  name : string;
  sector : string;
  description : string;
  basePrice : float;
  volatility : float
}.
End Company.

Module PricePoint.
Record t := mk {
  ticker : string;
  price : float;
  timestamp : Z
}.
End PricePoint.

Module NewsEvent.
Record t := mk {
  ticker : string;
  headline : string;
  body : string;
  sentiment : float;
  magnitude : float;
  timestamp : Z
}.
End NewsEvent.

(** What one call of [calculateNewPrice] reads from its environment:
    [Math.random()] and [Date.now()]. *)
Record Draw := mkDraw { random : float; clock : Z }.

(** [recentNews.filter(n => n.ticker === company.ticker &&
                            now - n.timestamp < 120000)] *)
Definition recentNewsForCompany (now : Z) (company : Company.t)
    (recentNews : list NewsEvent.t) : list NewsEvent.t :=
  List.filter
    (fun n => String.eqb (NewsEvent.ticker n) (Company.ticker company)
              && (now - NewsEvent.timestamp n <? 120000)%Z)
    recentNews.

(** [reduce((sum, news) => sum + news.sentiment * news.magnitude, 0)] *)
Definition totalImpact (l : list NewsEvent.t) : float :=
  fold_left (fun sum news => sum + NewsEvent.sentiment news * NewsEvent.magnitude news)%float
            l 0%float.

Definition drift (d : Draw) (timeDelta : float) : float :=
  ((random d - 0.5) * 0.02 * mathMax 1 timeDelta)%float.

Definition sentimentImpact (now : Z) (company : Company.t)
    (recentNews : list NewsEvent.t) : float :=
  let l := recentNewsForCompany now company recentNews in
  if (0 <? length l)%nat
  then (totalImpact l * Company.volatility company * 0.08)%float
  else 0%float.

Definition volatilityMultiplier (company : Company.t) : float :=
  (1 + Company.volatility company * 0.5)%float.

(** The [newPrice] of [calculateNewPrice]: the price before the floor. *)
Definition newPrice (d : Draw) (currentPrice : float) (company : Company.t)
    (recentNews : list NewsEvent.t) (timeDelta : float) : float :=
  let drift := drift d timeDelta in
  let sentimentImpact := sentimentImpact (clock d) company recentNews in
  let volatilityMultiplier := volatilityMultiplier company in
  let priceChangePercent := ((drift + sentimentImpact) * volatilityMultiplier)%float in
  (currentPrice * (1 + priceChangePercent))%float.

Definition calculateNewPrice (d : Draw) (currentPrice : float) (company : Company.t)
    (recentNews : list NewsEvent.t) (timeDelta : float) : float :=
  mathMax (newPrice d currentPrice company recentNews timeDelta) 0.01.

Definition initializePriceHistory (now : Z) (ticker : string) (basePrice : float)
    : list PricePoint.t :=
  [ PricePoint.mk ticker basePrice now ].

Record MarketState := mkState {
  companies : list Company.t;
  prices : gmap string float;
  priceHistory : gmap string (list PricePoint.t);
  news : list NewsEvent.t;
  portfolio : Portfolio float
}.

(** The [companies.forEach] of [initialize], from the [i]-th company on. *)
Fixpoint initializeLoop (clock : nat → Z) (i : nat) (cs : list Company.t)
    (acc : gmap string float * gmap string (list PricePoint.t))
    : gmap string float * gmap string (list PricePoint.t) :=
  match cs with
  | [] => acc
  | company :: rest =>
      initializeLoop clock (S i) rest
        (<[Company.ticker company := Company.basePrice company]> acc.1,
         <[Company.ticker company :=
             initializePriceHistory (clock i) (Company.ticker company)
               (Company.basePrice company)]> acc.2)
  end.

(** The state [initialize] sets; [portfolio] is what [getInitialPortfolio]
    returned. *)
Definition initialize (clock : nat → Z) (companies : list Company.t)
    (portfolio : Portfolio float) : MarketState :=
  let r := initializeLoop clock 0 companies (∅, ∅) in
  mkState companies r.1 r.2 [] portfolio.

(** [history.push(point); if (history.length > 100) history.shift()] *)
Definition appendPricePoint (history : list PricePoint.t) (point : PricePoint.t)
    : list PricePoint.t :=
  let history := history ++ [point] in
  if (100 <? length history)%nat then tail history else history.

(** The [prevState.companies.forEach] of one firing of the tick timer, from
    the [i]-th company on.  A ticker without an entry in [prevState.prices]
    gives [undefined] as the current price, NaN in the product that is its
    only use; a ticker without an entry in [prevState.priceHistory] makes the
    spread throw a [TypeError], which is [None]. *)
Fixpoint tickLoop (now : Z) (env : nat → Draw) (prevState : MarketState)
    (i : nat) (cs : list Company.t)
    (acc : gmap string float * gmap string (list PricePoint.t))
    : option (gmap string float * gmap string (list PricePoint.t)) :=
  match cs with
  | [] => Some acc
  | company :: rest =>
      match priceHistory prevState !! Company.ticker company with
      | Some prevHistory =>
          let currentPrice := default nan (prices prevState !! Company.ticker company) in
          let newPrice :=
            calculateNewPrice (env i) currentPrice company (news prevState) 1 in
          let history :=
            appendPricePoint prevHistory
              (PricePoint.mk (Company.ticker company) newPrice now) in
          tickLoop now env prevState (S i) rest
            (<[Company.ticker company := newPrice]> acc.1,
             <[Company.ticker company := history]> acc.2)
      | None => None
      end
  end.

Definition tick (now : Z) (env : nat → Draw) (prevState : MarketState)
    : option MarketState :=
  match tickLoop now env prevState 0 (companies prevState) (∅, ∅) with
  | Some (newPrices, newPriceHistory) =>
      Some (mkState (companies prevState) newPrices newPriceHistory
                    (news prevState) (portfolio prevState))
  | None => None
  end.

(** [const updatedNews = [...prevState.news, ...newsEvents];
     if (updatedNews.length > 50)
       updatedNews.splice(0, updatedNews.length - 50)] *)
Definition appendNews (news newsEvents : list NewsEvent.t) : list NewsEvent.t :=
  let updatedNews := news ++ newsEvents in
  if (50 <? length updatedNews)%nat
  then drop (length updatedNews - 50) updatedNews
  else updatedNews.

Definition updateNews (prevState : MarketState) (newsEvents : list NewsEvent.t)
    : MarketState :=
  if (0 <? length newsEvents)%nat
  then mkState (companies prevState) (prices prevState) (priceHistory prevState)
               (appendNews (news prevState) newsEvents) (portfolio prevState)
  else prevState.

(** The states the hook goes through: the one [initialize] sets, then firings
    of the tick timer, news updates and replacements of the portfolio by the
    trade entry points. *)
Inductive reachable : MarketState → Prop :=
  | reach_initialize clock cs portfolio :
      reachable (initialize clock cs portfolio)
  | reach_tick now env st st' :
      reachable st → tick now env st = Some st' → reachable st'
  | reach_news st newsEvents :
      reachable st → reachable (updateNews st newsEvents)
  | reach_trade st newPortfolio :
      reachable st →
      reachable (mkState (companies st) (prices st) (priceHistory st) (news st)
                         newPortfolio).

(** A value that is NaN or a number of at least 0.01. *)
Definition flooredOrNaN (x : float) : Prop :=
  is_nan x = true ∨ (0.01 <=? x)%float = true.

(** The prices of a state, and the prices of the points of its histories, are
    NaN or at least 0.01. *)
Definition pricesFlooredOrNaN (prices : gmap string float)
    (priceHistory : gmap string (list PricePoint.t)) : Prop :=
  (∀ (t : string) (p : float), prices !! t = Some p → flooredOrNaN p)
  ∧ (∀ (t : string) (h : list PricePoint.t),
       priceHistory !! t = Some h →
       Forall (fun point => flooredOrNaN (PricePoint.price point)) h).

(** Sample data: two companies, an event parsed from an answer that gave it
    no magnitude, and three events of the fallback generator in two orders. *)
Definition acme : Company.t :=
  Company.mk "ACME" "Acme Corp" "Technology" "A maker of everything" 100 0.2.

Definition volatileCo : Company.t :=
  Company.mk "MEDI" "MediCore" "Healthcare" "A drug maker" 50 0.8.

Definition noMagnitude : NewsEvent.t :=
  NewsEvent.mk "ACME" "ACME: Announces Breakthrough Innovation" "b" 0.85 nan 1000.

Definition earnings : NewsEvent.t :=
  NewsEvent.mk "MEDI" "MEDI: Reports Strong Quarterly Earnings, Beats Estimates" "b"
    0.8 0.7 1000.

Definition partnership : NewsEvent.t :=
  NewsEvent.mk "MEDI" "MEDI: Signs Major Partnership Deal Worth Millions" "b"
    0.7 0.6 1000.

Definition acmeMarket : MarketState :=
  initialize (fun _ => 0%Z) [acme] (mkPortfolio 100000%float ∅).

(** The market of one company after its window took the event without a
    magnitude. *)
Definition malformedMarket : MarketState := updateNews acmeMarket [noMagnitude].

End Binary64.

(** ** The chart on histories that hold NaN *)

(** A price that a firing computed from an event without a magnitude is NaN,
    and the history that holds it reaches the chart.  The functions of the
    chart once more, for prices that are a rational or NaN ([None]); every
    candle they build has numbers in its four fields. *)

(** Modelled from the spec: the price point of [types/market.ts], which is
    not among the sources, with a price that is a number or NaN. *)
Module ChartPoint.
Record t := mk {
  ticker : string;
  price : option Q;
  timestamp : Z
}.
End ChartPoint.

(** [Math.max(a, b)] and [Math.min(a, b)] when an argument can be NaN: the
    result is NaN then. *)
Definition maxOrNaN (a b : option Q) : option Q :=
  match a, b with
  | Some x, Some y => Some (Qmax x y)
  | _, _ => None
  end.

Definition minOrNaN (a b : option Q) : option Q :=
  match a, b with
  | Some x, Some y => Some (Qmin x y)
  | _, _ => None
  end.

(** A point of numbers as the chart receives it. *)
Definition asChartPoint (p : PricePoint.t) : ChartPoint.t :=
  ChartPoint.mk (PricePoint.ticker p) (Some (PricePoint.price p)) (PricePoint.timestamp p).

Module NaNAware.

(** The body of the loop of [convertToCandlesticks] on one group: [None] is
    a [continue], taken on an empty group and when
    [actualHigh < actualLow || isNaN(open) || isNaN(actualHigh) ||
     isNaN(actualLow) || isNaN(close)]; a comparison with NaN is false. *)
Definition candleOf (group : list ChartPoint.t) : option Candle.t :=
  match group with
  | [] => None
  | first :: rest =>
      let open := ChartPoint.price first in
      let close := ChartPoint.price (List.last group first) in
      let actualHigh :=
        fold_left maxOrNaN (map ChartPoint.price rest) (ChartPoint.price first) in
      let actualLow :=
        fold_left minOrNaN (map ChartPoint.price rest) (ChartPoint.price first) in
      match open, actualHigh, actualLow, close with
      | Some open, Some actualHigh, Some actualLow, Some close =>
          let bodyTop := Qmax open close in
          let bodyBottom := Qmin open close in
          if Qltb actualHigh actualLow then None
          else
            let time := (ChartPoint.timestamp first / 1000)%Z in
            let bodySize :=
              if Qeq_bool (bodyTop - bodyBottom) 0 then 0.01%Q
              else (bodyTop - bodyBottom)%Q in
            let proportionalWickSize := Qmax (bodySize * 0.20) 0.05 in
            let minWickSize := Qmin proportionalWickSize 0.50 in
            let finalHigh :=
              if Qle_bool actualHigh bodyTop then (bodyTop + minWickSize)%Q
              else actualHigh in
            let finalLow :=
              if Qle_bool bodyBottom actualLow then (bodyBottom - minWickSize)%Q
              else actualLow in
            let finalHigh := Qmax finalHigh bodyTop in
            let finalLow := Qmin finalLow bodyBottom in
            Some (Candle.mk time (toFixed2 open) (toFixed2 finalHigh) (toFixed2 finalLow)
                    (toFixed2 close))
      | _, _, _, _ => None
      end
  end.

(** The loop of [convertToCandlesticks] from index [i]; the fuel runs out
    only when the loop does not end ([candlesPerGroup = 0]). *)
Fixpoint candleLoop (fuel : nat) (priceHistory : list ChartPoint.t)
    (candlesPerGroup i : nat) (candles : list Candle.t) : option (list Candle.t) :=
  if (i <? length priceHistory)%nat then
    match fuel with
    | O => None
    | S fuel' =>
        let group := take candlesPerGroup (drop i priceHistory) in
        let candles' :=
          match candleOf group with
          | Some candle => candles ++ [candle]
          | None => candles
          end in
        candleLoop fuel' priceHistory candlesPerGroup (i + candlesPerGroup) candles'
    end
  else Some candles.

(** [None]: the call does not return. *)
Definition convertToCandlesticks (priceHistory : list ChartPoint.t)
    (candlesPerGroup : nat) : option (list Candle.t) :=
  if (length priceHistory =? 0)%nat then Some []
  else candleLoop (length priceHistory) priceHistory candlesPerGroup 0 [].

(** The effect that runs when [priceHistory] changes, the series and the
    chart being there; [existingDataRaw] is what [seriesRef.current.data()]
    returns.  [None]: the effect does not return. *)
Definition chartUpdate (existingDataRaw : list SeriesItem)
    (priceHistory : list ChartPoint.t) : option ChartCall :=
  if (length priceHistory =? 0)%nat then Some (SetData [])
  else
    let recentHistory :=
      if (100 <? length priceHistory)%nat
      then drop (length priceHistory - 100) priceHistory
      else priceHistory in
    match convertToCandlesticks recentHistory 2 with
    | None => None
    | Some candlestickData =>
        if (0 <? length candlestickData)%nat then
          let validData := List.filter isValidCandle candlestickData in
          if (0 <? length validData)%nat then
            if (length existingDataRaw =? 0)%nat then Some (SetData validData)
            else Some (SetData (mergeCandles (barsOf existingDataRaw) validData))
          else Some NoCall
        else Some NoCall
    end.

End NaNAware.

(** Does the point hold a number? *)
Definition isNumber (p : ChartPoint.t) : Prop := is_Some (ChartPoint.price p).

(** The group of candle number [k]:
    [priceHistory.slice(k * candlesPerGroup, (k + 1) * candlesPerGroup)]. *)
Definition groupAt (priceHistory : list ChartPoint.t) (candlesPerGroup k : nat)
    : list ChartPoint.t :=
  take candlesPerGroup (drop (k * candlesPerGroup) priceHistory).

(** Five points, the second of which is NaN; and two points that are NaN. *)
Definition gappedPoints : list ChartPoint.t := [
  ChartPoint.mk "ACME" (Some 100%Q) 0;
  ChartPoint.mk "ACME" None 4000;
  ChartPoint.mk "ACME" (Some 101%Q) 8000;
  ChartPoint.mk "ACME" (Some 101.2%Q) 12000;
  ChartPoint.mk "ACME" (Some 102%Q) 16000 ].

Definition nanPoints : list ChartPoint.t := [
  ChartPoint.mk "ACME" None 0;
  ChartPoint.mk "ACME" None 4000 ].

(** * Properties *)

(** ** Comparisons on rationals *)

Lemma Qltb_lt (a b : Q) : Qltb a b = true ↔ (a < b)%Q.
Proof.
  unfold Qltb. rewrite negb_true_iff, <- not_true_iff_false, Qle_bool_iff.
  split; [apply Qnot_le_lt | apply Qlt_not_le].
Qed.

Lemma Qltb_ge (a b : Q) : Qltb a b = false ↔ (b <= a)%Q.
Proof. unfold Qltb. rewrite negb_false_iff. apply Qle_bool_iff. Qed.

(** ** Price engine *)

Lemma fold_impact_from (l : list NewsEvent.t) (a : Q) :
  (fold_left (fun sum news => sum + NewsEvent.sentiment news * NewsEvent.magnitude news) l a
   == a + totalImpact l)%Q.
Proof.
  unfold totalImpact. revert a.
  induction l as [|n l IH]; intros a; simpl.
  - ring.
  - rewrite (IH (a + _)%Q), (IH (0 + _)%Q). ring.
Qed.

Lemma totalImpact_cons (n : NewsEvent.t) (l : list NewsEvent.t) :
  (totalImpact (n :: l)
   == NewsEvent.sentiment n * NewsEvent.magnitude n + totalImpact l)%Q.
Proof. unfold totalImpact at 1. simpl. rewrite fold_impact_from. ring. Qed.

Lemma totalImpact_recent (now : Z) (company : Company.t) (news : list NewsEvent.t) :
  (totalImpact (recentNewsForCompany now company news)
   == sentimentSum now (Company.ticker company) news)%Q.
Proof.
  unfold recentNewsForCompany.
  induction news as [|n news IH]; simpl.
  - reflexivity.
  - fold (countsFor now (Company.ticker company) n).
    destruct (countsFor now (Company.ticker company) n).
    + rewrite totalImpact_cons, IH. reflexivity.
    + rewrite IH. ring.
Qed.

(** The sentiment term of the code is the formula of the specification. *)
Lemma sentimentImpact_formula (now : Z) (company : Company.t) (news : list NewsEvent.t) :
  (sentimentImpact now company news
   == Company.volatility company * 0.08 * sentimentSum now (Company.ticker company) news)%Q.
Proof.
  unfold sentimentImpact.
  rewrite <- totalImpact_recent.
  destruct (recentNewsForCompany now company news) as [|n l]; simpl.
  - unfold totalImpact. simpl. ring.
  - ring.
Qed.

(** The drift is the affine image of the draw: [[0, 1)] is sent onto
    [[-0.01 m, 0.01 m)] with [m = max(1, timeDelta)]. *)
Lemma drift_affine (d : Draw) (timeDelta : Q) :
  (drift d timeDelta == (2 * random d - 1) * (0.01 * Qmax 1 timeDelta))%Q.
Proof. unfold drift. ring. Qed.

Lemma drift_range (d : Draw) (timeDelta : Q) :
  (0 <= random d)%Q → (random d < 1)%Q →
  (- (0.01 * Qmax 1 timeDelta) <= drift d timeDelta)%Q
  ∧ (drift d timeDelta < 0.01 * Qmax 1 timeDelta)%Q.
Proof.
  intros H0 H1. rewrite drift_affine.
  pose proof (Q.le_max_l 1 timeDelta) as Hm.
  set (m := Qmax 1 timeDelta) in *.
  split; nra.
Qed.

(** C1. Every call of [calculateNewPrice] returns
    [currentPrice × (1 + (drift + sentimentImpact) × (1 + volatility × 0.5))],
    clamped from below at 0.01, where [sentimentImpact] is
    [volatility × 0.08 × Σ(sentiment × magnitude)] and the drift is the value
    [(2r − 1) × 0.01 × max(1, timeDelta)] for the draw [r] of [Math.random()]:
    as [r] ranges over [[0, 1)] the drift ranges over the symmetric interval
    of ±1% scaled by [max(1, timeDelta)]. *)
Theorem calculateNewPrice_formula (d : Draw) (currentPrice : Q)
    (company : Company.t) (recentNews : list NewsEvent.t) (timeDelta : Q) :
  (0 <= random d)%Q → (random d < 1)%Q →
  ∃ drift_ sentiment_ : Q,
    (drift_ == (2 * random d - 1) * (0.01 * Qmax 1 timeDelta))%Q
    ∧ (- (0.01 * Qmax 1 timeDelta) <= drift_)%Q
    ∧ (drift_ < 0.01 * Qmax 1 timeDelta)%Q
    ∧ (sentiment_ == Company.volatility company * 0.08
                     * sentimentSum (clock d) (Company.ticker company) recentNews)%Q
    ∧ (calculateNewPrice d currentPrice company recentNews timeDelta
       == Qmax (currentPrice
                * (1 + (drift_ + sentiment_) * (1 + Company.volatility company * 0.5)))
               0.01)%Q.
Proof.
  intros H0 H1.
  exists (drift d timeDelta), (sentimentImpact (clock d) company recentNews).
  destruct (drift_range d timeDelta H0 H1) as [Hlo Hhi].
  split; [apply drift_affine|].
  split; [exact Hlo|]. split; [exact Hhi|].
  split; [apply sentimentImpact_formula|].
  unfold calculateNewPrice, volatilityMultiplier. reflexivity.
Qed.

Lemma calculateNewPrice_formula_witness :
  ∃ drift_ sentiment_ : Q,
    (drift_ == (2 * 0.25 - 1) * (0.01 * Qmax 1 1))%Q
    ∧ (- (0.01 * Qmax 1 1) <= drift_)%Q
    ∧ (drift_ < 0.01 * Qmax 1 1)%Q
    ∧ (sentiment_ == 0.2 * 0.08
         * sentimentSum 1000 "ACME" [NewsEvent.mk "ACME" "h" "b" 0.9 1 500])%Q
    ∧ (calculateNewPrice (mkDraw 0.25 1000) 100 acme
         [NewsEvent.mk "ACME" "h" "b" 0.9 1 500] 1
       == Qmax (100 * (1 + (drift_ + sentiment_) * (1 + 0.2 * 0.5))) 0.01)%Q.
Proof.
  apply (calculateNewPrice_formula (mkDraw 0.25 1000) 100 acme
           [NewsEvent.mk "ACME" "h" "b" 0.9 1 500] 1); simpl; lra.
Defined.

(** The scenario of the specification: one event of sentiment 0.9 and
    magnitude 1.0 on a company of volatility 0.2 weighs 0.0144. *)
Example sentimentImpact_acme :
  (sentimentImpact 1000 acme [NewsEvent.mk "ACME" "h" "b" 0.9 1 500] == 0.0144)%Q.
Proof. vm_compute. reflexivity. Qed.

(** At the floor the engine answers the floor itself: a price of 0.01 with a
    draw of 0 moves to 0.0099 and is clamped to 0.01, which is not strictly
    above 0.01. *)
Lemma calculateNewPrice_reaches_floor :
  ¬ (∀ (d : Draw) (currentPrice : Q) (company : Company.t)
       (recentNews : list NewsEvent.t) (timeDelta : Q),
       (0.01 < calculateNewPrice d currentPrice company recentNews timeDelta)%Q).
Proof.
  intros H. specialize (H (mkDraw 0 1000) 0.01%Q acme [] 1%Q).
  vm_compute in H. discriminate H.
Qed.

Lemma sentimentSum_bound (now : Z) (ticker : string) (news : list NewsEvent.t) :
  Forall (fun n => (-1 <= NewsEvent.sentiment n)%Q ∧ (NewsEvent.sentiment n <= 1)%Q
                   ∧ (0 <= NewsEvent.magnitude n)%Q ∧ (NewsEvent.magnitude n <= 1)%Q)
         news →
  (Qabs (sentimentSum now ticker news)
   <= inject_Z (Z.of_nat (countingEvents now ticker news)))%Q.
Proof.
  unfold countingEvents.
  induction 1 as [|n news (Hs0 & Hs1 & Hm0 & Hm1) Hrest IH].
  - discriminate.
  - apply Qabs_Qle_condition in IH as [IHlo IHhi].
    apply Qabs_Qle_condition.
    cbn [sentimentSum List.filter].
    destruct (countsFor now ticker n); cbn [length].
    + rewrite Nat2Z.inj_succ, <- Z.add_1_r, inject_Z_plus.
      change (inject_Z 1) with 1%Q.
      set (k := inject_Z (Z.of_nat _)) in *.
      split; nra.
    + split; lra.
Qed.

(** What does hold of the sentiment term: with sentiments in [[-1, 1]],
    magnitudes in [[0, 1]] and a volatility in [[0, 1]], its absolute value
    is at most 0.08 for each event that counts. *)
Lemma sentimentImpact_bound (now : Z) (company : Company.t) (news : list NewsEvent.t) :
  (0 <= Company.volatility company)%Q → (Company.volatility company <= 1)%Q →
  Forall (fun n => (-1 <= NewsEvent.sentiment n)%Q ∧ (NewsEvent.sentiment n <= 1)%Q
                   ∧ (0 <= NewsEvent.magnitude n)%Q ∧ (NewsEvent.magnitude n <= 1)%Q)
         news →
  (Qabs (sentimentImpact now company news)
   <= 0.08 * inject_Z (Z.of_nat (countingEvents now (Company.ticker company) news)))%Q.
Proof.
  intros Hv0 Hv1 Hnews.
  rewrite sentimentImpact_formula.
  pose proof (sentimentSum_bound now (Company.ticker company) news Hnews) as Hsum.
  apply Qabs_Qle_condition in Hsum as [Hlo Hhi].
  apply Qabs_Qle_condition.
  set (k := inject_Z (Z.of_nat _)) in *.
  set (v := Company.volatility company) in *.
  set (x := sentimentSum _ _ _) in *.
  assert (0 <= k)%Q by lra.
  split; nra.
Qed.

(** C3. With two recent events on one ticker, each of sentiment in [[-1, 1]]
    and magnitude in [[0.3, 1.0]], and a volatility of 0.8, the sentiment
    term is [0.8 × 0.08 × (0.72 + 0.72) = 0.09216], above 0.08. *)
Theorem sentimentImpact_exceeds_cap :
  Forall (fun n => (-1 <= NewsEvent.sentiment n)%Q ∧ (NewsEvent.sentiment n <= 1)%Q
                   ∧ (0.3 <= NewsEvent.magnitude n)%Q ∧ (NewsEvent.magnitude n <= 1)%Q)
         twoApprovals
  ∧ (sentimentImpact 60000 volatileCo twoApprovals
     == Company.volatility volatileCo * 0.08
        * sentimentSum 60000 (Company.ticker volatileCo) twoApprovals)%Q
  ∧ (sentimentImpact 60000 volatileCo twoApprovals == 0.09216)%Q
  ∧ (0.08 < Qabs (sentimentImpact 60000 volatileCo twoApprovals))%Q.
Proof.
  split.
  { repeat constructor; vm_compute; discriminate. }
  split; [apply sentimentImpact_formula|].
  split; vm_compute; reflexivity.
Qed.

(** ** History buffers and the news window *)

Lemma length_lastN {A} (n : nat) (l : list A) : length (lastN n l) = min n (length l).
Proof. unfold lastN. rewrite length_drop. lia. Qed.

Lemma lastN_app {A} (n : nat) (l b : list A) :
  lastN n (lastN n l ++ b) = lastN n (l ++ b).
Proof.
  unfold lastN.
  rewrite !drop_app, drop_drop, !length_app, !length_drop.
  f_equal; f_equal; lia.
Qed.

Lemma appendNews_lastN (news newsEvents : list NewsEvent.t) :
  appendNews news newsEvents = lastN 50 (news ++ newsEvents).
Proof.
  unfold appendNews, lastN.
  destruct (Nat.ltb_spec 50 (length (news ++ newsEvents))) as [Hgt|Hle].
  - reflexivity.
  - replace (length (news ++ newsEvents) - 50)%nat with 0%nat by lia. reflexivity.
Qed.

Lemma appendPricePoint_lastN (history : list PricePoint.t) (point : PricePoint.t) :
  (length history ≤ 100)%nat →
  appendPricePoint history point = lastN 100 (history ++ [point]).
Proof.
  intros Hlen. unfold appendPricePoint, lastN.
  destruct (Nat.ltb_spec 100 (length (history ++ [point]))) as [Hgt|Hle].
  - rewrite length_app in *. simpl in *.
    replace (length history + 1 - 100)%nat with 1%nat by lia.
    destruct history; reflexivity.
  - replace (length (history ++ [point]) - 100)%nat with 0%nat by lia. reflexivity.
Qed.

Lemma foldl_appendNews (batches : list (list NewsEvent.t)) (all : list NewsEvent.t) :
  foldl appendNews (lastN 50 all) batches = lastN 50 (all ++ concat batches).
Proof.
  revert all. induction batches as [|b batches IH]; intros all; simpl.
  - by rewrite app_nil_r.
  - rewrite appendNews_lastN, lastN_app, IH. by rewrite <- app_assoc.
Qed.

Lemma foldl_appendPricePoint (points all : list PricePoint.t) :
  foldl appendPricePoint (lastN 100 all) points = lastN 100 (all ++ points).
Proof.
  revert all. induction points as [|p points IH]; intros all; simpl.
  - by rewrite app_nil_r.
  - rewrite appendPricePoint_lastN by (rewrite length_lastN; lia).
    rewrite lastN_app, IH. by rewrite <- app_assoc.
Qed.



(** ** Portfolio ledger *)

Lemma buyStock_inv (portfolio portfolio' : Portfolio Q) (ticker : string)
    (shares_ : Z) (price : Q) :
  buyStock portfolio ticker shares_ price = inr portfolio' →
  (inject_Z shares_ * price <= cash portfolio)%Q
  ∧ (0 < shares_)%Z
  ∧ cash portfolio' = (cash portfolio - inject_Z shares_ * price)%Q
  ∧ ∃ pos', positions portfolio' = <[ticker := pos']> (positions portfolio)
            ∧ shares pos' = (from_option shares 0 (positions portfolio !! ticker)
                             + shares_)%Z.
Proof.
  unfold buyStock. simpl.
  destruct (Qgtb _ _) eqn:Hfunds; [discriminate|].
  destruct (Z.leb_spec shares_ 0) as [|Hpos]; [discriminate|].
  intros [= <-]. simpl.
  apply Qltb_ge in Hfunds.
  split; [exact Hfunds|]. split; [exact Hpos|]. split; [reflexivity|].
  destruct (positions portfolio !! ticker) as [pos|];
    eexists; (split; [reflexivity|]); simpl; lia.
Qed.

Lemma sellStock_inv (portfolio portfolio' : Portfolio Q) (ticker : string)
    (shares_ : Z) (price : Q) :
  sellStock portfolio ticker shares_ price = inr portfolio' →
  (0 < shares_)%Z
  ∧ cash portfolio' = (cash portfolio + inject_Z shares_ * price)%Q
  ∧ ∃ pos, positions portfolio !! ticker = Some pos
           ∧ (shares_ <= shares pos)%Z
           ∧ positions portfolio' =
               if (shares pos - shares_ =? 0)%Z
               then delete ticker (positions portfolio)
               else <[ticker := mkPosition (shares pos - shares_) (averageCost pos)]>
                      (positions portfolio).
Proof.
  unfold sellStock. simpl.
  destruct (Z.leb_spec shares_ 0) as [|Hpos]; [discriminate|].
  destruct (positions portfolio !! ticker) as [pos|]; [|discriminate].
  destruct (Z.ltb_spec (shares pos) shares_) as [|Hheld]; [discriminate|].
  intros [= <-]. simpl.
  split; [exact Hpos|]. split; [reflexivity|].
  exists pos. split; [reflexivity|]. split; [exact Hheld | reflexivity].
Qed.

Lemma buyStock_wellFormed (portfolio portfolio' : Portfolio Q) (ticker : string)
    (shares_ : Z) (price : Q) :
  wellFormed portfolio →
  buyStock portfolio ticker shares_ price = inr portfolio' →
  wellFormed portfolio'.
Proof.
  intros [Hcash Hpos] Hbuy.
  apply buyStock_inv in Hbuy as (Hfunds & Hs & Hc & pos' & Hp & Hshares).
  split; [rewrite Hc; lra|].
  intros t pos. rewrite Hp, lookup_insert.
  case_decide as Ht.
  - intros [= <-]. rewrite Hshares.
    destruct (positions portfolio !! ticker) as [old|] eqn:Hold; simpl; [|lia].
    specialize (Hpos _ _ Hold). lia.
  - apply Hpos.
Qed.

Lemma sellStock_wellFormed (portfolio portfolio' : Portfolio Q) (ticker : string)
    (shares_ : Z) (price : Q) :
  wellFormed portfolio → (0 <= price)%Q →
  sellStock portfolio ticker shares_ price = inr portfolio' →
  wellFormed portfolio'.
Proof.
  intros [Hcash Hpos] Hprice Hsell.
  apply sellStock_inv in Hsell as (Hs & Hc & pos & Hheld & Hle & Hp).
  split.
  - rewrite Hc.
    assert (0 < inject_Z shares_)%Q by (change 0%Q with (inject_Z 0); by rewrite <- Zlt_Qlt).
    nra.
  - intros t pos'. rewrite Hp.
    destruct (Z.eqb_spec (shares pos - shares_) 0) as [Hz|Hnz].
    + rewrite lookup_delete. case_decide; [discriminate | apply Hpos].
    + rewrite lookup_insert. case_decide.
      * intros [= <-]. simpl. lia.
      * apply Hpos.
Qed.

Lemma afterOp_wellFormed (portfolio : Portfolio Q) (op : TradeOp Q) :
  wellFormed portfolio → (0 <= op_price op)%Q → wellFormed (afterOp portfolio op).
Proof.
  intros Hwf Hprice. unfold afterOp.
  destruct (applyOp portfolio op) as [err|portfolio'] eqn:Hop; [exact Hwf|].
  destruct op as [t s p|t s p]; simpl in *.
  - eapply buyStock_wellFormed; eauto.
  - eapply sellStock_wellFormed; eauto.
Qed.

(** C5. From a portfolio whose cash is not negative and whose positions all
    hold a positive number of shares, after each request of any sequence of
    buy and sell requests at prices that are not negative (a failed request
    leaves the portfolio as it was), the cash is not negative and every
    position present holds a positive number of shares; a sale of all the
    shares held removes the position. *)
Theorem ledger_invariants (portfolio : Portfolio Q) (ops : list (TradeOp Q)) :
  wellFormed portfolio →
  Forall (fun op => (0 <= op_price op)%Q) ops →
  Forall wellFormed (ledgerTrace portfolio ops)
  ∧ ∀ (ticker : string) (pos : Position Q) (price : Q) (portfolio' : Portfolio Q),
      positions portfolio !! ticker = Some pos →
      sellStock portfolio ticker (shares pos) price = inr portfolio' →
      positions portfolio' !! ticker = None.
Proof.
  intros Hwf Hops. split.
  - revert portfolio Hwf. induction Hops as [|op ops Hop Hops IH]; intros portfolio Hwf.
    + constructor.
    + simpl. constructor.
      * by apply afterOp_wellFormed.
      * apply IH. by apply afterOp_wellFormed.
  - intros ticker pos price portfolio' Hheld Hsell.
    apply sellStock_inv in Hsell as (_ & _ & pos0 & Hheld0 & _ & ->).
    rewrite Hheld in Hheld0. injection Hheld0 as <-.
    rewrite Z.sub_diag. simpl. apply lookup_delete_eq.
Qed.

Lemma smallPortfolio_wellFormed : wellFormed smallPortfolio.
Proof.
  split; [vm_compute; discriminate|].
  intros t pos. unfold smallPortfolio. simpl.
  intros [_ <-]%lookup_singleton_Some. reflexivity.
Qed.

Lemma ledger_invariants_witness :
  Forall wellFormed
    (ledgerTrace smallPortfolio
       [Buy "ACME" 5 50%Q; Sell "ACME" 15 60%Q; Sell "ACME" 1 60%Q; Buy "MEDI" 100 1000%Q])
  ∧ ∀ (ticker : string) (pos : Position Q) (price : Q) (portfolio' : Portfolio Q),
      positions smallPortfolio !! ticker = Some pos →
      sellStock smallPortfolio ticker (shares pos) price = inr portfolio' →
      positions portfolio' !! ticker = None.
Proof.
  apply (ledger_invariants smallPortfolio
           [Buy "ACME" 5 50%Q; Sell "ACME" 15 60%Q; Sell "ACME" 1 60%Q; Buy "MEDI" 100 1000%Q]).
  - exact smallPortfolio_wellFormed.
  - repeat constructor; vm_compute; discriminate.
Defined.

(** The scenarios of the specification. *)
Example buy_scenario :
  buyStock getInitialPortfolio "ACME" 10 100%Q
  = inr (mkPortfolio (100000 - 10 * 100)%Q {[ "ACME" := mkPosition 10 100%Q ]}).
Proof. reflexivity. Qed.

Example sell_not_held_scenario :
  sellStock getInitialPortfolio "ACME" 10 100%Q = inl NoPosition.
Proof. reflexivity. Qed.


(** In exact arithmetic the round trip is exact: when a purchase succeeds,
    the sale of the same quantity of the same ticker at the same price right
    after it returns the cash to the value it had before the purchase; the
    difference seen above is the rounding of the two operations. *)
Lemma buy_then_sell_exact (portfolio portfolio1 : Portfolio Q)
    (ticker : string) (shares_ : Z) (price : Q) :
  buyStock portfolio ticker shares_ price = inr portfolio1 →
  (∀ portfolio2 : Portfolio Q,
     sellStock portfolio1 ticker shares_ price = inr portfolio2 →
     (cash portfolio2 == cash portfolio)%Q)
  ∧ (wellFormed portfolio →
     ∃ portfolio2 : Portfolio Q,
       sellStock portfolio1 ticker shares_ price = inr portfolio2
       ∧ (cash portfolio2 == cash portfolio)%Q).
Proof.
  intros Hbuy.
  apply buyStock_inv in Hbuy as (Hfunds & Hs & Hc & pos' & Hp & Hshares).
  assert (∀ portfolio2 : Portfolio Q,
            sellStock portfolio1 ticker shares_ price = inr portfolio2 →
            (cash portfolio2 == cash portfolio)%Q) as Hback.
  { intros portfolio2 Hsell.
    apply sellStock_inv in Hsell as (_ & Hc2 & _).
    rewrite Hc2, Hc. ring. }
  split; [exact Hback|].
  intros [_ Hpos].
  assert (shares_ <= shares pos')%Z as Hheld.
  { rewrite Hshares.
    destruct (positions portfolio !! ticker) as [old|] eqn:Hold; simpl; [|lia].
    specialize (Hpos _ _ Hold). lia. }
  destruct (sellStock portfolio1 ticker shares_ price) as [err|portfolio2] eqn:Hsell.
  - exfalso. revert Hsell. unfold sellStock.
    destruct (Z.leb_spec shares_ 0) as [|_]; [lia|].
    rewrite Hp, lookup_insert_eq.
    destruct (Z.ltb_spec (shares pos') shares_) as [|_]; [lia|]. discriminate.
  - exists portfolio2. split; [reflexivity | by apply Hback].
Qed.

(** ** Trade entry points *)

(** C7. When the ledger call of [handleBuy] or of [handleSell] fails with an
    error, whatever that error is, the entry point throws that very error and
    the state is the one it was called on: nothing of it changed. *)
Theorem trade_failure_propagates {E : Type}
    (buyStock_ sellStock_ : Portfolio Q → string → Z → option Q → E + Portfolio Q)
    (st : MarketState) (ticker : string) (shares_ : Z) (err : E) :
  (buyStock_ (portfolio st) ticker shares_ (prices st !! ticker) = inl err →
   handleBuy buyStock_ (Some st) ticker shares_ = (Some st, Thrown err))
  ∧ (sellStock_ (portfolio st) ticker shares_ (prices st !! ticker) = inl err →
     handleSell sellStock_ (Some st) ticker shares_ = (Some st, Thrown err)).
Proof.
  split; intros Hfail; unfold handleBuy, handleSell; rewrite Hfail; reflexivity.
Qed.

Lemma trade_failure_propagates_witness :
  handleBuy (atQuote buyStock) (Some acmeMarket) "ACME" 0
    = (Some acmeMarket, Thrown InvalidQuantity)
  ∧ handleSell (atQuote sellStock) (Some acmeMarket) "ACME" 0
    = (Some acmeMarket, Thrown InvalidQuantity).
Proof.
  split.
  - apply (proj1 (trade_failure_propagates (atQuote buyStock) (atQuote sellStock)
                    acmeMarket "ACME" 0 InvalidQuantity)).
    reflexivity.
  - apply (proj2 (trade_failure_propagates (atQuote buyStock) (atQuote sellStock)
                    acmeMarket "ACME" 0 InvalidQuantity)).
    reflexivity.
Defined.

(** Each of the four ledger errors reaches the caller with the state
    untouched. *)
Example trade_errors_on_acmeMarket :
  handleBuy (atQuote buyStock) (Some acmeMarket) "ACME" 0
    = (Some acmeMarket, Thrown InvalidQuantity)
  ∧ handleBuy (atQuote buyStock) (Some acmeMarket) "ACME" 1001
    = (Some acmeMarket, Thrown InsufficientFunds)
  ∧ handleSell (atQuote sellStock) (Some acmeMarket) "ACME" 1
    = (Some acmeMarket, Thrown NoPosition)
  ∧ (∃ st, handleBuy (atQuote buyStock) (Some acmeMarket) "ACME" 1 = (Some st, Returned)
           ∧ handleSell (atQuote sellStock) (Some st) "ACME" 2
             = (Some st, Thrown InsufficientShares)).
Proof.
  split; [reflexivity|]. split; [reflexivity|]. split; [reflexivity|].
  eexists. split; reflexivity.
Qed.

(** ** The tick process *)

Lemma tickLoop_spec (now : Z) (env : nat → Draw) (prevState : MarketState)
    (cs : list Company.t) :
  ∀ (i : nat) (acc res : gmap string Q * gmap string (list PricePoint.t)),
    tickLoop now env prevState i cs acc = Some res →
    ∀ t : string,
      (t ∉ tickers cs → res.1 !! t = acc.1 !! t ∧ res.2 !! t = acc.2 !! t)
      ∧ (t ∈ tickers cs →
         ∃ (j : nat) (company : Company.t) (p : Q) (h : list PricePoint.t),
           cs !! j = Some company
           ∧ Company.ticker company = t
           ∧ prices prevState !! t = Some p
           ∧ priceHistory prevState !! t = Some h
           ∧ res.1 !! t = Some (advanced now (env (i + j)%nat) prevState company p h).1
           ∧ res.2 !! t = Some (advanced now (env (i + j)%nat) prevState company p h).2).
Proof.
  induction cs as [|c cs IH]; intros i acc res Hloop t.
  - simpl in Hloop. injection Hloop as <-.
    split; [done|]. unfold tickers. simpl. by intros ?%elem_of_nil.
  - simpl in Hloop.
    destruct (prices prevState !! Company.ticker c) as [p|] eqn:Hp; [|discriminate].
    destruct (priceHistory prevState !! Company.ticker c) as [h|] eqn:Hh; [|discriminate].
    specialize (IH _ _ _ Hloop t) as [IHout IHin]. simpl in IHout, IHin.
    destruct (decide (t ∈ tickers cs)) as [Hin|Hout].
    + split.
      * intros Hnot. exfalso. apply Hnot. unfold tickers in *. simpl. by right.
      * intros _. destruct (IHin Hin) as (j & c' & p' & h' & Hj & Ht & Hp' & Hh' & H1 & H2).
        exists (S j), c', p', h'.
        replace (i + S j)%nat with (S i + j)%nat by lia. done.
    + destruct (IHout Hout) as [H1 H2].
      destruct (decide (Company.ticker c = t)) as [Heq|Hne].
      * split.
        -- intros Hnot. exfalso. apply Hnot. unfold tickers. simpl. rewrite Heq. by left.
        -- intros _. exists 0%nat, c, p, h. subst t.
           rewrite Nat.add_0_r, H1, H2, !lookup_insert_eq. done.
      * split.
        -- intros _. by rewrite H1, H2, !lookup_insert_ne.
        -- unfold tickers at 1. simpl. intros [?|?]%elem_of_cons; [congruence | done].
Qed.

Lemma tickLoop_total (now : Z) (env : nat → Draw) (prevState : MarketState)
    (cs : list Company.t) :
  (∀ t, t ∈ tickers cs →
        is_Some (prices prevState !! t) ∧ is_Some (priceHistory prevState !! t)) →
  ∀ (i : nat) (acc : gmap string Q * gmap string (list PricePoint.t)),
    is_Some (tickLoop now env prevState i cs acc).
Proof.
  induction cs as [|c cs IH]; intros Hq i acc; simpl.
  - done.
  - destruct (Hq (Company.ticker c)) as [[p ->] [h ->]].
    { unfold tickers. simpl. by left. }
    apply IH. intros t Ht. apply Hq. unfold tickers in *. simpl. by right.
Qed.

Lemma last_appendPricePoint (history : list PricePoint.t) (point : PricePoint.t) :
  last (appendPricePoint history point) = Some point.
Proof.
  unfold appendPricePoint.
  destruct (Nat.ltb_spec 100 (length (history ++ [point]))) as [Hgt|Hle].
  - destruct history as [|x history]; simpl in *; [lia|]. apply last_snoc.
  - apply last_snoc.
Qed.

Lemma tick_spec (now : Z) (env : nat → Draw) (prevState : MarketState) :
  quoted prevState →
  ∃ st' : MarketState,
    tick now env prevState = Some st'
    ∧ companies st' = companies prevState
    ∧ news st' = news prevState
    ∧ portfolio st' = portfolio prevState
    ∧ ∀ t : string,
        (t ∉ tickers (companies prevState) →
         prices st' !! t = None ∧ priceHistory st' !! t = None)
        ∧ (t ∈ tickers (companies prevState) →
           ∃ (i : nat) (company : Company.t) (p : Q) (h : list PricePoint.t),
             companies prevState !! i = Some company
             ∧ Company.ticker company = t
             ∧ prices prevState !! t = Some p
             ∧ priceHistory prevState !! t = Some h
             ∧ prices st' !! t = Some (advanced now (env i) prevState company p h).1
             ∧ priceHistory st' !! t
               = Some (advanced now (env i) prevState company p h).2).
Proof.
  intros Hq. unfold tick.
  destruct (tickLoop_total now env prevState (companies prevState) Hq 0 (∅, ∅))
    as [[newPrices newPriceHistory] Hloop].
  rewrite Hloop. eexists. split; [reflexivity|]. simpl.
  split; [reflexivity|]. split; [reflexivity|]. split; [reflexivity|].
  intros t. destruct (tickLoop_spec _ _ _ _ _ _ _ Hloop t) as [Hout Hin]. simpl in *.
  split.
  - intros Hnot. destruct (Hout Hnot) as [-> ->]. by rewrite !lookup_empty.
  - exact Hin.
Qed.

Lemma tickers_lookup (cs : list Company.t) (i : nat) (company : Company.t) :
  cs !! i = Some company → tickers cs !! i = Some (Company.ticker company).
Proof. intros Hi. unfold tickers. by rewrite list_lookup_fmap, Hi. Qed.

(** C8. One firing of the tick timer, on a state in which every company has a
    price and a history, yields one new state that keeps the roster, the news
    and the portfolio, and in which the price and the history of every
    company's ticker are the engine's result on that ticker's price in the
    previous state and on the news of the previous state, and that
    previous history with the new point appended; tickers of no company
    have no entry.  With distinct tickers, the company at position [i] gets
    [calculateNewPrice] of its own previous price, whatever the other
    companies got in this firing. *)
Theorem tick_reads_one_snapshot (now : Z) (env : nat → Draw) (prevState : MarketState) :
  quoted prevState →
  ∃ st' : MarketState,
    tick now env prevState = Some st'
    ∧ companies st' = companies prevState
    ∧ news st' = news prevState
    ∧ portfolio st' = portfolio prevState
    ∧ (∀ t : string, t ∉ tickers (companies prevState) →
         prices st' !! t = None ∧ priceHistory st' !! t = None)
    ∧ (∀ t : string, t ∈ tickers (companies prevState) →
         ∃ (i : nat) (company : Company.t) (p : Q) (h : list PricePoint.t),
           companies prevState !! i = Some company
           ∧ Company.ticker company = t
           ∧ prices prevState !! t = Some p
           ∧ priceHistory prevState !! t = Some h
           ∧ let newPrice := calculateNewPrice (env i) p company (news prevState) 1 in
             prices st' !! t = Some newPrice
             ∧ priceHistory st' !! t
               = Some (appendPricePoint h (PricePoint.mk t newPrice now)))
    ∧ (NoDup (tickers (companies prevState)) →
       ∀ (i : nat) (company : Company.t),
         companies prevState !! i = Some company →
         ∃ (p : Q) (h : list PricePoint.t),
           prices prevState !! Company.ticker company = Some p
           ∧ priceHistory prevState !! Company.ticker company = Some h
           ∧ let newPrice := calculateNewPrice (env i) p company (news prevState) 1 in
             prices st' !! Company.ticker company = Some newPrice
             ∧ priceHistory st' !! Company.ticker company
               = Some (appendPricePoint h
                         (PricePoint.mk (Company.ticker company) newPrice now))).
Proof.
  intros Hq.
  destruct (tick_spec now env prevState Hq) as (st' & Htick & Hc & Hn & Hpf & Hspec).
  exists st'. split; [exact Htick|].
  split; [exact Hc|]. split; [exact Hn|]. split; [exact Hpf|].
  split; [intros t; apply Hspec|]. split.
  - intros t Ht.
    destruct (proj2 (Hspec t) Ht) as (i & c & p & h & Hi & Hct & Hp & Hh & H1 & H2).
    exists i, c, p, h. subst t. simpl in *. done.
  - intros Hnodup i company Hi.
    pose proof (tickers_lookup _ _ _ Hi) as Hti.
    assert (Company.ticker company ∈ tickers (companies prevState)) as Hin
      by (apply list_elem_of_lookup; eauto).
    destruct (proj2 (Hspec _) Hin) as (j & c & p & h & Hj & Hct & Hp & Hh & H1 & H2).
    pose proof (tickers_lookup _ _ _ Hj) as Htj. rewrite Hct in Htj.
    assert (j = i) as -> by (eapply NoDup_lookup; eauto).
    assert (c = company) as -> by congruence.
    exists p, h. simpl in *. done.
Qed.

(** C10. After one firing of the tick timer, for every company the history
    of its ticker is the previous one with one point appended; that point is
    the last of the new history, its price is the entry of the ticker in the
    new prices, its ticker is the key of the history and its timestamp is the
    [Date.now()] of the firing, the same for all companies. *)
Theorem tick_price_is_last_point (now : Z) (env : nat → Draw) (prevState : MarketState) :
  quoted prevState →
  ∃ st' : MarketState,
    tick now env prevState = Some st'
    ∧ ∀ company : Company.t, company ∈ companies prevState →
        ∃ (prevHistory history : list PricePoint.t) (point : PricePoint.t),
          priceHistory prevState !! Company.ticker company = Some prevHistory
          ∧ priceHistory st' !! Company.ticker company = Some history
          ∧ history = appendPricePoint prevHistory point
          ∧ last history = Some point
          ∧ prices st' !! Company.ticker company = Some (PricePoint.price point)
          ∧ PricePoint.ticker point = Company.ticker company
          ∧ PricePoint.timestamp point = now.
Proof.
  intros Hq.
  destruct (tick_spec now env prevState Hq) as (st' & Htick & _ & _ & _ & Hspec).
  exists st'. split; [exact Htick|].
  intros company Hc.
  assert (Company.ticker company ∈ tickers (companies prevState)) as Hin
    by (unfold tickers; apply list_elem_of_fmap; eauto).
  destruct (proj2 (Hspec _) Hin) as (i & c & p & h & Hi & Hct & Hp & Hh & H1 & H2).
  simpl in H1, H2.
  eexists h, _, _. split; [exact Hh|]. split; [exact H2|].
  split; [reflexivity|]. split; [apply last_appendPricePoint|].
  simpl. done.
Qed.

Lemma initializeLoop_quoted (clock : nat → Z) (cs : list Company.t) :
  ∀ (i : nat) (acc : gmap string Q * gmap string (list PricePoint.t)) (t : string),
    t ∈ tickers cs ∨ (is_Some (acc.1 !! t) ∧ is_Some (acc.2 !! t)) →
    is_Some ((initializeLoop clock i cs acc).1 !! t)
    ∧ is_Some ((initializeLoop clock i cs acc).2 !! t).
Proof.
  induction cs as [|c cs IH]; intros i acc t Ht; simpl.
  - destruct Ht as [Ht|Ht]; [|exact Ht]. unfold tickers in Ht. simpl in Ht.
    by apply elem_of_nil in Ht.
  - apply IH. simpl.
    destruct (decide (Company.ticker c = t)) as [<-|Hne].
    + right. rewrite !lookup_insert_eq. split; eauto.
    + destruct Ht as [Ht|Ht].
      * unfold tickers in Ht. simpl in Ht.
        apply elem_of_cons in Ht as [Ht|Ht]; [congruence | by left].
      * right. by rewrite !lookup_insert_ne.
Qed.

(** Every state the hook goes through has a price and a history for every
    company: the firings of the tick timer never leave the model. *)
Lemma reachable_quoted (st : MarketState) : reachable st → quoted st.
Proof.
  induction 1 as [clock cs | now env st st' Hreach IH Htick
                 | st newsEvents Hreach IH | st newPortfolio Hreach IH].
  - intros t Ht. unfold initialize in *. simpl in *.
    apply initializeLoop_quoted. by left.
  - destruct (tick_spec now env st IH) as (st2 & Htick2 & Hc & _ & _ & Hspec).
    assert (st2 = st') as -> by congruence.
    intros t Ht. rewrite Hc in Ht.
    destruct (proj2 (Hspec t) Ht) as (i & c & p & h & _ & _ & _ & _ & -> & ->).
    split; eauto.
  - unfold updateNews. destruct (0 <? length newsEvents)%nat; exact IH.
  - exact IH.
Qed.

Lemma acmeMarket_quoted : quoted acmeMarket.
Proof. apply reachable_quoted. constructor. Qed.

Lemma tick_reads_one_snapshot_witness :
  ∃ st' : MarketState,
    tick 34000 mixedDraws twoCompanyMarket = Some st'
    ∧ news st' = twoApprovals
    ∧ prices st' !! "ACME"
      = Some (calculateNewPrice (mixedDraws 0) 100 acme twoApprovals 1)
    ∧ prices st' !! "MEDI"
      = Some (calculateNewPrice (mixedDraws 1) 50 volatileCo twoApprovals 1).
Proof.
  destruct (tick_reads_one_snapshot 34000 mixedDraws twoCompanyMarket
              (reachable_quoted _
                 (reach_news _ twoApprovals
                    (reach_initialize (fun _ => 0%Z) [acme; volatileCo]))))
    as (st' & Htick & _ & Hnews & _ & _ & _ & Hnodup).
  exists st'. split; [exact Htick|]. split; [exact Hnews|].
  assert (NoDup (tickers (companies twoCompanyMarket))) as Hnd
    by (apply (bool_decide_unpack _); vm_compute; reflexivity).
  split.
  - destruct (Hnodup Hnd 0%nat acme eq_refl) as (p & h & Hp & _ & Hprice & _).
    vm_compute in Hp. injection Hp as <-. exact Hprice.
  - destruct (Hnodup Hnd 1%nat volatileCo eq_refl) as (p & h & Hp & _ & Hprice & _).
    vm_compute in Hp. injection Hp as <-. exact Hprice.
Defined.

(** The firing on the market of two companies: ACME, without news of its
    own, moves from 100 to 100.55 on its draw of 0.75; MEDI moves from 50 to
    56.1012 on its draw of 0.25 and the two approvals.  Neither sees the new
    price of the other. *)
Example tick_twoCompanyMarket :
  ∃ st', tick 34000 mixedDraws twoCompanyMarket = Some st'
         ∧ (from_option id 0 (prices st' !! "ACME") == 100.55)%Q
         ∧ (from_option id 0 (prices st' !! "MEDI") == 56.1012)%Q.
Proof. eexists. split; [reflexivity|]. split; vm_compute; reflexivity. Qed.

Lemma tick_price_is_last_point_witness :
  ∃ st' : MarketState,
    tick 4000 (fun _ => mkDraw 0.75 4000) acmeMarket = Some st'
    ∧ ∃ (history : list PricePoint.t) (point : PricePoint.t),
        priceHistory st' !! "ACME" = Some history
        ∧ last history = Some point
        ∧ prices st' !! "ACME" = Some (PricePoint.price point)
        ∧ PricePoint.timestamp point = 4000%Z.
Proof.
  destruct (tick_price_is_last_point 4000 (fun _ => mkDraw 0.75 4000) acmeMarket
              acmeMarket_quoted)
    as (st' & Htick & Hlast).
  exists st'. split; [exact Htick|].
  destruct (Hlast acme ltac:(by left)) as (h0 & h & pt & _ & Hh & _ & Hl & Hp & _ & Ht).
  exists h, pt. done.
Defined.

(** One firing on the market of one company: a draw of 0.75 and no news move
    a price of 100 to 100.55. *)
Example tick_acmeMarket :
  ∃ st', tick 4000 (fun _ => mkDraw 0.75 4000) acmeMarket = Some st'
         ∧ (from_option id 0 (prices st' !! "ACME") == 100.55)%Q
         ∧ length (default [] (priceHistory st' !! "ACME")) = 2%nat.
Proof. eexists. split; [reflexivity|]. split; vm_compute; reflexivity. Qed.

(** ** The buffers in the running hook *)

Lemma initializeLoop_history (clock : nat → Z) (cs : list Company.t) :
  ∀ (i : nat) (acc : gmap string Q * gmap string (list PricePoint.t))
    (t : string) (h : list PricePoint.t),
    (initializeLoop clock i cs acc).2 !! t = Some h →
    acc.2 !! t = Some h
    ∨ ∃ (j : nat) (company : Company.t),
        cs !! j = Some company
        ∧ Company.ticker company = t
        ∧ h = [PricePoint.mk t (Company.basePrice company) (clock (i + j)%nat)].
Proof.
  induction cs as [|c cs IH]; intros i acc t h Hh; simpl in Hh.
  - by left.
  - apply IH in Hh as [Hacc | (j & c' & Hj & Ht & Hh)].
    + simpl in Hacc. rewrite lookup_insert in Hacc. case_decide as Heq.
      * right. exists 0%nat, c. injection Hacc as <-. subst t.
        rewrite Nat.add_0_r. done.
      * by left.
    + right. exists (S j), c'. replace (i + S j)%nat with (S i + j)%nat by lia. done.
Qed.

Lemma length_appendPricePoint (history : list PricePoint.t) (point : PricePoint.t) :
  (length history ≤ 100)%nat → (length (appendPricePoint history point) ≤ 100)%nat.
Proof.
  intros Hlen. rewrite appendPricePoint_lastN by exact Hlen.
  rewrite length_lastN. lia.
Qed.

(** In every state the hook goes through, the news window holds at most 50
    events and every price history at most 100 points. *)
Lemma reachable_bounded (st : MarketState) :
  reachable st →
  (length (news st) ≤ 50)%nat
  ∧ ∀ (t : string) (h : list PricePoint.t),
      priceHistory st !! t = Some h → (length h ≤ 100)%nat.
Proof.
  intros Hreach. pose proof Hreach as Hr.
  induction Hr as [clock cs | now env st st' Hr IH Htick
                  | st newsEvents Hr IH | st newPortfolio Hr IH].
  - split; [simpl; lia|]. intros t h Hh. unfold initialize in Hh. simpl in Hh.
    apply initializeLoop_history in Hh as [Hh | (j & c & _ & _ & ->)].
    + simpl in Hh. by rewrite lookup_empty in Hh.
    + simpl. lia.
  - destruct (IH Hr) as [IHnews IHhist].
    destruct (tick_spec now env st (reachable_quoted st Hr))
      as (st2 & Htick2 & _ & Hn & _ & Hspec).
    assert (st2 = st') as -> by congruence.
    split; [by rewrite Hn|].
    intros t h Hh.
    destruct (decide (t ∈ tickers (companies st))) as [Hin|Hout].
    + destruct (proj2 (Hspec t) Hin) as (i & c & p & h0 & _ & _ & _ & Hh0 & _ & Hh').
      rewrite Hh' in Hh. injection Hh as <-. simpl.
      apply length_appendPricePoint. by eapply IHhist.
    + destruct (proj1 (Hspec t) Hout) as [_ Hnone]. congruence.
  - destruct (IH Hr) as [IHnews IHhist]. unfold updateNews.
    destruct (0 <? length newsEvents)%nat; [|by split].
    split; [|exact IHhist]. simpl.
    rewrite appendNews_lastN, length_lastN. lia.
  - exact (IH Hr).
Qed.

(** C4. A ticker's history starts as the one point at [basePrice] that
    [initializePriceHistory] builds, also in the state that [initialize]
    sets.  From there, a history that receives any sequence of points holds
    the last 100 of all points that arrived, in arrival order; starting
    empty, the news window that receives any sequence of batches holds the
    last 50 of all events that arrived, in arrival order.  So neither exceeds
    its capacity, and once more entries have arrived than the capacity, the
    length is the capacity and the entries dropped are the oldest ones.  In
    every state the hook goes through, the window holds at most 50 events
    and every history at most 100 points. *)
Theorem bounded_fifo_buffers :
  (∀ (now : Z) (ticker : string) (basePrice : Q),
     initializePriceHistory now ticker basePrice = [PricePoint.mk ticker basePrice now])
  ∧ (∀ (clock : nat → Z) (cs : list Company.t) (t : string) (h : list PricePoint.t),
       priceHistory (initialize clock cs) !! t = Some h →
       ∃ (i : nat) (company : Company.t),
         cs !! i = Some company
         ∧ Company.ticker company = t
         ∧ h = [PricePoint.mk t (Company.basePrice company) (clock i)])
  ∧ (∀ (now : Z) (ticker : string) (basePrice : Q) (points : list PricePoint.t),
       let arrived := initializePriceHistory now ticker basePrice ++ points in
       let history :=
         foldl appendPricePoint (initializePriceHistory now ticker basePrice) points in
       (length history ≤ 100)%nat
       ∧ history = drop (length arrived - 100) arrived
       ∧ ((100 < length arrived)%nat → length history = 100%nat))
  ∧ (∀ batches : list (list NewsEvent.t),
       let arrived := concat batches in
       let window := foldl appendNews [] batches in
       (length window ≤ 50)%nat
       ∧ window = drop (length arrived - 50) arrived
       ∧ ((50 < length arrived)%nat → length window = 50%nat))
  ∧ (∀ st : MarketState, reachable st →
       (length (news st) ≤ 50)%nat
       ∧ ∀ (t : string) (h : list PricePoint.t),
           priceHistory st !! t = Some h → (length h ≤ 100)%nat).
Proof.
  split; [reflexivity|]. split; [|split; [|split]].
  - intros clock cs t h Hh. unfold initialize in Hh. simpl in Hh.
    apply initializeLoop_history in Hh as [Hh | Hh].
    + simpl in Hh. by rewrite lookup_empty in Hh.
    + exact Hh.
  - intros now ticker basePrice points arrived history.
    assert (history = lastN 100 arrived) as ->.
    { subst history arrived.
      change (initializePriceHistory now ticker basePrice)
        with (lastN 100 (initializePriceHistory now ticker basePrice)) at 1.
      apply foldl_appendPricePoint. }
    rewrite length_lastN. split; [lia|]. split; [reflexivity | lia].
  - intros batches arrived window.
    assert (window = lastN 50 arrived) as ->.
    { subst window arrived.
      change (@nil NewsEvent.t) with (lastN 50 (@nil NewsEvent.t)) at 1.
      apply foldl_appendNews. }
    rewrite length_lastN. split; [lia|]. split; [reflexivity | lia].
  - exact reachable_bounded.
Qed.

(** 150 ticks on one ticker: the history stays at 100 points and the first
    50 are gone. *)
Example history_after_150_ticks :
  let points := map (fun i => PricePoint.mk "ACME" 100 (Z.of_nat i)) (seq 1 150) in
  let history := foldl appendPricePoint (initializePriceHistory 0 "ACME" 100) points in
  length history = 100%nat
  ∧ map PricePoint.timestamp history = map Z.of_nat (seq 51 100).
Proof. vm_compute. split; reflexivity. Qed.

(** ** News collaborator *)

Lemma randomIndex_range {A} (r : Q) (arr : list A) :
  (0 <= r)%Q → (r < 1)%Q → arr ≠ [] →
  (0 <= randomIndex r arr < Z.of_nat (length arr))%Z.
Proof.
  intros H0 H1 Hne. unfold randomIndex.
  assert (0 < length arr)%nat as Hlen by (destruct arr; simpl; [done | lia]).
  set (n := Z.of_nat (length arr)).
  assert (0 < inject_Z n)%Q as Hn.
  { change 0%Q with (inject_Z 0). rewrite <- Zlt_Qlt. lia. }
  split.
  - assert (0 <= r * inject_Z n)%Q as Hge by nra.
    apply Qfloor_resp_le in Hge. exact Hge.
  - rewrite Zlt_Qlt.
    apply Qle_lt_trans with (r * inject_Z n)%Q; [apply Qfloor_le | nra].
Qed.

Lemma jsIndex_in_range {A} (arr : list A) (idx : Z) :
  (0 <= idx < Z.of_nat (length arr))%Z → ∃ x, jsIndex arr idx = Some x ∧ x ∈ arr.
Proof.
  intros [Hlo Hhi]. unfold jsIndex.
  destruct (Z.ltb_spec idx 0) as [|_]; [lia|].
  destruct (lookup_lt_is_Some_2 arr (Z.to_nat idx)) as [x Hx]; [lia|].
  exists x. split; [exact Hx|]. apply list_elem_of_lookup. eauto.
Qed.

Lemma random_pick {A} (r : Q) (arr : list A) :
  (0 <= r)%Q → (r < 1)%Q → arr ≠ [] →
  ∃ x, jsIndex arr (randomIndex r arr) = Some x ∧ x ∈ arr.
Proof. intros. by apply jsIndex_in_range, randomIndex_range. Qed.

Lemma fallbackEvent_known (rng : nat → Q) (now : Z) (companies : list Company.t)
    (i : nat) :
  unitDraws rng → companies ≠ [] →
  ∃ event, fallbackEvent rng now companies i = Some event
           ∧ NewsEvent.ticker event ∈ tickers companies.
Proof.
  intros Hrng Hne. unfold fallbackEvent.
  destruct (random_pick (rng (4 * i)%nat) companies) as (company & -> & Hin);
    [apply Hrng | apply Hrng | exact Hne |].
  cbn [mbind option_bind].
  set (templates := if Qgtb _ _ then positiveTemplates else negativeTemplates).
  destruct (random_pick (rng (4 * i + 2)%nat) templates) as (template & -> & _);
    [apply Hrng | apply Hrng | subst templates; by destruct (Qgtb _ _) |].
  cbn [mbind option_bind].
  destruct (random_pick (rng (4 * i + 3)%nat) (bodyTemplates company)) as (body & -> & _);
    [apply Hrng | apply Hrng | done |].
  cbn [mbind option_bind]. eexists. split; [reflexivity|]. simpl.
  unfold tickers. apply list_elem_of_fmap. eauto.
Qed.

Lemma fallbackLoop_known (rng : nat → Q) (now : Z) (companies : list Company.t) (n : nat) :
  unitDraws rng → (n = 0%nat ∨ companies ≠ []) →
  ∀ (i : nat) (news : list NewsEvent.t),
    Forall (fun e => NewsEvent.ticker e ∈ tickers companies) news →
    ∃ events, fallbackLoop rng now companies n i news = Some events
              ∧ Forall (fun e => NewsEvent.ticker e ∈ tickers companies) events.
Proof.
  intros Hrng. induction n as [|n IH]; intros Hne i news Hnews; simpl.
  - eauto.
  - destruct Hne as [|Hne]; [done|].
    destruct (fallbackEvent_known rng now companies i Hrng Hne) as (event & -> & Hin).
    apply IH; [by right|].
    apply Forall_app. split; [exact Hnews | by constructor].
Qed.

Lemma generateFallbackNews_known (rng : nat → Q) (now : Z)
    (companies : list Company.t) (count : Z) :
  unitDraws rng →
  ∃ events, generateFallbackNews rng now companies count = Some events
            ∧ Forall (fun e => NewsEvent.ticker e ∈ tickers companies) events.
Proof.
  intros Hrng. unfold generateFallbackNews.
  apply fallbackLoop_known; [exact Hrng | | constructor].
  destruct companies; [left | by right]. simpl. lia.
Qed.

Lemma existsb_known (companies : list Company.t) (t : string) :
  existsb (fun c => String.eqb (Company.ticker c) t) companies = true →
  t ∈ tickers companies.
Proof.
  intros (c & Hc & Heq)%existsb_exists.
  apply String.eqb_eq in Heq. subst t.
  unfold tickers. apply list_elem_of_fmap. exists c. split; [done|].
  by apply list_elem_of_In.
Qed.

(** C9. Whatever the external service answers, and for every roster and
    count, [generateNews] returns events (its promise is never rejected) and
    every event returned carries the ticker of a company of the roster: of a
    parsed answer only the events of known tickers are kept, and when the
    call fails the events are those of [generateFallbackNews].  The draws of
    [Math.random()] lie in [[0, 1)]. *)
Theorem generateNews_known_tickers (api : ApiOutcome) (rng : nat → Q) (now : Z)
    (companies : list Company.t) (count : Z) :
  (∀ n, (0 <= rng n)%Q ∧ (rng n < 1)%Q) →
  ∃ events : list NewsEvent.t,
    generateNews api rng now companies count = Some events
    ∧ Forall (fun e => NewsEvent.ticker e ∈ map Company.ticker companies) events
    ∧ (api = ApiFailed → generateFallbackNews rng now companies count = Some events).
Proof.
  intros Hrng. destruct api as [news|]; simpl.
  - eexists. split; [reflexivity|]. split; [|discriminate].
    apply Forall_fmap, Forall_forall. intros n Hn. simpl.
    unfold jsSlice0 in Hn. apply elem_of_take in Hn as (k & Hk & _).
    apply list_elem_of_lookup_2, list_elem_of_In, filter_In in Hk as [_ Hk].
    by apply existsb_known.
  - destruct (generateFallbackNews_known rng now companies count Hrng) as (events & -> & Hknown).
    exists events. done.
Qed.

Lemma generateNews_known_tickers_witness :
  ∃ events : list NewsEvent.t,
    generateNews ApiFailed (fun _ => 0.5%Q) 1000 [acme; volatileCo] 3 = Some events
    ∧ Forall (fun e => NewsEvent.ticker e ∈ map Company.ticker [acme; volatileCo]) events
    ∧ (ApiFailed = ApiFailed →
       generateFallbackNews (fun _ => 0.5%Q) 1000 [acme; volatileCo] 3 = Some events).
Proof.
  apply (generateNews_known_tickers ApiFailed (fun _ => 0.5%Q) 1000 [acme; volatileCo] 3).
  intros n. split; [discriminate | reflexivity].
Defined.

(** A parsed answer with an unknown ticker, and a failed call. *)
Example generateNews_discards_unknown :
  generateNews
    (ApiParsed [RawNews.mk "TECH" "h1" "b1" 0.8 0.7; RawNews.mk "ACME" "h2" "b2" (-0.9) 0.9])
    (fun _ => 0.5%Q) 1000 [acme] 2
  = Some [NewsEvent.mk "ACME" "h2" "b2" (-0.9) 0.9 1000].
Proof. reflexivity. Qed.

Example generateNews_falls_back :
  option_map (map NewsEvent.ticker)
    (generateNews ApiFailed (fun _ => 0.5%Q) 1000 [acme; volatileCo] 3)
  = Some ["MEDI"; "MEDI"].
Proof. vm_compute. reflexivity. Qed.

(** * Further properties *)

(** ** Price engine: what the news can and cannot do *)

Lemma filter_countsFor_idem (now : Z) (ticker : string) (news : list NewsEvent.t) :
  List.filter (countsFor now ticker) (List.filter (countsFor now ticker) news)
  = List.filter (countsFor now ticker) news.
Proof.
  induction news as [|n news IH]; simpl; [reflexivity|].
  destruct (countsFor now ticker n) eqn:Hn; simpl; [rewrite Hn, IH|]; done.
Qed.

Lemma recentNewsForCompany_filter (now : Z) (company : Company.t)
    (news : list NewsEvent.t) :
  recentNewsForCompany now company news
  = List.filter (countsFor now (Company.ticker company)) news.
Proof. reflexivity. Qed.

Lemma filter_countsFor_none (now : Z) (ticker : string) (news : list NewsEvent.t) :
  Forall (fun n => countsFor now ticker n = false) news →
  List.filter (countsFor now ticker) news = [].
Proof.
  induction 1 as [|n news Hn _ IH]; simpl; [reflexivity|]. by rewrite Hn.
Qed.

(** X1. Only the events of the company's own ticker that are less than 120
    seconds old enter the price: the engine gives the same result on the
    whole news list and on those events alone, and when no event is of that
    kind it gives the result it gives without any news. *)
Theorem calculateNewPrice_ignores_other_news (d : Draw) (currentPrice : Q)
    (company : Company.t) (recentNews : list NewsEvent.t) (timeDelta : Q) :
  calculateNewPrice d currentPrice company recentNews timeDelta
  = calculateNewPrice d currentPrice company
      (List.filter (countsFor (clock d) (Company.ticker company)) recentNews) timeDelta
  ∧ (Forall (fun n => countsFor (clock d) (Company.ticker company) n = false) recentNews →
     calculateNewPrice d currentPrice company recentNews timeDelta
     = calculateNewPrice d currentPrice company [] timeDelta).
Proof.
  unfold calculateNewPrice, sentimentImpact.
  rewrite !recentNewsForCompany_filter. split.
  - by rewrite filter_countsFor_idem.
  - intros Hnone. by rewrite (filter_countsFor_none _ _ _ Hnone).
Qed.

Lemma calculateNewPrice_ignores_other_news_witness :
  calculateNewPrice (mkDraw 0.25 200000) 100 acme
    [NewsEvent.mk "MEDI" "h" "b" 0.9 1 199000; NewsEvent.mk "ACME" "h" "b" 0.9 1 1000] 1
  = calculateNewPrice (mkDraw 0.25 200000) 100 acme [] 1.
Proof.
  apply (proj2 (calculateNewPrice_ignores_other_news (mkDraw 0.25 200000) 100 acme
                  [NewsEvent.mk "MEDI" "h" "b" 0.9 1 199000;
                   NewsEvent.mk "ACME" "h" "b" 0.9 1 1000] 1)).
  repeat constructor.
Defined.


Lemma sentimentImpact_nil (now : Z) (company : Company.t) :
  sentimentImpact now company [] = 0%Q.
Proof. reflexivity. Qed.




(** ** The market state along a run *)

Lemma initializeLoop_spec (clock : nat → Z) (cs : list Company.t) :
  ∀ (i : nat) (acc : gmap string Q * gmap string (list PricePoint.t)) (t : string),
    (t ∉ tickers cs →
     (initializeLoop clock i cs acc).1 !! t = acc.1 !! t
     ∧ (initializeLoop clock i cs acc).2 !! t = acc.2 !! t)
    ∧ (t ∈ tickers cs →
       ∃ (j : nat) (company : Company.t),
         cs !! j = Some company
         ∧ Company.ticker company = t
         ∧ (initializeLoop clock i cs acc).1 !! t = Some (Company.basePrice company)
         ∧ (initializeLoop clock i cs acc).2 !! t
           = Some (initializePriceHistory (clock (i + j)%nat) t
                     (Company.basePrice company))).
Proof.
  induction cs as [|c cs IH]; intros i acc t.
  - split; [done|]. unfold tickers. simpl. by intros ?%elem_of_nil.
  - simpl initializeLoop.
    match goal with |- context [initializeLoop clock (S i) cs ?a] => set (acc' := a) end.
    specialize (IH (S i) acc' t) as [IHout IHin].
    destruct (decide (t ∈ tickers cs)) as [Hin|Hout].
    + split.
      * intros Hnot. exfalso. apply Hnot. unfold tickers in *. simpl. by right.
      * intros _. destruct (IHin Hin) as (j & c' & Hj & Ht & H1 & H2).
        exists (S j), c'. replace (i + S j)%nat with (S i + j)%nat by lia. done.
    + destruct (IHout Hout) as [H1 H2].
      destruct (decide (Company.ticker c = t)) as [Heq|Hne].
      * split.
        -- intros Hnot. exfalso. apply Hnot. unfold tickers. simpl. rewrite Heq. by left.
        -- intros _. exists 0%nat, c. subst t acc'.
           rewrite Nat.add_0_r, H1, H2. simpl. rewrite !lookup_insert_eq. done.
      * split.
        -- intros _. subst acc'. rewrite H1, H2. simpl. by rewrite !lookup_insert_ne.
        -- unfold tickers at 1. simpl. intros [?|?]%elem_of_cons; [congruence | done].
Qed.

(** X5. The state that [initialize] sets, for a roster of distinct tickers:
    the company at position [i] is priced at its [basePrice] and its history
    is the one point at [basePrice] taken at the [i]-th reading of the clock;
    a ticker of no company has neither price nor history; there is no news and
    the portfolio is the initial one. *)
Theorem initialize_state (clock : nat → Z) (cs : list Company.t) :
  NoDup (tickers cs) →
  companies (initialize clock cs) = cs
  ∧ news (initialize clock cs) = []
  ∧ portfolio (initialize clock cs) = getInitialPortfolio
  ∧ (∀ (i : nat) (company : Company.t),
       cs !! i = Some company →
       prices (initialize clock cs) !! Company.ticker company
       = Some (Company.basePrice company)
       ∧ priceHistory (initialize clock cs) !! Company.ticker company
         = Some [PricePoint.mk (Company.ticker company) (Company.basePrice company)
                   (clock i)])
  ∧ (∀ t : string, t ∉ tickers cs →
       prices (initialize clock cs) !! t = None
       ∧ priceHistory (initialize clock cs) !! t = None).
Proof.
  intros Hnodup. split; [reflexivity|]. split; [reflexivity|]. split; [reflexivity|].
  unfold initialize. simpl. split.
  - intros i company Hi.
    pose proof (tickers_lookup _ _ _ Hi) as Hti.
    assert (Company.ticker company ∈ tickers cs) as Hin
      by (apply list_elem_of_lookup; eauto).
    destruct (proj2 (initializeLoop_spec clock cs 0 (∅, ∅) _) Hin)
      as (j & c & Hj & Hct & H1 & H2).
    pose proof (tickers_lookup _ _ _ Hj) as Htj. rewrite Hct in Htj.
    assert (j = i) as -> by (eapply NoDup_lookup; eauto).
    assert (c = company) as -> by congruence.
    done.
  - intros t Hout.
    destruct (proj1 (initializeLoop_spec clock cs 0 (∅, ∅) t) Hout) as [-> ->].
    simpl. by rewrite !lookup_empty.
Qed.

Lemma initialize_state_witness :
  prices (initialize (fun i => Z.of_nat i) [acme; volatileCo]) !! "MEDI" = Some 50%Q
  ∧ priceHistory (initialize (fun i => Z.of_nat i) [acme; volatileCo]) !! "MEDI"
    = Some [PricePoint.mk "MEDI" 50 1].
Proof.
  destruct (initialize_state (fun i => Z.of_nat i) [acme; volatileCo])
    as (_ & _ & _ & Hentry & _).
  { apply (bool_decide_unpack _). vm_compute. reflexivity. }
  exact (Hentry 1%nat volatileCo eq_refl).
Defined.

Lemma Forall_appendPricePoint (P : PricePoint.t → Prop) (history : list PricePoint.t)
    (point : PricePoint.t) :
  Forall P history → P point → Forall P (appendPricePoint history point).
Proof.
  intros Hh Hp. unfold appendPricePoint.
  assert (Forall P (history ++ [point])) as Hall
    by (apply Forall_app; split; [done | by constructor]).
  destruct (100 <? length (history ++ [point]))%nat; [|exact Hall].
  destruct (history ++ [point]); [constructor | by inversion Hall].
Qed.

Lemma reachable_coherent (st : MarketState) : reachable st → coherent st.
Proof.
  intros Hreach. pose proof Hreach as Hr.
  induction Hr as [clock cs | now env st st' Hr IH Htick
                  | st newsEvents Hr IH | st newPortfolio Hr IH].
  - intros t. unfold initialize. simpl.
    destruct (initializeLoop_spec clock cs 0 (∅, ∅) t) as [Hout Hin]. split.
    + intros Ht. destruct (Hout Ht) as [-> ->]. simpl. by rewrite !lookup_empty.
    + intros Ht. destruct (Hin Ht) as (j & c & _ & _ & -> & ->).
      eexists _, _. split; [reflexivity|]. split; [reflexivity|].
      split; [reflexivity|]. by repeat constructor.
  - specialize (IH Hr).
    destruct (tick_spec now env st (reachable_quoted st Hr))
      as (st2 & Htick2 & Hc & _ & _ & Hspec).
    assert (st2 = st') as -> by congruence.
    intros t. rewrite Hc. destruct (Hspec t) as [Hout Hin]. split; [exact Hout|].
    intros Ht. destruct (Hin Ht) as (i & c & p & h & _ & Hct & _ & Hh & -> & ->).
    destruct (proj2 (IH t) Ht) as (h0 & pt0 & Hh0 & _ & _ & Hall).
    assert (h0 = h) as -> by congruence.
    eexists _, _. split; [reflexivity|]. simpl.
    split; [apply last_appendPricePoint|]. split; [reflexivity|].
    by apply Forall_appendPricePoint.
  - unfold updateNews. destruct (0 <? length newsEvents)%nat; exact (IH Hr).
  - exact (IH Hr).
Qed.

(** X6. In every state the hook goes through, prices and histories agree:
    a ticker of no company has neither a price nor a history, and for a
    company's ticker the history is not empty, the price is the price of its
    last point, and every point of it carries that ticker. *)
Theorem reachable_prices_match_histories (st : MarketState) :
  reachable st →
  ∀ t : string,
    (t ∉ map Company.ticker (companies st) →
     prices st !! t = None ∧ priceHistory st !! t = None)
    ∧ (t ∈ map Company.ticker (companies st) →
       ∃ (h : list PricePoint.t) (point : PricePoint.t),
         priceHistory st !! t = Some h
         ∧ (1 ≤ length h)%nat
         ∧ last h = Some point
         ∧ prices st !! t = Some (PricePoint.price point)
         ∧ Forall (fun x => PricePoint.ticker x = t) h).
Proof.
  intros Hreach t.
  destruct (reachable_coherent st Hreach t) as [Hout Hin].
  split; [exact Hout|].
  intros Ht. destruct (Hin Ht) as (h & point & Hh & Hlast & Hprice & Hall).
  exists h, point. split; [exact Hh|]. split; [|done].
  destruct h; [discriminate | simpl; lia].
Qed.

Lemma acmeMarket_reachable : reachable acmeMarket.
Proof. constructor. Qed.

Lemma reachable_prices_match_histories_witness :
  ∃ (h : list PricePoint.t) (point : PricePoint.t),
    priceHistory acmeMarket !! "ACME" = Some h
    ∧ (1 ≤ length h)%nat
    ∧ last h = Some point
    ∧ prices acmeMarket !! "ACME" = Some (PricePoint.price point)
    ∧ Forall (fun x => PricePoint.ticker x = "ACME") h.
Proof.
  apply (proj2 (reachable_prices_match_histories acmeMarket acmeMarket_reachable "ACME")).
  by left.
Defined.

(** ** The change shown on a stock card *)

Lemma appendPricePoint_last_two (history : list PricePoint.t) (x point : PricePoint.t) :
  last history = Some x →
  ∃ front, appendPricePoint history point = front ++ [x; point].
Proof.
  intros Hlast.
  assert (∃ h0, history = h0 ++ [x]) as [h0 ->].
  { destruct history as [|a history] using rev_ind; [discriminate|].
    rewrite last_snoc in Hlast. injection Hlast as ->. eauto. }
  unfold appendPricePoint. rewrite <- app_assoc. simpl.
  destruct (Nat.ltb_spec 100 (length (h0 ++ [x; point]))) as [Hgt|_].
  - destruct h0 as [|a h0]; [simpl in Hgt; lia|]. simpl. eauto.
  - eauto.
Qed.

Lemma getPriceChange_two (st : MarketState) (t : string)
    (front : list PricePoint.t) (x point : PricePoint.t) :
  priceHistory st !! t = Some (front ++ [x; point]) →
  getPriceChange st t
  = ((PricePoint.price point - PricePoint.price x)%Q,
     if Qeq_bool (PricePoint.price x) 0 then 0%Q
     else ((PricePoint.price point - PricePoint.price x) / PricePoint.price x * 100)%Q).
Proof.
  intros Hh. unfold getPriceChange. rewrite Hh. simpl default.
  assert (length (front ++ [x; point]) = S (S (length front))) as Hlen
    by (rewrite length_app; simpl; lia).
  rewrite Hlen. simpl Nat.ltb. cbn iota.
  replace (S (S (length front)) - 1)%nat with (length front + 1)%nat by lia.
  replace (S (S (length front)) - 2)%nat with (length front + 0)%nat by lia.
  rewrite !lookup_app_r by lia.
  replace (length front + 1 - length front)%nat with 1%nat by lia.
  replace (length front + 0 - length front)%nat with 0%nat by lia.
  reflexivity.
Qed.

(** X8. The change of a stock card.  In the state that [initialize] sets,
    [getPriceChange] answers [(0, 0)] for every ticker.  After a firing of
    the tick timer on a state the hook goes through, for every company's
    ticker the change is the new price minus the price before the firing, and
    the percentage is that change over the price before, times 100 (0 when
    the price before is 0). *)
Theorem getPriceChange_after_tick :
  (∀ (clock : nat → Z) (cs : list Company.t) (t : string),
     getPriceChange (initialize clock cs) t = (0%Q, 0%Q))
  ∧ (∀ (now : Z) (env : nat → Draw) (st : MarketState) (t : string) (p : Q),
       reachable st →
       prices st !! t = Some p →
       ∃ (st' : MarketState) (q : Q),
         tick now env st = Some st'
         ∧ prices st' !! t = Some q
         ∧ getPriceChange st' t
           = ((q - p)%Q, if Qeq_bool p 0 then 0%Q else ((q - p) / p * 100)%Q)).
Proof.
  split.
  - intros clock cs t. unfold getPriceChange.
    destruct (priceHistory (initialize clock cs) !! t) as [h|] eqn:Hh; [|reflexivity].
    unfold initialize in Hh. simpl in Hh.
    apply initializeLoop_history in Hh as [Hh | (j & c & _ & _ & ->)].
    + simpl in Hh. by rewrite lookup_empty in Hh.
    + reflexivity.
  - intros now env st t p Hreach Hp.
    pose proof (reachable_coherent st Hreach t) as [Hout Hin].
    destruct (decide (t ∈ tickers (companies st))) as [Ht|Ht];
      [|destruct (Hout Ht) as [Hnone _]; congruence].
    destruct (Hin Ht) as (h & x & Hh & Hlast & Hpx & _).
    assert (PricePoint.price x = p) as Hx by congruence.
    destruct (tick_spec now env st (reachable_quoted st Hreach))
      as (st' & Htick & _ & _ & _ & Hspec).
    destruct (proj2 (Hspec t) Ht) as (i & c & p0 & h0 & _ & _ & Hp0 & Hh0 & H1 & H2).
    assert (h0 = h) as -> by congruence.
    simpl in H1, H2.
    eexists st', _. split; [exact Htick|]. split; [exact H1|].
    destruct (appendPricePoint_last_two h x
                (PricePoint.mk (Company.ticker c)
                   (calculateNewPrice (env i) p0 c (news st) 1) now) Hlast)
      as [front Hfront].
    rewrite Hfront in H2.
    rewrite (getPriceChange_two st' t front x _ H2). simpl. by rewrite Hx.
Qed.

Lemma getPriceChange_after_tick_witness :
  ∃ (st' : MarketState) (q : Q),
    tick 4000 (fun _ => mkDraw 0.75 4000) acmeMarket = Some st'
    ∧ prices st' !! "ACME" = Some q
    ∧ getPriceChange st' "ACME"
      = ((q - 100)%Q, if Qeq_bool 100 0 then 0%Q else ((q - 100) / 100 * 100)%Q).
Proof.
  apply (proj2 getPriceChange_after_tick 4000%Z (fun _ => mkDraw 0.75 4000) acmeMarket
           "ACME" 100%Q acmeMarket_reachable).
  reflexivity.
Defined.

(** A draw of 0.75 moves ACME from 100 to 100.55: the card shows +0.55,
    that is +0.55%. *)
Example getPriceChange_acme :
  ∃ st', tick 4000 (fun _ => mkDraw 0.75 4000) acmeMarket = Some st'
         ∧ ((getPriceChange st' "ACME").1 == 0.55)%Q
         ∧ ((getPriceChange st' "ACME").2 == 0.55)%Q.
Proof. eexists. split; [reflexivity|]. split; vm_compute; reflexivity. Qed.

(** ** The news cycle *)

Lemma jsIndex_elem_of {A} (arr : list A) (idx : Z) (x : A) :
  jsIndex arr idx = Some x → x ∈ arr.
Proof.
  unfold jsIndex. destruct (idx <? 0)%Z; [discriminate|].
  intros Hx. apply list_elem_of_lookup. eauto.
Qed.

Lemma templates_in_range :
  Forall (fun t => (-1 <= t_sentiment t)%Q ∧ (t_sentiment t <= 1)%Q
                   ∧ (0.3 <= t_magnitude t)%Q ∧ (t_magnitude t <= 1)%Q)
         (positiveTemplates ++ negativeTemplates).
Proof. repeat constructor; discriminate. Qed.

Lemma fallbackEvent_shape (rng : nat → Q) (now : Z) (companies : list Company.t)
    (i : nat) (event : NewsEvent.t) :
  fallbackEvent rng now companies i = Some event →
  (-1 <= NewsEvent.sentiment event)%Q ∧ (NewsEvent.sentiment event <= 1)%Q
  ∧ (0.3 <= NewsEvent.magnitude event)%Q ∧ (NewsEvent.magnitude event <= 1)%Q
  ∧ NewsEvent.timestamp event = (now + Z.of_nat i * 100)%Z.
Proof.
  unfold fallbackEvent.
  destruct (jsIndex companies _) as [company|]; [|discriminate].
  cbn [mbind option_bind].
  set (templates := if Qgtb _ _ then positiveTemplates else negativeTemplates).
  destruct (jsIndex templates _) as [template|] eqn:Ht; [|discriminate].
  cbn [mbind option_bind].
  destruct (jsIndex (bodyTemplates company) _) as [body|]; [|discriminate].
  cbn [mbind option_bind]. intros [= <-]. simpl.
  apply jsIndex_elem_of in Ht.
  assert (template ∈ positiveTemplates ++ negativeTemplates) as Hin.
  { apply elem_of_app. subst templates. destruct (Qgtb _ _); [by left | by right]. }
  pose proof templates_in_range as Hall. rewrite Forall_forall in Hall.
  destruct (Hall _ Hin) as (? & ? & ? & ?). done.
Qed.

Lemma fallbackLoop_shape (rng : nat → Q) (now : Z) (companies : list Company.t) (n : nat) :
  ∀ (i : nat) (news events : list NewsEvent.t),
    fallbackLoop rng now companies n i news = Some events →
    ∃ added,
      events = news ++ added
      ∧ length added = n
      ∧ ∀ (k : nat) (e : NewsEvent.t),
          added !! k = Some e →
          (-1 <= NewsEvent.sentiment e)%Q ∧ (NewsEvent.sentiment e <= 1)%Q
          ∧ (0.3 <= NewsEvent.magnitude e)%Q ∧ (NewsEvent.magnitude e <= 1)%Q
          ∧ NewsEvent.timestamp e = (now + Z.of_nat (i + k) * 100)%Z.
Proof.
  induction n as [|n IH]; intros i news events Hloop; simpl in Hloop.
  - injection Hloop as <-. exists []. rewrite app_nil_r.
    split; [done|]. split; [done|]. intros k e Hk. by rewrite lookup_nil in Hk.
  - destruct (fallbackEvent rng now companies i) as [event|] eqn:He; [|discriminate].
    apply IH in Hloop as (added & -> & Hlen & Hshape).
    exists (event :: added). rewrite <- app_assoc. split; [done|].
    split; [simpl; lia|].
    intros [|k] e Hk; simpl in Hk.
    + injection Hk as <-. rewrite Nat.add_0_r. by eapply fallbackEvent_shape.
    + replace (i + S k)%nat with (S i + k)%nat by lia. by apply Hshape.
Qed.

(** X9. The events of the fallback generator: for draws in [[0, 1)] it
    returns [min(count, companies.length)] events (none when that is not
    positive, in particular for an empty roster); the [k]-th of them has a
    sentiment in [[-1, 1]], a magnitude in [[0.3, 1]], the ticker of a company
    of the roster and the timestamp [now + 100 k]. *)
Theorem generateFallbackNews_events (rng : nat → Q) (now : Z)
    (companies : list Company.t) (count : Z) :
  (∀ n, (0 <= rng n)%Q ∧ (rng n < 1)%Q) →
  ∃ events : list NewsEvent.t,
    generateFallbackNews rng now companies count = Some events
    ∧ length events = Z.to_nat (Z.min count (Z.of_nat (length companies)))
    ∧ ∀ (k : nat) (e : NewsEvent.t),
        events !! k = Some e →
        (-1 <= NewsEvent.sentiment e)%Q ∧ (NewsEvent.sentiment e <= 1)%Q
        ∧ (0.3 <= NewsEvent.magnitude e)%Q ∧ (NewsEvent.magnitude e <= 1)%Q
        ∧ NewsEvent.ticker e ∈ map Company.ticker companies
        ∧ NewsEvent.timestamp e = (now + Z.of_nat k * 100)%Z.
Proof.
  intros Hrng.
  destruct (generateFallbackNews_known rng now companies count Hrng)
    as (events & Hgen & Hknown).
  exists events. split; [exact Hgen|].
  unfold generateFallbackNews in Hgen.
  apply fallbackLoop_shape in Hgen as (added & -> & Hlen & Hshape).
  simpl in *. split; [exact Hlen|].
  intros k e Hk. destruct (Hshape k e Hk) as (? & ? & ? & ? & ?).
  rewrite Forall_forall in Hknown.
  repeat (split; [done|]). split; [|done].
  apply Hknown. apply list_elem_of_lookup. eauto.
Qed.

Lemma generateFallbackNews_events_witness :
  ∃ events : list NewsEvent.t,
    generateFallbackNews (fun _ => 0.5%Q) 1000 [acme; volatileCo] 3 = Some events
    ∧ length events = 2%nat.
Proof.
  destruct (generateFallbackNews_events (fun _ => 0.5%Q) 1000 [acme; volatileCo] 3)
    as (events & Hgen & Hlen & _).
  { intros n. split; [discriminate | reflexivity]. }
  exists events. split; [exact Hgen | exact Hlen].
Defined.

Lemma generateNews_parsed_eq (raw : list RawNews.t) (rng : nat → Q) (now : Z)
    (companies : list Company.t) (count : Z) :
  generateNews (ApiParsed raw) rng now companies count
  = Some (map (stamped now) (jsSlice0 (List.filter (knownTicker companies) raw) count)).
Proof. reflexivity. Qed.

Lemma length_jsSlice0 {A} (arr : list A) (count : Z) :
  (0 <= count)%Z →
  length (jsSlice0 arr count) = Z.to_nat (Z.min count (Z.of_nat (length arr))).
Proof.
  intros Hc. unfold jsSlice0.
  destruct (Z.ltb_spec count 0) as [|_]; [lia|].
  rewrite length_take. lia.
Qed.

(** X10. An answer of the external service that parses: the events returned
    are the parsed events of known tickers, in their order, each with the
    timestamp [now] and its other fields as parsed; for a count that is not
    negative there are [min(count, number of known events)] of them, so an
    event of an unknown ticker never takes the place of a known one. *)
Theorem generateNews_parsed_events (raw : list RawNews.t) (rng : nat → Q) (now : Z)
    (companies : list Company.t) (count : Z) :
  (0 <= count)%Z →
  ∃ events : list NewsEvent.t,
    generateNews (ApiParsed raw) rng now companies count = Some events
    ∧ length events
      = Z.to_nat (Z.min count
                    (Z.of_nat (length (List.filter (knownTicker companies) raw))))
    ∧ ∀ (k : nat) (e : NewsEvent.t),
        events !! k = Some e →
        ∃ n : RawNews.t,
          List.filter (knownTicker companies) raw !! k = Some n
          ∧ RawNews.ticker n ∈ map Company.ticker companies
          ∧ e = NewsEvent.mk (RawNews.ticker n) (RawNews.headline n) (RawNews.body n)
                  (RawNews.sentiment n) (RawNews.magnitude n) now.
Proof.
  intros Hc. rewrite generateNews_parsed_eq. eexists. split; [reflexivity|].
  split.
  - by rewrite length_map, length_jsSlice0.
  - intros k e Hk. rewrite list_lookup_fmap in Hk.
    destruct (jsSlice0 _ count !! k) as [n|] eqn:Hn; [|discriminate].
    injection Hk as <-. unfold jsSlice0 in Hn.
    apply lookup_take_Some in Hn as [Hn _].
    exists n. split; [exact Hn|]. split; [|reflexivity].
    assert (n ∈ List.filter (knownTicker companies) raw) as Hin
      by (apply list_elem_of_lookup; eauto).
    apply list_elem_of_In, filter_In in Hin as [_ Hknown].
    by apply existsb_known.
Qed.

Lemma generateNews_parsed_events_witness :
  ∃ events : list NewsEvent.t,
    generateNews
      (ApiParsed [RawNews.mk "TECH" "h1" "b1" 0.8 0.7; RawNews.mk "ACME" "h2" "b2" (-0.9) 0.9])
      (fun _ => 0.5%Q) 1000 [acme] 1
    = Some events
    ∧ length events = 1%nat.
Proof.
  destruct (generateNews_parsed_events
              [RawNews.mk "TECH" "h1" "b1" 0.8 0.7; RawNews.mk "ACME" "h2" "b2" (-0.9) 0.9]
              (fun _ => 0.5%Q) 1000 [acme] 1 ltac:(discriminate))
    as (events & Hgen & Hlen & _).
  exists events. split; [exact Hgen | exact Hlen].
Defined.

Lemma lastN_app_short {A} (n : nat) (l b : list A) :
  (length b ≤ n)%nat → lastN n (l ++ b) = lastN (n - length b) l ++ b.
Proof.
  intros Hb. unfold lastN. rewrite drop_app, length_app.
  replace (length l + length b - n - length l)%nat with 0%nat by lia.
  simpl. f_equal. f_equal. lia.
Qed.

Lemma fallbackEvent_ticker (rng : nat → Q) (now : Z) (companies : list Company.t)
    (i : nat) (event : NewsEvent.t) :
  fallbackEvent rng now companies i = Some event →
  NewsEvent.ticker event ∈ tickers companies.
Proof.
  unfold fallbackEvent.
  destruct (jsIndex companies _) as [company|] eqn:Hc; [|discriminate].
  cbn [mbind option_bind].
  set (templates := if Qgtb _ _ then positiveTemplates else negativeTemplates).
  destruct (jsIndex templates _) as [template|]; [|discriminate].
  cbn [mbind option_bind].
  destruct (jsIndex (bodyTemplates company) _) as [body|]; [|discriminate].
  cbn [mbind option_bind]. intros [= <-]. simpl.
  apply jsIndex_elem_of in Hc. unfold tickers. apply list_elem_of_fmap. eauto.
Qed.

Lemma fallbackLoop_tickers (rng : nat → Q) (now : Z) (companies : list Company.t) (n : nat) :
  ∀ (i : nat) (news events : list NewsEvent.t),
    Forall (fun e => NewsEvent.ticker e ∈ tickers companies) news →
    fallbackLoop rng now companies n i news = Some events →
    Forall (fun e => NewsEvent.ticker e ∈ tickers companies) events.
Proof.
  induction n as [|n IH]; intros i news events Hnews Hloop; simpl in Hloop.
  - by injection Hloop as <-.
  - destruct (fallbackEvent rng now companies i) as [event|] eqn:He; [|discriminate].
    eapply IH; [|exact Hloop]. apply Forall_app. split; [exact Hnews|].
    constructor; [by eapply fallbackEvent_ticker | constructor].
Qed.

Lemma generateNews_returned (api : ApiOutcome) (rng : nat → Q) (now : Z)
    (companies : list Company.t) (count : Z) (events : list NewsEvent.t) :
  (0 <= count)%Z →
  generateNews api rng now companies count = Some events →
  (Z.of_nat (length events) <= count)%Z
  ∧ Forall (fun e => NewsEvent.ticker e ∈ tickers companies) events.
Proof.
  intros Hc Hgen. destruct api as [raw|].
  - rewrite generateNews_parsed_eq in Hgen. injection Hgen as <-. split.
    + rewrite length_map, length_jsSlice0 by exact Hc. lia.
    + apply Forall_fmap, Forall_forall. intros n Hn. simpl.
      unfold jsSlice0 in Hn. apply elem_of_take in Hn as (k & Hk & _).
      apply list_elem_of_lookup_2, list_elem_of_In, filter_In in Hk as [_ Hk].
      by apply existsb_known.
  - simpl in Hgen. unfold generateFallbackNews in Hgen. split.
    + apply fallbackLoop_shape in Hgen as (added & -> & Hlen & _). simpl. lia.
    + eapply fallbackLoop_tickers; [|exact Hgen]. constructor.
Qed.

Lemma newsCount_range (r : Q) :
  (0 <= r)%Q → (r < 1)%Q → (1 <= Qfloor (r * 3) + 1 <= 3)%Z.
Proof.
  intros H0 H1.
  assert (0 <= Qfloor (r * 3))%Z
    by (apply (Qfloor_resp_le 0 (r * 3)); lra).
  assert (Qfloor (r * 3) < 3)%Z.
  { rewrite Zlt_Qlt. apply Qle_lt_trans with (r * 3)%Q; [apply Qfloor_le|].
    change (inject_Z 3) with 3%Q. lra. }
  lia.
Qed.

(** X11. One news cycle.  For draws in [[0, 1)], whatever the external
    service does, [generateNews] answers with at most 3 events, all of
    tickers of the roster, and [generateAndUpdateNews] leaves the roster, the
    prices, the histories and the portfolio as they are and makes the news
    window the last 50 of the old window followed by exactly those events
    (the old window itself when there are none).  On a window of at most 50
    events, which is what every state the hook goes through has, the new
    window is the end of the old one followed by all the events returned, and
    holds at most 50. *)
Theorem generateAndUpdateNews_window (r : Q) (api : ApiOutcome) (rng : nat → Q)
    (now : Z) (st : MarketState) :
  (0 <= r)%Q → (r < 1)%Q → unitDraws rng →
  ∃ events : list NewsEvent.t,
    generateNews api rng now (companies st) (Qfloor (r * 3) + 1) = Some events
    ∧ (length events ≤ 3)%nat
    ∧ Forall (fun e => NewsEvent.ticker e ∈ map Company.ticker (companies st)) events
    ∧ let st' := generateAndUpdateNews r api rng now (companies st) st in
      companies st' = companies st
      ∧ prices st' = prices st
      ∧ priceHistory st' = priceHistory st
      ∧ portfolio st' = portfolio st
      ∧ news st' = (if (0 <? length events)%nat
                    then lastN 50 (news st ++ events) else news st)
      ∧ ((length (news st) ≤ 50)%nat →
         news st' = lastN (50 - length events) (news st) ++ events
         ∧ (length (news st') ≤ 50)%nat).
Proof.
  intros H0 H1 Hrng.
  pose proof (newsCount_range r H0 H1) as Hcount.
  assert (∃ events, generateNews api rng now (companies st) (Qfloor (r * 3) + 1)
                    = Some events) as [events Hgen].
  { destruct api as [raw|]; simpl; [eauto|].
    destruct (generateFallbackNews_known rng now (companies st) (Qfloor (r * 3) + 1) Hrng)
      as (events & Hev & _). eauto. }
  exists events. split; [exact Hgen|].
  pose proof Hgen as Hret.
  apply generateNews_returned in Hret as [Hlen Hknown]; [|lia].
  split; [lia|]. split; [exact Hknown|].
  unfold generateAndUpdateNews. rewrite Hgen. unfold updateNews.
  destruct (Nat.ltb_spec 0 (length events)) as [Hpos|Hzero]; simpl.
  - repeat (split; [reflexivity|]).
    rewrite appendNews_lastN. split; [reflexivity|].
    intros Hwin. rewrite lastN_app_short by lia. split; [reflexivity|].
    rewrite length_app, length_lastN. lia.
  - repeat (split; [reflexivity|]).
    intros Hwin. destruct events; [|simpl in Hzero; lia].
    rewrite app_nil_r. split; [|exact Hwin].
    unfold lastN. simpl. replace (length (news st) - 50)%nat with 0%nat by lia.
    reflexivity.
Qed.

Lemma generateAndUpdateNews_window_witness :
  ∃ events : list NewsEvent.t,
    generateNews ApiFailed (fun _ => 0.5%Q) 1000 [acme] (Qfloor (0.5 * 3) + 1) = Some events
    ∧ news (generateAndUpdateNews 0.5 ApiFailed (fun _ => 0.5%Q) 1000 [acme] fullWindowMarket)
      = lastN (50 - length events) (news fullWindowMarket) ++ events
    ∧ (length (news (generateAndUpdateNews 0.5 ApiFailed (fun _ => 0.5%Q) 1000 [acme]
                       fullWindowMarket)) ≤ 50)%nat.
Proof.
  destruct (generateAndUpdateNews_window 0.5 ApiFailed (fun _ => 0.5%Q) 1000 fullWindowMarket
              ltac:(discriminate) ltac:(reflexivity)
              ltac:(intros n; split; [discriminate | reflexivity]))
    as (events & Hgen & _ & _ & _ & _ & _ & _ & _ & Hwin).
  exists events. split; [exact Hgen|].
  apply Hwin. vm_compute. lia.
Defined.

(** On the full window the cycle drops the oldest event and appends the
    fallback event for ACME. *)
Example generateAndUpdateNews_full_window :
  map NewsEvent.timestamp
    (news (generateAndUpdateNews 0.5 ApiFailed (fun _ => 0.5%Q) 1000 [acme] fullWindowMarket))
  = map Z.of_nat (seq 1 49) ++ [1000%Z].
Proof. vm_compute. reflexivity. Qed.

(** A failed call on the market of one company: the fallback event for ACME
    enters the window. *)
Example generateAndUpdateNews_acme :
  map NewsEvent.ticker
    (news (generateAndUpdateNews 0.5 ApiFailed (fun _ => 0.5%Q) 1000 [acme] acmeMarket))
  = ["ACME"].
Proof. vm_compute. reflexivity. Qed.

(** ** Candlesticks *)

Lemma Qfloor_nonneg (x : Q) : (0 <= x)%Q → (0 <= Qfloor x)%Z.
Proof. intros Hx. exact (Qfloor_resp_le 0 x Hx). Qed.

Lemma Qfloor_le_Z (x : Q) (n : Z) : (x < inject_Z n + 1)%Q → (Qfloor x <= n)%Z.
Proof.
  intros Hx. apply Z.lt_succ_r. rewrite Zlt_Qlt.
  apply Qle_lt_trans with x; [apply Qfloor_le|].
  unfold Z.succ. rewrite inject_Z_plus. exact Hx.
Qed.

Lemma toFixed2_big (x : Q) :
  (1000000000000000000000 <= Qabs x)%Q → toFixed2 x = x.
Proof. intros H. unfold toFixed2. apply Qle_bool_iff in H. by rewrite H. Qed.

Lemma toFixed2_neg (x : Q) :
  (Qabs x < 1000000000000000000000)%Q → (x < 0)%Q →
  toFixed2 x = (- (inject_Z (Qfloor (- x * 100 + 0.5)) / 100))%Q.
Proof.
  intros Hs Hn. unfold toFixed2.
  destruct (Qle_bool _ (Qabs x)) eqn:Hb; [apply Qle_bool_iff in Hb; lra|].
  apply Qltb_lt in Hn. by rewrite Hn.
Qed.

Lemma toFixed2_pos (x : Q) :
  (Qabs x < 1000000000000000000000)%Q → (0 <= x)%Q →
  toFixed2 x = (inject_Z (Qfloor (x * 100 + 0.5)) / 100)%Q.
Proof.
  intros Hs Hn. unfold toFixed2.
  destruct (Qle_bool _ (Qabs x)) eqn:Hb; [apply Qle_bool_iff in Hb; lra|].
  apply Qltb_ge in Hn. by rewrite Hn.
Qed.

Lemma toFixed2_cases (x : Q) (P : Q → Prop) :
  ((1000000000000000000000 <= x)%Q → P x) →
  ((x <= - 1000000000000000000000)%Q → P x) →
  ((- 1000000000000000000000 < x)%Q → (x < 0)%Q →
   P (- (inject_Z (Qfloor (- x * 100 + 0.5)) / 100))%Q) →
  ((0 <= x)%Q → (x < 1000000000000000000000)%Q →
   P (inject_Z (Qfloor (x * 100 + 0.5)) / 100)%Q) →
  P (toFixed2 x).
Proof.
  intros Hbig Hsmall Hneg Hpos.
  destruct (Qlt_le_dec (Qabs x) 1000000000000000000000) as [Hs|Hb].
  - destruct (Qlt_le_dec x 0) as [Hn|Hn].
    + rewrite toFixed2_neg by done. apply Hneg; [|done].
      revert Hs. apply Qabs_case; intros; lra.
    + rewrite toFixed2_pos by done. apply Hpos; [done|].
      revert Hs. apply Qabs_case; intros; lra.
  - rewrite toFixed2_big by done.
    revert Hb. apply Qabs_case; intros ? Hb; [apply Hbig | apply Hsmall]; lra.
Qed.

Lemma Qfloor_half_nonneg (a : Q) : (0 <= a)%Q → (0 <= inject_Z (Qfloor (a + 0.5)))%Q.
Proof.
  intros Ha. change 0%Q with (inject_Z 0). rewrite <- Zle_Qle.
  apply Qfloor_nonneg. lra.
Qed.

Lemma Qfloor_half_le (a : Q) (n : Z) :
  (a <= inject_Z n)%Q → (inject_Z (Qfloor (a + 0.5)) <= inject_Z n)%Q.
Proof. intros Ha. rewrite <- Zle_Qle. apply Qfloor_le_Z. lra. Qed.

Lemma Qfloor_half_mono (a b : Q) :
  (a <= b)%Q → (inject_Z (Qfloor (a + 0.5)) <= inject_Z (Qfloor (b + 0.5)))%Q.
Proof. intros Hab. rewrite <- Zle_Qle. apply Qfloor_resp_le. lra. Qed.

(** [lra] after writing the divisions by 100 as products. *)
Ltac lra100 :=
  unfold Qdiv in *; change (/ 100)%Q with (1 # 100)%Q in *; lra.

(** Rounding to two decimals keeps the order. *)
Lemma toFixed2_mono (x y : Q) : (x <= y)%Q → (toFixed2 x <= toFixed2 y)%Q.
Proof.
  intros Hxy.
  apply (toFixed2_cases x (fun q => (q <= toFixed2 y)%Q));
    [intros Hx1 | intros Hx1 | intros Hx1 Hx2 | intros Hx1 Hx2];
    match goal with
    | |- (?a <= _)%Q => apply (toFixed2_cases y (fun q => (a <= q)%Q))
    end;
    [intros Hy1 | intros Hy1 | intros Hy1 Hy2 | intros Hy1 Hy2
    |intros Hy1 | intros Hy1 | intros Hy1 Hy2 | intros Hy1 Hy2
    |intros Hy1 | intros Hy1 | intros Hy1 Hy2 | intros Hy1 Hy2
    |intros Hy1 | intros Hy1 | intros Hy1 Hy2 | intros Hy1 Hy2]; try lra.
  - assert (- y * 100 <= inject_Z 100000000000000000000000)%Q as Hy
      by (change (inject_Z 100000000000000000000000) with 100000000000000000000000%Q; lra).
    apply Qfloor_half_le in Hy.
    change (inject_Z 100000000000000000000000) with 100000000000000000000000%Q in Hy.
    lra100.
  - pose proof (Qfloor_half_nonneg (y * 100)). lra100.
  - pose proof (Qfloor_half_nonneg (- x * 100)). lra100.
  - pose proof (Qfloor_half_mono (- y * 100) (- x * 100)). lra100.
  - pose proof (Qfloor_half_nonneg (- x * 100)).
    pose proof (Qfloor_half_nonneg (y * 100)). lra100.
  - assert (x * 100 <= inject_Z 100000000000000000000000)%Q as Hx
      by (change (inject_Z 100000000000000000000000) with 100000000000000000000000%Q; lra).
    apply Qfloor_half_le in Hx.
    change (inject_Z 100000000000000000000000) with 100000000000000000000000%Q in Hx.
    lra100.
  - pose proof (Qfloor_half_mono (x * 100) (y * 100)). lra100.
Qed.

Lemma fold_Qmax_ge (l : list Q) (a : Q) : (a <= fold_left Qmax l a)%Q.
Proof.
  revert a. induction l as [|x l IH]; intros a; simpl; [lra|].
  apply Qle_trans with (Qmax a x); [apply Q.le_max_l | apply IH].
Qed.

Lemma fold_Qmin_le (l : list Q) (a : Q) : (fold_left Qmin l a <= a)%Q.
Proof.
  revert a. induction l as [|x l IH]; intros a; simpl; [lra|].
  apply Qle_trans with (Qmin a x); [apply IH | apply Q.le_min_l].
Qed.

Lemma List_last_lookup {A} (l : list A) (d : A) :
  l ≠ [] → l !! (length l - 1)%nat = Some (List.last l d).
Proof.
  induction l as [|x l IH]; [done|]. intros _.
  destruct l as [|y l]; [reflexivity|].
  change (List.last (x :: y :: l) d) with (List.last (y :: l) d).
  rewrite <- IH by done. simpl. by rewrite Nat.sub_0_r.
Qed.

(** One group gives one candle: its time, its body and the order of its
    four prices. *)
Lemma candleOf_spec (first : PricePoint.t) (rest : list PricePoint.t) :
  ∃ candle : Candle.t,
    candleOf (first :: rest) = Some candle
    ∧ Candle.time candle = (PricePoint.timestamp first / 1000)%Z
    ∧ Candle.open candle = toFixed2 (PricePoint.price first)
    ∧ Candle.close candle = toFixed2 (PricePoint.price (List.last (first :: rest) first))
    ∧ (Qmax (Candle.open candle) (Candle.close candle) <= Candle.high candle)%Q
    ∧ (Candle.low candle <= Qmin (Candle.open candle) (Candle.close candle))%Q.
Proof.
  unfold candleOf.
  set (o := PricePoint.price first).
  set (c := PricePoint.price (List.last (first :: rest) first)).
  set (actualHigh := fold_left Qmax _ o). set (actualLow := fold_left Qmin _ o).
  assert (Qltb actualHigh actualLow = false) as ->.
  { apply Qltb_ge. apply Qle_trans with o; [apply fold_Qmin_le | apply fold_Qmax_ge]. }
  eexists. split; [reflexivity|]. simpl.
  split; [reflexivity|]. split; [reflexivity|]. split; [reflexivity|].
  split.
  - apply Q.max_lub; apply toFixed2_mono.
    + apply Qle_trans with (Qmax o c); [apply Q.le_max_l | apply Q.le_max_r].
    + apply Qle_trans with (Qmax o c); [apply Q.le_max_r | apply Q.le_max_r].
  - apply Q.min_glb; apply toFixed2_mono.
    + apply Qle_trans with (Qmin o c); [apply Q.le_min_r | apply Q.le_min_l].
    + apply Qle_trans with (Qmin o c); [apply Q.le_min_r | apply Q.le_min_r].
Qed.

Lemma candleLoop_spec (priceHistory : list PricePoint.t) (g : nat) :
  (1 ≤ g)%nat →
  ∀ (fuel i : nat) (candles : list Candle.t),
    (length priceHistory - i ≤ fuel)%nat →
    ∃ new : list Candle.t,
      candleLoop fuel priceHistory g i candles = Some (candles ++ new)
      ∧ ∀ k : nat,
          (new !! k = None ↔ (length priceHistory ≤ i + k * g)%nat)
          ∧ ∀ candle, new !! k = Some candle →
                      candleOf (take g (drop (i + k * g) priceHistory)) = Some candle.
Proof.
  intros Hg. induction fuel as [|fuel IH]; intros i candles Hfuel.
  - exists []. simpl. destruct (Nat.ltb_spec i (length priceHistory)) as [|Hi]; [lia|].
    rewrite app_nil_r. split; [done|]. intros k. split; [|done].
    rewrite lookup_nil. split; [lia | done].
  - simpl. destruct (Nat.ltb_spec i (length priceHistory)) as [Hi|Hi].
    + destruct (take g (drop i priceHistory)) as [|first rest] eqn:Hgroup.
      { apply (f_equal length) in Hgroup.
        rewrite length_take, length_drop in Hgroup. simpl in Hgroup. lia. }
      destruct (candleOf_spec first rest) as (candle & Hcandle & _).
      rewrite Hcandle.
      destruct (IH (i + g)%nat (candles ++ [candle]) ltac:(lia)) as (new & -> & Hnew).
      exists (candle :: new). rewrite <- app_assoc. split; [done|].
      intros [|k]; simpl.
      * rewrite Nat.add_0_r. split; [split; [done | lia]|].
        intros ? [= <-]. by rewrite Hgroup.
      * replace (i + (g + k * g))%nat with (i + g + k * g)%nat by lia. apply Hnew.
    + exists []. rewrite app_nil_r. split; [done|]. intros k. split; [|done].
      rewrite lookup_nil. split; [lia | done].
Qed.

Lemma convertToCandlesticks_spec (priceHistory : list PricePoint.t) (g : nat) :
  (1 ≤ g)%nat →
  ∃ candles : list Candle.t,
    convertToCandlesticks priceHistory g = Some candles
    ∧ ∀ k : nat,
        (candles !! k = None ↔ (length priceHistory ≤ k * g)%nat)
        ∧ ∀ candle, candles !! k = Some candle →
                    candleOf (take g (drop (k * g) priceHistory)) = Some candle.
Proof.
  intros Hg. unfold convertToCandlesticks.
  destruct (Nat.eqb_spec (length priceHistory) 0) as [Hz|Hnz].
  - exists []. split; [done|]. intros k. rewrite lookup_nil.
    split; [split; [lia | done] | done].
  - destruct (candleLoop_spec priceHistory g Hg (length priceHistory) 0 [] ltac:(lia))
      as (new & Hloop & Hnew).
    exists new. split; [exact Hloop|]. exact Hnew.
Qed.

Lemma candleOf_Some (group : list PricePoint.t) (candle : Candle.t) :
  candleOf group = Some candle →
  ∃ first rest,
    group = first :: rest
    ∧ Candle.time candle = (PricePoint.timestamp first / 1000)%Z
    ∧ Candle.open candle = toFixed2 (PricePoint.price first)
    ∧ Candle.close candle = toFixed2 (PricePoint.price (List.last group first))
    ∧ (Qmax (Candle.open candle) (Candle.close candle) <= Candle.high candle)%Q
    ∧ (Candle.low candle <= Qmin (Candle.open candle) (Candle.close candle))%Q.
Proof.
  destruct group as [|first rest]; [discriminate|]. intros Hc.
  destruct (candleOf_spec first rest) as (candle' & Hc' & Hprops).
  assert (candle' = candle) as -> by congruence.
  exists first, rest. split; [reflexivity | exact Hprops].
Qed.

Lemma isValidCandle_true (candle : Candle.t) :
  (Qmax (Candle.open candle) (Candle.close candle) <= Candle.high candle)%Q →
  (Candle.low candle <= Qmin (Candle.open candle) (Candle.close candle))%Q →
  isValidCandle candle = true.
Proof.
  intros Hhigh Hlow. unfold isValidCandle.
  pose proof (Q.le_max_l (Candle.open candle) (Candle.close candle)).
  pose proof (Q.le_min_l (Candle.open candle) (Candle.close candle)).
  rewrite !andb_true_iff, !Qle_bool_iff. split; [split|]; [lra | done | done].
Qed.

(** X12. Every candle that [convertToCandlesticks] builds, for groups of at
    least one point, is well formed: its low is at most its open and its
    close, its high is at least both, and its low is at most its high, after
    the rounding to two decimals.  So the validity filter that the chart
    applies before [setData] keeps every one of them. *)
Theorem convertToCandlesticks_valid (priceHistory : list PricePoint.t)
    (candlesPerGroup : nat) :
  (1 ≤ candlesPerGroup)%nat →
  ∃ candles : list Candle.t,
    convertToCandlesticks priceHistory candlesPerGroup = Some candles
    ∧ Forall (fun candle =>
                (Candle.low candle <= Qmin (Candle.open candle) (Candle.close candle))%Q
                ∧ (Qmax (Candle.open candle) (Candle.close candle) <= Candle.high candle)%Q
                ∧ (Candle.low candle <= Candle.high candle)%Q)
             candles
    ∧ List.filter isValidCandle candles = candles.
Proof.
  intros Hg.
  destruct (convertToCandlesticks_spec priceHistory candlesPerGroup Hg)
    as (candles & Hconv & Hspec).
  exists candles. split; [exact Hconv|].
  assert (Forall (fun candle =>
                    (Qmax (Candle.open candle) (Candle.close candle)
                     <= Candle.high candle)%Q
                    ∧ (Candle.low candle
                       <= Qmin (Candle.open candle) (Candle.close candle))%Q)
                 candles) as Hall.
  { apply Forall_lookup. intros k candle Hk.
    apply (proj2 (Hspec k)) in Hk.
    apply candleOf_Some in Hk as (first & rest & _ & _ & _ & _ & Hhigh & Hlow). done. }
  split.
  - eapply Forall_impl; [exact Hall|]. intros candle [Hhigh Hlow]. simpl.
    pose proof (Q.le_max_l (Candle.open candle) (Candle.close candle)).
    pose proof (Q.le_min_l (Candle.open candle) (Candle.close candle)).
    split; [done|]. split; [done | lra].
  - clear Hconv Hspec. induction Hall as [|candle candles [Hhigh Hlow] _ IH]; simpl.
    + reflexivity.
    + rewrite (isValidCandle_true candle Hhigh Hlow). by rewrite IH.
Qed.

Lemma convertToCandlesticks_valid_witness :
  ∃ candles : list Candle.t,
    convertToCandlesticks risingPoints 2 = Some candles
    ∧ List.filter isValidCandle candles = candles.
Proof.
  destruct (convertToCandlesticks_valid risingPoints 2 ltac:(lia))
    as (candles & Hconv & _ & Hvalid).
  exists candles. split; [exact Hconv | exact Hvalid].
Defined.

(** Three points, two per candle: the first candle opens at 100 and closes at
    100.55 with wicks of 0.11 (20% of the body), the second holds the last
    point alone with wicks of 0.05. *)
Example convertToCandlesticks_risingPoints :
  option_map (map (fun c => (Candle.time c, Qred (Candle.open c), Qred (Candle.high c),
                             Qred (Candle.low c), Qred (Candle.close c))))
    (convertToCandlesticks risingPoints 2)
  = Some [ (0%Z, Qred 100, Qred 100.66, Qred 99.89, Qred 100.55);
           (8%Z, Qred 101.2, Qred 101.25, Qred 101.15, Qred 101.2) ].
Proof. vm_compute. reflexivity. Qed.

(** ** The data of the chart *)

Lemma insertByTime_Permutation (c : Candle.t) (l : list Candle.t) :
  insertByTime c l ≡ₚ c :: l.
Proof.
  induction l as [|d l IH]; simpl; [done|].
  destruct (Candle.time c <=? Candle.time d)%Z; [done|].
  rewrite IH. apply Permutation_swap.
Qed.

Lemma sortByTime_Permutation (l : list Candle.t) : sortByTime l ≡ₚ l.
Proof.
  induction l as [|c l IH]; simpl; [done|].
  rewrite insertByTime_Permutation. by rewrite IH.
Qed.

Lemma insertByTime_sorted (c : Candle.t) (l : list Candle.t) :
  StronglySorted Z.le (map Candle.time l) →
  StronglySorted Z.le (map Candle.time (insertByTime c l)).
Proof.
  induction l as [|d l IH]; simpl; intros Hs.
  - repeat constructor.
  - apply StronglySorted_inv in Hs as [Hs Hd].
    destruct (Z.leb_spec (Candle.time c) (Candle.time d)) as [Hle|Hgt]; simpl.
    + constructor; [by constructor|]. constructor; [done|].
      eapply Forall_impl; [exact Hd|]. simpl. lia.
    + constructor; [by apply IH|].
      rewrite (insertByTime_Permutation c l). simpl. constructor; [lia | done].
Qed.

Lemma sortByTime_sorted (l : list Candle.t) :
  StronglySorted Z.le (map Candle.time (sortByTime l)).
Proof.
  induction l as [|c l IH]; simpl; [constructor|]. by apply insertByTime_sorted.
Qed.

Lemma StronglySorted_strict (l : list Z) :
  StronglySorted Z.le l → NoDup l → StronglySorted Z.lt l.
Proof.
  induction 1 as [|x l Hs IH Hx]; intros Hnd; [constructor|].
  apply NoDup_cons in Hnd as [Hnotin Hnd].
  constructor; [by apply IH|].
  rewrite Forall_forall in *. intros y Hy.
  specialize (Hx y Hy). assert (x ≠ y) by (intros ->; done). lia.
Qed.

Lemma mergeCandles_unfold (existingData validData : list Candle.t) :
  mergeCandles existingData validData
  = sortByTime
      (fold_left pushNew
         (List.filter
            (fun c => negb (existsb (Z.eqb (Candle.time c)) (map Candle.time existingData)))
            validData)
         (map (keepOrUpdate (option_map Candle.time (last existingData)) validData)
              existingData)).
Proof. reflexivity. Qed.

Lemma findByTime_Some (t : Z) (l : list Candle.t) (m : Candle.t) :
  findByTime t l = Some m → m ∈ l ∧ Candle.time m = t.
Proof.
  intros [Hin Ht]%find_some. split; [by apply list_elem_of_In | lia].
Qed.

Lemma findByTime_None (t : Z) (l : list Candle.t) :
  findByTime t l = None ↔ t ∉ map Candle.time l.
Proof.
  unfold findByTime. split.
  - intros Hnone Hin. apply list_elem_of_fmap in Hin as (c & -> & Hc).
    apply list_elem_of_In in Hc.
    pose proof (find_none _ _ Hnone c Hc) as Hf. simpl in Hf. lia.
  - intros Hnot. destruct (List.find _ l) as [m|] eqn:Hf; [|done].
    apply findByTime_Some in Hf as [Hin <-]. exfalso. apply Hnot.
    apply list_elem_of_fmap. eauto.
Qed.

Lemma existsb_time (t : Z) (ts : list Z) : existsb (Z.eqb t) ts = true ↔ t ∈ ts.
Proof.
  rewrite existsb_exists. split.
  - intros (x & Hx & ->%Z.eqb_eq). by apply list_elem_of_In.
  - intros Hin. exists t. split; [by apply list_elem_of_In | apply Z.eqb_refl].
Qed.

Lemma keepOrUpdate_time (lastTime : option Z) (validData : list Candle.t) (e : Candle.t) :
  Candle.time (keepOrUpdate lastTime validData e) = Candle.time e.
Proof.
  unfold keepOrUpdate.
  destruct (findByTime (Candle.time e) validData) as [m|] eqn:Hm; [|done].
  apply findByTime_Some in Hm as [_ Hm]. by case_bool_decide.
Qed.

Lemma kept_times (lastTime : option Z) (validData existingData : list Candle.t) :
  map Candle.time (map (keepOrUpdate lastTime validData) existingData)
  = map Candle.time existingData.
Proof.
  induction existingData as [|e l IH]; simpl; [done|].
  by rewrite keepOrUpdate_time, IH.
Qed.

Lemma pushNew_fold (new : list Candle.t) :
  ∀ acc : list Candle.t,
    (∃ added, fold_left pushNew new acc = acc ++ added ∧ added ⊆ new)
    ∧ (∀ t, t ∈ map Candle.time (fold_left pushNew new acc)
            ↔ t ∈ map Candle.time acc ∨ t ∈ map Candle.time new)
    ∧ (NoDup (map Candle.time acc) →
       NoDup (map Candle.time (fold_left pushNew new acc))).
Proof.
  induction new as [|n new IH]; intros acc; simpl.
  - split; [exists []; by rewrite app_nil_r|]. split; [|done].
    intros t. rewrite elem_of_nil. tauto.
  - destruct (IH (pushNew acc n)) as ((added & Hadded & Hsub) & Htimes & Hnodup).
    unfold pushNew in *.
    destruct (findByTime (Candle.time n) acc) as [m|] eqn:Hfind.
    + split; [exists added; split; [done | intros x Hx; right; by apply Hsub]|].
      split; [|done].
      intros t. rewrite Htimes, elem_of_cons.
      apply findByTime_Some in Hfind as [Hm Ht].
      assert (Candle.time n ∈ map Candle.time acc)
        by (rewrite <- Ht; apply list_elem_of_fmap; eauto).
      split; [tauto|]. intros [?|[->|?]]; tauto.
    + apply findByTime_None in Hfind.
      split; [exists (n :: added); rewrite Hadded, <- app_assoc; split;
              [done | intros x [->|Hx]%elem_of_cons; [by left | right; by apply Hsub]]|].
      split.
      * intros t. rewrite Htimes, map_app, elem_of_app. simpl.
        rewrite list_elem_of_singleton, elem_of_cons. tauto.
      * intros Hnd. apply Hnodup. rewrite map_app. simpl.
        apply NoDup_app. split; [done|]. split; [|apply NoDup_singleton].
        intros t Ht ->%list_elem_of_singleton. done.
Qed.

Lemma newCandles_times (existingData validData : list Candle.t) (t : Z) :
  t ∈ map Candle.time
        (List.filter
           (fun c => negb (existsb (Z.eqb (Candle.time c)) (map Candle.time existingData)))
           validData)
  ↔ t ∈ map Candle.time validData ∧ t ∉ map Candle.time existingData.
Proof.
  split.
  - intros (c & -> & Hc)%list_elem_of_fmap.
    apply list_elem_of_In, filter_In in Hc as [Hc Hnew].
    split; [apply list_elem_of_fmap; exists c; split; [done | by apply list_elem_of_In]|].
    apply negb_true_iff in Hnew. intros Hin%existsb_time. congruence.
  - intros [(c & -> & Hc)%list_elem_of_fmap Hnot].
    apply list_elem_of_fmap. exists c. split; [done|].
    apply list_elem_of_In, filter_In. split; [by apply list_elem_of_In|].
    apply negb_true_iff, not_true_is_false. by rewrite existsb_time.
Qed.

(** X15. The data of a later update of the chart ([mergeCandles]): its times
    are the times of the bars the series holds together with the times of the
    valid candles; it is in ascending order of time; and when the bars the
    series holds have distinct times, so has the data, which is then in
    strictly ascending order, as [setData] requires. *)
Theorem mergeCandles_ordered (existingData validData : list Candle.t) :
  (∀ t : Z,
     t ∈ map Candle.time (mergeCandles existingData validData)
     ↔ t ∈ map Candle.time existingData ∨ t ∈ map Candle.time validData)
  ∧ StronglySorted Z.le (map Candle.time (mergeCandles existingData validData))
  ∧ (NoDup (map Candle.time existingData) →
     StronglySorted Z.lt (map Candle.time (mergeCandles existingData validData))).
Proof.
  rewrite mergeCandles_unfold.
  set (new := List.filter _ validData).
  set (kept := map _ existingData).
  destruct (pushNew_fold new kept) as (_ & Htimes & Hnodup).
  assert (map Candle.time kept = map Candle.time existingData) as Hkept
    by apply kept_times.
  rewrite Hkept in Htimes, Hnodup.
  pose proof (sortByTime_Permutation (fold_left pushNew new kept)) as Hperm.
  pose proof (fmap_Permutation Candle.time _ _ Hperm) as Hpermt.
  split; [|split].
  - intros t. change (map Candle.time) with (fmap (M:=list) Candle.time).
    rewrite Hpermt. change (fmap (M:=list) Candle.time) with (map Candle.time).
    rewrite Htimes. subst new. rewrite newCandles_times.
    destruct (decide (t ∈ map Candle.time existingData)); tauto.
  - apply sortByTime_sorted.
  - intros Hnd. apply StronglySorted_strict; [apply sortByTime_sorted|].
    change (map Candle.time) with (fmap (M:=list) Candle.time).
    rewrite Hpermt. by apply Hnodup.
Qed.

Lemma mergeCandles_ordered_witness :
  StronglySorted Z.lt (map Candle.time (mergeCandles heldBars freshCandles)).
Proof.
  apply (proj2 (proj2 (mergeCandles_ordered heldBars freshCandles))).
  apply (bool_decide_unpack _). vm_compute. reflexivity.
Defined.

(** The bar that was being formed is replaced, the earlier one is kept and
    the new one is added. *)
Example mergeCandles_heldBars :
  mergeCandles heldBars freshCandles
  = [ Candle.mk 0 100 100.66 99.89 100.55;
      Candle.mk 8 101.2 101.5 101 101.4;
      Candle.mk 16 101.4 101.45 101.35 101.4 ].
Proof. reflexivity. Qed.

Lemma mergeCandles_elem_of (existingData validData : list Candle.t) (c : Candle.t) :
  c ∈ mergeCandles existingData validData
  ↔ c ∈ fold_left pushNew
          (List.filter
             (fun c => negb (existsb (Z.eqb (Candle.time c)) (map Candle.time existingData)))
             validData)
          (map (keepOrUpdate (option_map Candle.time (last existingData)) validData)
               existingData).
Proof. rewrite mergeCandles_unfold. by rewrite sortByTime_Permutation. Qed.

Lemma mergeCandles_NoDup (existingData validData : list Candle.t) :
  NoDup (map Candle.time existingData) →
  NoDup (map Candle.time (mergeCandles existingData validData)).
Proof.
  intros Hnd. rewrite mergeCandles_unfold.
  match goal with |- context [fold_left pushNew ?new ?kept] =>
    destruct (pushNew_fold new kept) as (_ & _ & Hnodup);
    pose proof (sortByTime_Permutation (fold_left pushNew new kept)) as Hperm end.
  pose proof (fmap_Permutation Candle.time _ _ Hperm) as Hpermt.
  change (map Candle.time) with (fmap (M:=list) Candle.time).
  rewrite Hpermt. apply Hnodup.
  change (fmap (M:=list) Candle.time) with (map Candle.time).
  by rewrite kept_times.
Qed.

Lemma kept_in_merge (existingData validData : list Candle.t) (e : Candle.t) :
  e ∈ existingData →
  keepOrUpdate (option_map Candle.time (last existingData)) validData e
  ∈ mergeCandles existingData validData.
Proof.
  intros He. apply mergeCandles_elem_of.
  match goal with |- _ ∈ fold_left pushNew ?new ?kept =>
    destruct (pushNew_fold new kept) as ((added & -> & _) & _ & _) end.
  apply elem_of_app. left. apply list_elem_of_fmap. eauto.
Qed.

(** X16. What a later update of the chart keeps and what it replaces.  A bar
    the series holds stays as it is when its time is not the time of the last
    bar held, or when no valid candle has its time; the last bar held gives
    way to the first valid candle of its time; every entry of the data is a
    bar held or a valid candle; and when the bars held have distinct times,
    the data has one entry for the time of the last bar held: that valid
    candle. *)
Theorem mergeCandles_keeps_history (existingData validData : list Candle.t) :
  (∀ e : Candle.t,
     e ∈ existingData →
     Some (Candle.time e) ≠ option_map Candle.time (last existingData)
     ∨ Candle.time e ∉ map Candle.time validData →
     e ∈ mergeCandles existingData validData)
  ∧ (∀ e m : Candle.t,
       last existingData = Some e →
       findByTime (Candle.time e) validData = Some m →
       m ∈ mergeCandles existingData validData
       ∧ (NoDup (map Candle.time existingData) →
          ∀ c : Candle.t,
            c ∈ mergeCandles existingData validData →
            Candle.time c = Candle.time e → c = m))
  ∧ (∀ c : Candle.t,
       c ∈ mergeCandles existingData validData →
       c ∈ existingData ∨ c ∈ validData).
Proof.
  split; [|split].
  - intros e He Hcase.
    pose proof (kept_in_merge existingData validData e He) as Hin.
    unfold keepOrUpdate in Hin.
    destruct (findByTime (Candle.time e) validData) as [m|] eqn:Hm; [|done].
    case_bool_decide as Hlast; [|done].
    destruct Hcase as [Hne|Hnot]; [done|].
    apply findByTime_None in Hnot. congruence.
  - intros e m Hlast Hm.
    assert (e ∈ existingData) as He.
    { apply last_Some in Hlast as [l ->]. apply elem_of_app. right. by left. }
    pose proof (kept_in_merge existingData validData e He) as Hin.
    unfold keepOrUpdate in Hin. rewrite Hm, Hlast in Hin. simpl in Hin.
    rewrite bool_decide_eq_true_2 in Hin by done.
    split; [exact Hin|].
    intros Hnd c Hc Htime.
    apply findByTime_Some in Hm as [_ Hmt].
    pose proof (mergeCandles_NoDup existingData validData Hnd) as Hnodup.
    apply list_elem_of_lookup in Hc as [i Hi]. apply list_elem_of_lookup in Hin as [j Hj].
    assert (i = j) as ->; [|congruence].
    eapply NoDup_lookup; [exact Hnodup | |].
    + change (map Candle.time) with (fmap (M:=list) Candle.time).
      rewrite list_lookup_fmap, Hi. reflexivity.
    + change (map Candle.time) with (fmap (M:=list) Candle.time).
      rewrite list_lookup_fmap, Hj. simpl. congruence.
  - intros c Hc. apply mergeCandles_elem_of in Hc.
    match type of Hc with _ ∈ fold_left pushNew ?new ?kept =>
      destruct (pushNew_fold new kept) as ((added & Heq & Hsub) & _ & _) end.
    rewrite Heq in Hc. apply elem_of_app in Hc as [Hc|Hc].
    + apply list_elem_of_fmap in Hc as (e & -> & He). unfold keepOrUpdate.
      destruct (findByTime (Candle.time e) validData) as [m|] eqn:Hm; [|by left].
      case_bool_decide; [|by left]. right. by apply findByTime_Some in Hm as [? _].
    + right. apply Hsub in Hc. by apply list_elem_of_In, filter_In in Hc as [?%list_elem_of_In _].
Qed.

Lemma mergeCandles_keeps_history_witness :
  Candle.mk 0 100 100.66 99.89 100.55 ∈ mergeCandles heldBars freshCandles.
Proof.
  apply (proj1 (mergeCandles_keeps_history heldBars freshCandles)
           (Candle.mk 0 100 100.66 99.89 100.55)).
  - by left.
  - left. discriminate.
Defined.

(** ** News feed *)

Lemma insertNewest_Permutation (n : NewsEvent.t) (l : list NewsEvent.t) :
  insertNewest n l ≡ₚ n :: l.
Proof.
  induction l as [|m l IH]; simpl; [done|].
  destruct (NewsEvent.timestamp m <=? NewsEvent.timestamp n)%Z; [done|].
  rewrite IH. apply Permutation_swap.
Qed.

Lemma insertNewest_sorted (n : NewsEvent.t) (l : list NewsEvent.t) :
  StronglySorted Z.ge (map NewsEvent.timestamp l) →
  StronglySorted Z.ge (map NewsEvent.timestamp (insertNewest n l)).
Proof.
  induction l as [|m l IH]; simpl; intros Hs.
  - repeat constructor.
  - apply StronglySorted_inv in Hs as [Hs Hm].
    destruct (Z.leb_spec (NewsEvent.timestamp m) (NewsEvent.timestamp n)) as [Hle|Hgt];
      simpl.
    + constructor; [by constructor|]. constructor; [lia|].
      eapply Forall_impl; [exact Hm|]. simpl. lia.
    + constructor; [by apply IH|].
      rewrite (insertNewest_Permutation n l). simpl. constructor; [lia | done].
Qed.

Lemma insertNewest_filter (t : Z) (n : NewsEvent.t) (l : list NewsEvent.t) :
  List.filter (fun e => (NewsEvent.timestamp e =? t)%Z) (insertNewest n l)
  = List.filter (fun e => (NewsEvent.timestamp e =? t)%Z) (n :: l).
Proof.
  induction l as [|m l IH]; simpl; [done|].
  destruct (Z.leb_spec (NewsEvent.timestamp m) (NewsEvent.timestamp n)) as [Hle|Hgt];
    [done|].
  simpl. rewrite IH. simpl.
  destruct (Z.eqb_spec (NewsEvent.timestamp n) t) as [Hn|Hn];
    destruct (Z.eqb_spec (NewsEvent.timestamp m) t) as [Hm|Hm]; try done. lia.
Qed.

(** X18. The feed shows the events of the window, each one once, newest
    first, and events of one timestamp (the events of one answer of the
    service share theirs) in the order in which they arrived. *)
Theorem sortedNews_newest_first (news : list NewsEvent.t) :
  sortedNews news ≡ₚ news
  ∧ StronglySorted Z.ge (map NewsEvent.timestamp (sortedNews news))
  ∧ ∀ t : Z,
      List.filter (fun e => (NewsEvent.timestamp e =? t)%Z) (sortedNews news)
      = List.filter (fun e => (NewsEvent.timestamp e =? t)%Z) news.
Proof.
  split; [|split].
  - induction news as [|n news IH]; simpl; [done|].
    rewrite insertNewest_Permutation. by rewrite IH.
  - induction news as [|n news IH]; simpl; [constructor|]. by apply insertNewest_sorted.
  - intros t. induction news as [|n news IH]; simpl; [done|].
    rewrite insertNewest_filter. simpl. by rewrite IH.
Qed.

(** Two events of one batch and an older one. *)
Example sortedNews_batch :
  map NewsEvent.headline
    (sortedNews [NewsEvent.mk "ACME" "old" "b" 0.5 0.5 1000;
                 NewsEvent.mk "ACME" "first" "b" 0.5 0.5 31000;
                 NewsEvent.mk "MEDI" "second" "b" 0.5 0.5 31000])
  = ["first"; "second"; "old"].
Proof. reflexivity. Qed.

(** ** Successive firings *)

Lemma tick_quoted (now : Z) (env : nat → Draw) (st st' : MarketState) :
  quoted st → tick now env st = Some st' → quoted st'.
Proof.
  intros Hq Htick.
  destruct (tick_spec now env st Hq) as (st2 & Htick2 & Hc & _ & _ & Hspec).
  assert (st2 = st') as -> by congruence.
  intros t Ht. rewrite Hc in Ht.
  destruct (proj2 (Hspec t) Ht) as (i & c & p & h & _ & _ & _ & _ & -> & ->).
  split; eauto.
Qed.

Lemma runTicks_histories (firings : list (Z * (nat → Draw))) :
  ∀ st : MarketState,
    quoted st →
    ∃ st' : MarketState,
      runTicks firings st = Some st'
      ∧ companies st' = companies st
      ∧ ∀ t : string,
          t ∈ tickers (companies st) →
          ∃ (h points : list PricePoint.t),
            priceHistory st !! t = Some h
            ∧ map PricePoint.timestamp points = map fst firings
            ∧ Forall (fun point => PricePoint.ticker point = t) points
            ∧ priceHistory st' !! t = Some (foldl appendPricePoint h points).
Proof.
  induction firings as [|[now env] firings IH]; intros st Hq; simpl.
  - exists st. split; [done|]. split; [done|]. intros t Ht.
    destruct (Hq t Ht) as [_ [h Hh]]. exists h, []. done.
  - destruct (tick_spec now env st Hq) as (st1 & Htick & Hc & _ & _ & Hspec).
    rewrite Htick.
    destruct (IH st1 (tick_quoted now env st st1 Hq Htick)) as (st' & Hrun & Hc' & Hhist).
    exists st'. split; [exact Hrun|]. split; [congruence|].
    intros t Ht.
    destruct (proj2 (Hspec t) Ht) as (i & c & p & h & _ & Hct & _ & Hh & _ & Hh1).
    rewrite <- Hc in Ht.
    destruct (Hhist t Ht) as (h1 & points & Hh1' & Hts & Htk & Hfinal).
    rewrite Hh1 in Hh1'. injection Hh1' as <-. simpl in Hfinal.
    exists h, (PricePoint.mk (Company.ticker c)
                 (calculateNewPrice (env i) p c (news st) 1) now :: points).
    split; [exact Hh|].
    split; [simpl; by rewrite Hts|]. split; [|exact Hfinal].
    constructor; [exact Hct | exact Htk].
Qed.

(** X19. Successive firings of the tick timer, on a state in which every
    company has a price and a history of at most 100 points: all firings go
    through, and afterwards the history of every company consists of the last
    100 of its earlier points followed by one point per firing, in the order
    of the firings and with their timestamps. *)
Theorem runTicks_history_window (firings : list (Z * (nat → Draw))) (st : MarketState) :
  quoted st →
  (∀ (t : string) (h : list PricePoint.t),
     priceHistory st !! t = Some h → (length h ≤ 100)%nat) →
  ∃ st' : MarketState,
    runTicks firings st = Some st'
    ∧ ∀ t : string,
        t ∈ map Company.ticker (companies st) →
        ∃ (h points h' : list PricePoint.t),
          priceHistory st !! t = Some h
          ∧ map PricePoint.timestamp points = map fst firings
          ∧ priceHistory st' !! t = Some h'
          ∧ h' = drop (length (h ++ points) - 100) (h ++ points)
          ∧ length h' = min 100 (length h + length firings).
Proof.
  intros Hq Hbound.
  destruct (runTicks_histories firings st Hq) as (st' & Hrun & _ & Hhist).
  exists st'. split; [exact Hrun|]. intros t Ht.
  destruct (Hhist t Ht) as (h & points & Hh & Hts & _ & Hfinal).
  exists h, points, (foldl appendPricePoint h points).
  split; [exact Hh|]. split; [exact Hts|]. split; [exact Hfinal|].
  assert (h = lastN 100 h) as Hlast.
  { unfold lastN. specialize (Hbound t h Hh).
    replace (length h - 100)%nat with 0%nat by lia. done. }
  assert (foldl appendPricePoint h points = lastN 100 (h ++ points)) as ->.
  { rewrite Hlast at 1. apply foldl_appendPricePoint. }
  split; [reflexivity|].
  rewrite length_lastN, length_app.
  apply (f_equal length) in Hts. rewrite !length_map in Hts. lia.
Qed.

Lemma runTicks_history_window_witness :
  ∃ st' : MarketState,
    runTicks firings150
      acmeMarket = Some st'.
Proof.
  destruct (runTicks_history_window
              firings150 acmeMarket acmeMarket_quoted)
    as (st' & Hrun & _).
  - intros t h Hh.
    exact (proj2 (reachable_bounded acmeMarket acmeMarket_reachable) t h Hh).
  - exists st'. exact Hrun.
Defined.

(** 150 firings on the market of one company: the history of ACME holds 100
    points, the oldest of them from the 51st firing. *)
Example runTicks_150 :
  option_map (fun st => option_map (fun h => (length h, option_map PricePoint.timestamp (head h)))
                          (priceHistory st !! "ACME"))
    (runTicks firings150
       acmeMarket)
  = Some (Some (100%nat, Some 204000%Z)).
Proof. vm_compute. reflexivity. Qed.

(** * Properties on binary64 numbers *)

(** ** Comparisons of binary64 values *)

Lemma SFcompare_None (x y : spec_float) :
  SFcompare x y = None ↔ x = S754_nan ∨ y = S754_nan.
Proof.
  destruct x as [sx|sx| |sx mx ex], y as [sy|sy| |sy my ey]; simpl;
    split; intros Hc; try discriminate; eauto;
    try (destruct Hc; discriminate).
Qed.

Lemma is_nan_spec (x : float) : is_nan x = true ↔ Prim2SF x = S754_nan.
Proof.
  unfold is_nan. rewrite FloatAxioms.eqb_spec. unfold SFeqb.
  destruct (Prim2SF x) as [s|s| |s m e]; simpl; try (split; [discriminate|discriminate]).
  - destruct s; simpl; split; discriminate.
  - done.
  - destruct s; rewrite Z.compare_refl, Pos.compare_cont_refl; simpl; split; discriminate.
Qed.

Lemma SFcompare_antisym (x y : spec_float) :
  SFcompare y x = option_map CompOpp (SFcompare x y).
Proof.
  destruct x as [sx|sx| |sx mx ex], y as [sy|sy| |sy my ey]; simpl; try reflexivity;
    try (destruct sx; reflexivity); try (destruct sy; reflexivity);
    try (destruct sx, sy; reflexivity).
  destruct sx, sy; simpl; try reflexivity.
  - rewrite (Z.compare_antisym ex ey). destruct (ex ?= ey)%Z; simpl; try reflexivity.
    rewrite (Pos.compare_cont_antisym mx my Eq). simpl.
    by destruct (Pos.compare_cont Eq mx my).
  - rewrite (Z.compare_antisym ex ey). destruct (ex ?= ey)%Z; simpl; try reflexivity.
    rewrite (Pos.compare_cont_antisym mx my Eq). simpl. reflexivity.
Qed.

(** Of two values that are not NaN, one is below the other or the other is
    at most it. *)
Lemma float_total (x y : float) :
  is_nan x = false → is_nan y = false → (x <? y)%float = false → (y <=? x)%float = true.
Proof.
  intros Hx Hy. rewrite FloatAxioms.ltb_spec, FloatAxioms.leb_spec. unfold SFltb, SFleb.
  rewrite (SFcompare_antisym (Prim2SF x) (Prim2SF y)).
  destruct (SFcompare (Prim2SF x) (Prim2SF y)) as [[]|] eqn:Hc; simpl; try done.
  intros _. apply SFcompare_None in Hc as [Hc|Hc]; apply is_nan_spec in Hc; congruence.
Qed.

Lemma float_ltb_leb (x y : float) : (x <? y)%float = true → (x <=? y)%float = true.
Proof.
  rewrite FloatAxioms.ltb_spec, FloatAxioms.leb_spec. unfold SFltb, SFleb.
  by destruct (SFcompare _ _) as [[]|].
Qed.

Lemma float_leb_refl (x : float) : is_nan x = false → (x <=? x)%float = true.
Proof.
  intros Hx. unfold is_nan in Hx. apply negb_false_iff in Hx.
  revert Hx. rewrite FloatAxioms.eqb_spec, FloatAxioms.leb_spec. unfold SFeqb, SFleb.
  by destruct (SFcompare _ _) as [[]|].
Qed.

(** A comparison with NaN is false. *)
Lemma float_nan_leb (x y : float) :
  is_nan y = true → (x <=? y)%float = false ∧ (y <=? x)%float = false.
Proof.
  intros Hy%is_nan_spec. rewrite !FloatAxioms.leb_spec, Hy. unfold SFleb.
  split; [by destruct (Prim2SF x) | reflexivity].
Qed.

Lemma float_ltb_leb_trans (x y z : float) :
  (x <? y)%float = true → (y <=? z)%float = true → (x <? z)%float = true.
Proof.
  rewrite !FloatAxioms.ltb_spec, FloatAxioms.leb_spec. unfold SFltb, SFleb.
  destruct (Prim2SF x) as [sx|sx| |sx mx ex], (Prim2SF y) as [sy|sy| |sy my ey],
    (Prim2SF z) as [sz|sz| |sz mz ez]; simpl; try done;
    try (destruct sx; done); try (destruct sy; done); try (destruct sz; done);
    try (destruct sx, sy; done); try (destruct sx, sz; done); try (destruct sy, sz; done);
    try (destruct sx, sy, sz; done).
  destruct sx, sy, sz; simpl; try done.
  - destruct (Z.compare_spec ex ey), (Z.compare_spec ey ez); simpl; try done; subst;
      try (rewrite Z.compare_refl); try (by rewrite (proj2 (Z.compare_lt_iff _ _)) by lia);
      try (by rewrite (proj2 (Z.compare_gt_iff _ _)) by lia).
    all: rewrite !Pos.compare_cont_spec; simpl.
    all: destruct (Pos.compare_spec mx my), (Pos.compare_spec my mz); simpl; try done; subst;
      try (by rewrite Pos.compare_refl);
      try (by rewrite (proj2 (Pos.compare_lt_iff _ _)) by lia);
      try (by rewrite (proj2 (Pos.compare_gt_iff _ _)) by lia).
  - destruct (Z.compare_spec ex ey), (Z.compare_spec ey ez); simpl; try done; subst;
      try (rewrite Z.compare_refl); try (by rewrite (proj2 (Z.compare_lt_iff _ _)) by lia);
      try (by rewrite (proj2 (Z.compare_gt_iff _ _)) by lia).
    all: rewrite !Pos.compare_cont_spec; simpl.
    all: destruct (Pos.compare_spec mx my), (Pos.compare_spec my mz); simpl; try done; subst;
      try (by rewrite Pos.compare_refl);
      try (by rewrite (proj2 (Pos.compare_lt_iff _ _)) by lia);
      try (by rewrite (proj2 (Pos.compare_gt_iff _ _)) by lia).
Qed.

Lemma mathMax_nan (a b : float) : is_nan (mathMax a b) = is_nan a || is_nan b.
Proof.
  unfold mathMax.
  destruct (is_nan a) eqn:Ha; [reflexivity|].
  destruct (is_nan b) eqn:Hb; [reflexivity|]. simpl.
  destruct (a <? b)%float; [exact Hb|].
  destruct (_ && _); assumption.
Qed.

Lemma mathMax_ge (a b : float) :
  is_nan a = false → is_nan b = false →
  (a <=? mathMax a b)%float = true ∧ (b <=? mathMax a b)%float = true.
Proof.
  intros Ha Hb. unfold mathMax. rewrite Ha, Hb. simpl.
  destruct (a <? b)%float eqn:Hlt.
  - split; [by apply float_ltb_leb | by apply float_leb_refl].
  - pose proof (float_total a b Ha Hb Hlt) as Hle.
    destruct (_ && _) eqn:Hz.
    + split; [|by apply float_leb_refl].
      apply andb_prop in Hz as [Hz _]. apply andb_prop in Hz as [Hz _].
      apply andb_prop in Hz as [Hz1 Hz2].
      revert Hz1 Hz2. rewrite !FloatAxioms.eqb_spec, FloatAxioms.leb_spec. unfold SFeqb, SFleb.
      change (Prim2SF 0) with (S754_zero false).
      destruct (Prim2SF a) as [s|s| |s m e], (Prim2SF b) as [s'|s'| |s' m' e']; simpl; try done;
        destruct s; try done; destruct s'; done.
    + split; [by apply float_leb_refl | exact Hle].
Qed.

Lemma float_ltb_not_leb (x y : float) : (x <? y)%float = true → (y <=? x)%float = false.
Proof.
  rewrite FloatAxioms.ltb_spec, FloatAxioms.leb_spec. unfold SFltb, SFleb.
  rewrite (SFcompare_antisym (Prim2SF x) (Prim2SF y)).
  by destruct (SFcompare _ _) as [[]|].
Qed.

Lemma SFeqb_finite (x : spec_float) (s : bool) (m : positive) (e : Z) :
  SFeqb x (S754_finite s m e) = true → x = S754_finite s m e.
Proof.
  unfold SFeqb.
  destruct x as [sx|sx| |sx mx ex].
  - simpl. by destruct s.
  - simpl. by destruct sx.
  - done.
  - unfold SFcompare. rewrite Pos.compare_cont_spec. unfold Pos.switch_Eq.
    destruct (Z.compare_spec ex e) as [->| |], (Pos.compare_spec mx m) as [->| |],
      sx, s; simpl; done.
Qed.

(** A value that compares equal to 0.01 is 0.01. *)
Lemma float_eqb_floor (x : float) : (x =? 0.01)%float = true → x = 0.01%float.
Proof.
  rewrite FloatAxioms.eqb_spec. intros Heq. apply Prim2SF_inj.
  replace (Prim2SF 0.01) with (S754_finite false 5764607523034235 (-59)) in *
    by (vm_compute; reflexivity).
  by apply SFeqb_finite.
Qed.

Lemma float_leb_cases (x y : float) :
  (x <=? y)%float = true → (x <? y)%float = true ∨ (x =? y)%float = true.
Proof.
  rewrite FloatAxioms.ltb_spec, FloatAxioms.leb_spec, FloatAxioms.eqb_spec.
  unfold SFltb, SFleb, SFeqb.
  destruct (SFcompare _ _) as [[]|]; eauto.
Qed.

(** C2 (amended).  For every input, in binary64 arithmetic: the result of
    [calculateNewPrice] is NaN exactly when the price before the floor is NaN
    (a price, a volatility, a sentiment or a magnitude that is not a number,
    or an overflow); when it is not NaN the result is at least 0.01; it is
    0.01 itself, and so not above 0.01, whenever the price before the floor
    is at most 0.01; and it is never zero or negative. *)
Theorem calculateNewPrice_binary64_floor (d : Binary64.Draw) (currentPrice : float)
    (company : Binary64.Company.t) (recentNews : list Binary64.NewsEvent.t)
    (timeDelta : float) :
  let newPrice := Binary64.newPrice d currentPrice company recentNews timeDelta in
  let result := Binary64.calculateNewPrice d currentPrice company recentNews timeDelta in
  is_nan result = is_nan newPrice
  ∧ (is_nan newPrice = false → (0.01 <=? result)%float = true)
  ∧ ((newPrice <=? 0.01)%float = true → result = 0.01%float)
  ∧ (result <=? 0)%float = false.
Proof.
  intros newPrice result. subst result. unfold Binary64.calculateNewPrice.
  fold newPrice. generalize newPrice. clear. intros x.
  assert (is_nan 0.01 = false) as Hc by reflexivity.
  assert (is_nan (mathMax x 0.01) = is_nan x) as Hnan
    by (rewrite mathMax_nan, Hc; apply orb_false_r).
  assert (is_nan x = false → (0.01 <=? mathMax x 0.01)%float = true) as Hge
    by (intros Hx; apply (mathMax_ge x 0.01 Hx Hc)).
  split; [exact Hnan|]. split; [exact Hge|]. split.
  - intros Hle.
    assert (is_nan x = false) as Hx.
    { destruct (is_nan x) eqn:Hx; [|reflexivity].
      destruct (float_nan_leb 0.01 x Hx) as [_ Hf]. congruence. }
    unfold mathMax. rewrite Hx, Hc. simpl.
    destruct (float_leb_cases _ _ Hle) as [Hlt|Heq]; [by rewrite Hlt|].
    apply float_eqb_floor in Heq. subst x. reflexivity.
  - destruct (is_nan x) eqn:Hx.
    + by destruct (float_nan_leb 0 _ Hnan).
    + apply float_ltb_not_leb.
      apply float_ltb_leb_trans with 0.01%float; [reflexivity | by apply Hge].
Qed.

Lemma calculateNewPrice_binary64_floor_witness :
  Binary64.calculateNewPrice (Binary64.mkDraw 0 0) 0.01 Binary64.acme [] 1 = 0.01%float
  ∧ (0.01 <=? Binary64.calculateNewPrice (Binary64.mkDraw 0.75 0) 100 Binary64.acme [] 1)%float
    = true.
Proof.
  split.
  - apply (proj1 (proj2 (proj2 (calculateNewPrice_binary64_floor
                                  (Binary64.mkDraw 0 0) 0.01 Binary64.acme [] 1)))).
    vm_compute. reflexivity.
  - apply (proj1 (proj2 (calculateNewPrice_binary64_floor
                           (Binary64.mkDraw 0.75 0) 100 Binary64.acme [] 1))).
    vm_compute. reflexivity.
Defined.

(** An event without a magnitude makes the price NaN; so do two events of
    finite sentiment and magnitude whose impacts overflow in opposite
    directions. *)
Example calculateNewPrice_binary64_nan :
  is_nan (Binary64.calculateNewPrice (Binary64.mkDraw 0.5 4000) 100 Binary64.acme
            [Binary64.noMagnitude] 1) = true
  ∧ is_nan (Binary64.calculateNewPrice (Binary64.mkDraw 0.5 4000) 100 Binary64.acme
              [ Binary64.NewsEvent.mk "ACME" "h1" "b1" 1e308 10 1000;
                Binary64.NewsEvent.mk "ACME" "h2" "b2" (-1e308) 10 1000 ] 1) = true.
Proof. split; vm_compute; reflexivity. Qed.

(** ** The ledger on binary64 numbers *)




(** ** The engine and the hook on binary64 numbers *)

(** X4. The order of the events in the news list matters to
    [calculateNewPrice]: the sum of the impacts is accumulated in list order
    and binary64 addition is not associative.  Two earnings reports followed
    by a partnership move a price of 50 to 56.89919999999999; the same three
    events with the partnership in the middle move it to 56.89920000000001. *)
Theorem calculateNewPrice_order_matters :
  let d := Binary64.mkDraw 0.5 4000 in
  let news := [Binary64.earnings; Binary64.earnings; Binary64.partnership] in
  let news' := [Binary64.earnings; Binary64.partnership; Binary64.earnings] in
  news ≡ₚ news'
  ∧ Binary64.calculateNewPrice d 50 Binary64.volatileCo news 1 = 56.89919999999999%float
  ∧ Binary64.calculateNewPrice d 50 Binary64.volatileCo news' 1 = 56.89920000000001%float
  ∧ Binary64.calculateNewPrice d 50 Binary64.volatileCo news 1
    ≠ Binary64.calculateNewPrice d 50 Binary64.volatileCo news' 1.
Proof.
  intros d news news'.
  split; [apply perm_skip, perm_swap|].
  split; [vm_compute; reflexivity|].
  split; [vm_compute; reflexivity|].
  intros Heq. apply (f_equal (PrimFloat.ltb 56.89919999999999%float)) in Heq.
  vm_compute in Heq. discriminate Heq.
Qed.

Lemma calculateNewPrice_flooredOrNaN (d : Binary64.Draw) (currentPrice : float)
    (company : Binary64.Company.t) (recentNews : list Binary64.NewsEvent.t)
    (timeDelta : float) :
  Binary64.flooredOrNaN
    (Binary64.calculateNewPrice d currentPrice company recentNews timeDelta).
Proof.
  unfold Binary64.flooredOrNaN, Binary64.calculateNewPrice.
  set (x := Binary64.newPrice _ _ _ _ _).
  destruct (is_nan x) eqn:Hx.
  - left. rewrite mathMax_nan, Hx. reflexivity.
  - right. by apply (mathMax_ge x 0.01).
Qed.

Lemma pricesFlooredOrNaN_insert (prices : gmap string float)
    (priceHistory : gmap string (list Binary64.PricePoint.t))
    (t : string) (p : float) (h : list Binary64.PricePoint.t) :
  Binary64.pricesFlooredOrNaN prices priceHistory →
  Binary64.flooredOrNaN p →
  Forall (fun point => Binary64.flooredOrNaN (Binary64.PricePoint.price point)) h →
  Binary64.pricesFlooredOrNaN (<[t := p]> prices) (<[t := h]> priceHistory).
Proof.
  intros [Hp Hh] Hnew Hall. split.
  - intros t' p'. rewrite lookup_insert. case_decide; [by intros [= <-] | apply Hp].
  - intros t' h'. rewrite lookup_insert. case_decide; [by intros [= <-] | apply Hh].
Qed.

Lemma binary64_appendPricePoint_Forall (P : Binary64.PricePoint.t → Prop)
    (history : list Binary64.PricePoint.t) (point : Binary64.PricePoint.t) :
  Forall P history → P point → Forall P (Binary64.appendPricePoint history point).
Proof.
  intros Hh Hp. unfold Binary64.appendPricePoint.
  assert (Forall P (history ++ [point])) as Hall
    by (apply Forall_app; split; [exact Hh | by constructor]).
  destruct (100 <? length (history ++ [point]))%nat; [|exact Hall].
  destruct (history ++ [point]); [constructor|]. simpl. by inversion Hall.
Qed.

Lemma binary64_initializeLoop_floor (clock : nat → Z) (cs : list Binary64.Company.t) :
  ∀ (i : nat) (acc : gmap string float * gmap string (list Binary64.PricePoint.t)),
    Forall (fun c => Binary64.flooredOrNaN (Binary64.Company.basePrice c)) cs →
    Binary64.pricesFlooredOrNaN acc.1 acc.2 →
    Binary64.pricesFlooredOrNaN (Binary64.initializeLoop clock i cs acc).1
                       (Binary64.initializeLoop clock i cs acc).2.
Proof.
  induction cs as [|c cs IH]; intros i acc Hbase Hacc; simpl; [exact Hacc|].
  inversion Hbase as [|? ? Hc Hrest]; subst.
  apply IH; [exact Hrest|]. simpl.
  apply pricesFlooredOrNaN_insert; [exact Hacc | exact Hc|].
  unfold Binary64.initializePriceHistory. constructor; [exact Hc | constructor].
Qed.

Lemma binary64_tickLoop_floor (now : Z) (env : nat → Binary64.Draw)
    (prevState : Binary64.MarketState) (cs : list Binary64.Company.t) :
  ∀ (i : nat) (acc r : gmap string float * gmap string (list Binary64.PricePoint.t)),
    Binary64.tickLoop now env prevState i cs acc = Some r →
    (∀ (t : string) (p : float), acc.1 !! t = Some p → Binary64.flooredOrNaN p) →
    (∀ (t : string) (p : float), r.1 !! t = Some p → Binary64.flooredOrNaN p)
    ∧ (Binary64.pricesFlooredOrNaN (Binary64.prices prevState) (Binary64.priceHistory prevState) →
       Binary64.pricesFlooredOrNaN acc.1 acc.2 → Binary64.pricesFlooredOrNaN r.1 r.2).
Proof.
  induction cs as [|c cs IH]; intros i acc r Hloop Hacc; simpl in Hloop.
  - injection Hloop as <-. done.
  - destruct (Binary64.priceHistory prevState !! Binary64.Company.ticker c)
      as [prevHistory|] eqn:Hh; [|discriminate].
    apply IH in Hloop as [Hprices Hall].
    + split; [exact Hprices|]. intros Hprev Hacc2. apply Hall; [exact Hprev|]. simpl.
      apply pricesFlooredOrNaN_insert; [exact Hacc2 | apply calculateNewPrice_flooredOrNaN|].
      apply binary64_appendPricePoint_Forall; [by eapply (proj2 Hprev)|]. simpl.
      apply calculateNewPrice_flooredOrNaN.
    + simpl. intros t p. rewrite lookup_insert. case_decide; [|apply Hacc].
      intros [= <-]. apply calculateNewPrice_flooredOrNaN.
Qed.

(** X7. On binary64 numbers.  After a firing of the tick timer every price
    of the state is NaN or at least 0.01, whatever the state before it was.
    And when every company of the roster has a base price that is NaN or at
    least 0.01, then in every state the hook goes through every price and
    the price of every point of every history is NaN or at least 0.01. *)
Theorem reachable_prices_floor_or_nan :
  (∀ (now : Z) (env : nat → Binary64.Draw) (st st' : Binary64.MarketState),
     Binary64.tick now env st = Some st' →
     ∀ (t : string) (p : float),
       Binary64.prices st' !! t = Some p → Binary64.flooredOrNaN p)
  ∧ (∀ st : Binary64.MarketState,
       Binary64.reachable st →
       Forall (fun c => Binary64.flooredOrNaN (Binary64.Company.basePrice c))
              (Binary64.companies st) →
       (∀ (t : string) (p : float),
          Binary64.prices st !! t = Some p → Binary64.flooredOrNaN p)
       ∧ (∀ (t : string) (h : list Binary64.PricePoint.t),
            Binary64.priceHistory st !! t = Some h →
            Forall (fun point => Binary64.flooredOrNaN (Binary64.PricePoint.price point))
                   h)).
Proof.
  split.
  - intros now env st st'. unfold Binary64.tick.
    destruct (Binary64.tickLoop now env st 0 (Binary64.companies st) (∅, ∅))
      as [[newPrices newPriceHistory]|] eqn:Hloop; [|discriminate].
    intros [= <-]. simpl.
    destruct (binary64_tickLoop_floor _ _ _ _ _ _ _ Hloop) as [Hprices _];
      [|exact Hprices].
    simpl. intros t p. rewrite lookup_empty. discriminate.
  - intros st Hreach.
    change (Forall (fun c => Binary64.flooredOrNaN (Binary64.Company.basePrice c))
                   (Binary64.companies st) →
            Binary64.pricesFlooredOrNaN (Binary64.prices st) (Binary64.priceHistory st)).
    induction Hreach as [clock cs portfolio | now env st st' Hr IH Htick
                        | st newsEvents Hr IH | st newPortfolio Hr IH]; intros Hbase.
    + unfold Binary64.initialize in *. simpl in *.
      apply binary64_initializeLoop_floor; [exact Hbase|]. simpl.
      split; intros t x; rewrite lookup_empty; discriminate.
    + revert Htick Hbase. unfold Binary64.tick.
      destruct (Binary64.tickLoop now env st 0 (Binary64.companies st) (∅, ∅))
        as [[newPrices newPriceHistory]|] eqn:Hloop; [|discriminate].
      intros [= <-]. simpl. intros Hbase.
      destruct (binary64_tickLoop_floor _ _ _ _ _ _ _ Hloop) as [_ Hall].
      * simpl. intros t p. rewrite lookup_empty. discriminate.
      * apply Hall; [by apply IH|].
        simpl. split; intros t x; rewrite lookup_empty; discriminate.
    + revert Hbase. unfold Binary64.updateNews.
      destruct (0 <? length newsEvents)%nat; simpl; exact IH.
    + exact (IH Hbase).
Qed.

Lemma reachable_prices_floor_or_nan_witness :
  ∃ st' : Binary64.MarketState,
    Binary64.tick 4000 (fun _ => Binary64.mkDraw 0.5 4000) Binary64.malformedMarket = Some st'
    ∧ (∃ p : float, Binary64.prices st' !! "ACME" = Some p ∧ is_nan p = true)
    ∧ (∀ (t : string) (p : float),
         Binary64.prices st' !! t = Some p → Binary64.flooredOrNaN p)
    ∧ (∀ (t : string) (h : list Binary64.PricePoint.t),
         Binary64.priceHistory st' !! t = Some h →
         Forall (fun point => Binary64.flooredOrNaN (Binary64.PricePoint.price point)) h).
Proof.
  eexists. split; [vm_compute; reflexivity|].
  split; [eexists; split; [vm_compute; reflexivity | vm_compute; reflexivity]|].
  apply (proj2 reachable_prices_floor_or_nan).
  - eapply Binary64.reach_tick with (now := 4000%Z) (env := fun _ => Binary64.mkDraw 0.5 4000)
      (st := Binary64.malformedMarket); [|vm_compute; reflexivity].
    apply Binary64.reach_news, Binary64.reach_initialize.
  - constructor; [right; vm_compute; reflexivity | constructor].
Defined.

(** * The chart on histories that hold NaN *)

Lemma fold_maxOrNaN_Some (l : list Q) (a : Q) :
  fold_left maxOrNaN (map Some l) (Some a) = Some (fold_left Qmax l a).
Proof. revert a. induction l as [|x l IH]; intros a; simpl; [done | apply IH]. Qed.

Lemma fold_minOrNaN_Some (l : list Q) (a : Q) :
  fold_left minOrNaN (map Some l) (Some a) = Some (fold_left Qmin l a).
Proof. revert a. induction l as [|x l IH]; intros a; simpl; [done | apply IH]. Qed.

Lemma fold_maxOrNaN_nan (l : list (option Q)) (a : option Q) :
  a = None ∨ None ∈ l → fold_left maxOrNaN l a = None.
Proof.
  revert a. induction l as [|x l IH]; intros a Hnan; simpl.
  - destruct Hnan as [->|Hin]; [done | by apply elem_of_nil in Hin].
  - apply IH. destruct Hnan as [->|Hin]; [by left|].
    apply elem_of_cons in Hin as [<-|Hin]; [left; by destruct a | by right].
Qed.

Lemma List_last_map {A B} (f : A → B) (l : list A) (d : A) :
  List.last (map f l) (f d) = f (List.last l d).
Proof.
  induction l as [|x l IH]; [done|].
  destruct l as [|y l]; [done|]. exact IH.
Qed.

(** On a group of numbers the candle is the one of the functions on
    rationals. *)
Lemma nanAware_candleOf_numbers (group : list PricePoint.t) :
  NaNAware.candleOf (map asChartPoint group) = candleOf group.
Proof.
  destruct group as [|first rest]; [done|].
  pose proof (List_last_map asChartPoint (first :: rest) first) as Hlast.
  unfold NaNAware.candleOf, candleOf. cbn [map] in *. rewrite Hlast.
  replace (map ChartPoint.price (map asChartPoint rest))
    with (map Some (map PricePoint.price rest))
    by (rewrite !map_map; reflexivity).
  cbn [asChartPoint ChartPoint.price ChartPoint.timestamp].
  rewrite fold_maxOrNaN_Some, fold_minOrNaN_Some. reflexivity.
Qed.

(** A group in which a price is NaN gives no candle. *)
Lemma nanAware_candleOf_nan (group : list ChartPoint.t) :
  ¬ Forall isNumber group → NaNAware.candleOf group = None.
Proof.
  intros Hnan. destruct group as [|first rest]; [by destruct Hnan|].
  unfold NaNAware.candleOf.
  assert (fold_left maxOrNaN (map ChartPoint.price rest) (ChartPoint.price first) = None)
    as ->; [|by destruct (ChartPoint.price first)].
  apply fold_maxOrNaN_nan.
  destruct (ChartPoint.price first) as [q|] eqn:Hfirst; [right | by left].
  apply not_Forall_Exists in Hnan; [|intros p; unfold isNumber; apply _].
  apply Exists_exists in Hnan as (p & Hp & Hnot).
  apply elem_of_cons in Hp as [->|Hp].
  - exfalso. apply Hnot. unfold isNumber. rewrite Hfirst. eauto.
  - apply list_elem_of_fmap. exists p. split; [|exact Hp].
    destruct (ChartPoint.price p) as [q0|] eqn:Hprice; [|done].
    exfalso. apply Hnot. unfold isNumber. rewrite Hprice. eauto.
Qed.

(** A list of points that hold numbers is the image of a list of points of
    the functions on rationals. *)
Lemma numbers_asChartPoint (l : list ChartPoint.t) :
  Forall isNumber l → ∃ points : list PricePoint.t, l = map asChartPoint points.
Proof.
  induction 1 as [|p l [q Hq] _ [points ->]]; [by exists []|].
  exists (PricePoint.mk (ChartPoint.ticker p) q (ChartPoint.timestamp p) :: points).
  simpl. f_equal. destruct p as [t pr ts]. simpl in *. by subst pr.
Qed.

Lemma nanAware_candleOf_is_Some (group : list ChartPoint.t) :
  is_Some (NaNAware.candleOf group) ↔ group ≠ [] ∧ Forall isNumber group.
Proof.
  split.
  - intros Hsome. split; [by intros -> ; destruct Hsome|].
    destruct (decide (Forall isNumber group)) as [|Hnan]; [done|].
    rewrite (nanAware_candleOf_nan group Hnan) in Hsome. by destruct Hsome.
  - intros [Hne Hall]. apply numbers_asChartPoint in Hall as [points ->].
    rewrite nanAware_candleOf_numbers.
    destruct points as [|first rest]; [done|].
    destruct (candleOf_spec first rest) as (candle & -> & _). eauto.
Qed.

Lemma last_List_last {A} (l : list A) (d : A) : l ≠ [] → last l = Some (List.last l d).
Proof.
  intros Hne. rewrite last_lookup.
  replace (Init.Nat.pred (length l)) with (length l - 1)%nat by lia.
  by apply List_last_lookup.
Qed.

Lemma nanAware_candleOf_Some (group : list ChartPoint.t) (candle : Candle.t) :
  NaNAware.candleOf group = Some candle →
  ∃ (first last_ : ChartPoint.t),
    head group = Some first
    ∧ last group = Some last_
    ∧ Candle.time candle = (ChartPoint.timestamp first / 1000)%Z
    ∧ Some (Candle.open candle) = toFixed2 <$> ChartPoint.price first
    ∧ Some (Candle.close candle) = toFixed2 <$> ChartPoint.price last_
    ∧ isValidCandle candle = true.
Proof.
  intros Hc.
  assert (is_Some (NaNAware.candleOf group)) as [_ Hall]%nanAware_candleOf_is_Some by eauto.
  apply numbers_asChartPoint in Hall as [points ->].
  rewrite nanAware_candleOf_numbers in Hc.
  apply candleOf_Some in Hc as (first & rest & -> & Htime & Hopen & Hclose & Hhigh & Hlow).
  exists (asChartPoint first), (asChartPoint (List.last (first :: rest) first)).
  split; [done|]. split.
  - rewrite <- (List_last_map asChartPoint). by apply last_List_last.
  - split; [exact Htime|]. split; [by rewrite Hopen|]. split; [by rewrite Hclose|].
    by apply isValidCandle_true.
Qed.

(** The loop pushes the candles of the groups in order, and nothing for a
    group that gives none. *)
Lemma nanAware_candleLoop_spec (priceHistory : list ChartPoint.t) (g : nat) :
  (1 ≤ g)%nat →
  ∀ (fuel k : nat) (candles : list Candle.t),
    (length priceHistory ≤ k * g + fuel * g)%nat →
    NaNAware.candleLoop fuel priceHistory g (k * g) candles
    = Some (candles
            ++ omap (fun j => NaNAware.candleOf (groupAt priceHistory g j)) (seq k fuel)).
Proof.
  intros Hg.
  assert (∀ n k : nat, (length priceHistory ≤ k * g)%nat →
            omap (fun j => NaNAware.candleOf (groupAt priceHistory g j)) (seq k n) = [])
    as Hpast.
  { induction n as [|n IH]; intros k Hk; simpl; [done|].
    unfold groupAt at 1. rewrite drop_ge by exact Hk. rewrite take_nil. simpl.
    apply IH. lia. }
  induction fuel as [|fuel IH]; intros k candles Hfuel; simpl.
  - destruct (Nat.ltb_spec (k * g) (length priceHistory)) as [|_]; [lia|].
    by rewrite app_nil_r.
  - destruct (Nat.ltb_spec (k * g) (length priceHistory)) as [Hk|Hk].
    + replace (k * g + g)%nat with (S k * g)%nat by lia.
      rewrite IH by lia. fold (groupAt priceHistory g k).
      destruct (NaNAware.candleOf (groupAt priceHistory g k)) as [candle|]; simpl;
        [by rewrite <- app_assoc | done].
    + unfold groupAt at 1. rewrite drop_ge by exact Hk. rewrite take_nil. simpl.
      rewrite Hpast by lia. by rewrite app_nil_r.
Qed.

Lemma nanAware_convertToCandlesticks_spec (priceHistory : list ChartPoint.t) (g : nat) :
  (1 ≤ g)%nat →
  NaNAware.convertToCandlesticks priceHistory g
  = Some (omap (fun k => NaNAware.candleOf (groupAt priceHistory g k))
               (seq 0 (length priceHistory))).
Proof.
  intros Hg. unfold NaNAware.convertToCandlesticks.
  destruct (Nat.eqb_spec (length priceHistory) 0) as [->|_]; [done|].
  exact (nanAware_candleLoop_spec priceHistory g Hg (length priceHistory) 0 []
           ltac:(nia)).
Qed.

(** On a history of numbers the candles are those of the functions on
    rationals. *)
Lemma nanAware_candleLoop_numbers (points : list PricePoint.t) (g : nat) :
  ∀ (fuel i : nat) (candles : list Candle.t),
    NaNAware.candleLoop fuel (map asChartPoint points) g i candles
    = candleLoop fuel points g i candles.
Proof.
  induction fuel as [|fuel IH]; intros i candles; simpl; rewrite length_map; [done|].
  destruct (i <? length points)%nat; [|done].
  rewrite <- fmap_drop, <- fmap_take.
  change (asChartPoint <$> take g (drop i points))
    with (map asChartPoint (take g (drop i points))).
  rewrite nanAware_candleOf_numbers. apply IH.
Qed.

Lemma nanAware_convertToCandlesticks_numbers (points : list PricePoint.t) (g : nat) :
  NaNAware.convertToCandlesticks (map asChartPoint points) g
  = convertToCandlesticks points g.
Proof.
  unfold NaNAware.convertToCandlesticks, convertToCandlesticks.
  rewrite length_map. destruct (length points =? 0)%nat; [done|].
  apply nanAware_candleLoop_numbers.
Qed.

Lemma groupAt_nonempty (priceHistory : list ChartPoint.t) (g k : nat) :
  (1 ≤ g)%nat →
  groupAt priceHistory g k ≠ [] ↔ (k * g < length priceHistory)%nat.
Proof.
  intros Hg. unfold groupAt. split.
  - intros Hne. destruct (Nat.lt_ge_cases (k * g) (length priceHistory)) as [|Hge]; [done|].
    rewrite drop_ge in Hne by exact Hge. by rewrite take_nil in Hne.
  - intros Hlt Hnil. apply (f_equal length) in Hnil.
    rewrite length_take, length_drop in Hnil. simpl in Hnil. lia.
Qed.

(** The group of candle number [k] gives a candle exactly when it is not
    past the end of the history and holds numbers only. *)
Lemma nanAware_group_candle (priceHistory : list ChartPoint.t) (g k : nat) :
  (1 ≤ g)%nat →
  is_Some (NaNAware.candleOf (groupAt priceHistory g k))
  ↔ (k * g < length priceHistory)%nat ∧ Forall isNumber (groupAt priceHistory g k).
Proof. intros Hg. by rewrite nanAware_candleOf_is_Some, groupAt_nonempty. Qed.

(** X13. The candles of [convertToCandlesticks], for groups of
    [candlesPerGroup ≥ 1] points of prices that can be NaN.  The call returns
    the candles of the groups, in the order of the groups, a group giving a
    candle exactly when every price in it is a number: a group that holds a
    NaN is skipped.  The candle of a group opens at the rounded price of its
    first point, closes at the rounded price of its last point, has the
    timestamp of its first point in whole seconds as its time, and passes the
    validity filter of the chart.  On a history without NaN no group is
    skipped: there is a candle number [k] exactly when the history has a
    point number [k × candlesPerGroup]. *)
Theorem nanAware_convertToCandlesticks_groups (priceHistory : list ChartPoint.t)
    (candlesPerGroup : nat) :
  (1 ≤ candlesPerGroup)%nat →
  ∃ candles : list Candle.t,
    NaNAware.convertToCandlesticks priceHistory candlesPerGroup = Some candles
    ∧ candles
      = omap (fun k => NaNAware.candleOf (groupAt priceHistory candlesPerGroup k))
             (seq 0 (length priceHistory))
    ∧ (∀ k : nat,
         is_Some (NaNAware.candleOf (groupAt priceHistory candlesPerGroup k))
         ↔ (k * candlesPerGroup < length priceHistory)%nat
           ∧ Forall isNumber (groupAt priceHistory candlesPerGroup k))
    ∧ (∀ (k : nat) (candle : Candle.t),
         NaNAware.candleOf (groupAt priceHistory candlesPerGroup k) = Some candle →
         ∃ first last_ : ChartPoint.t,
           priceHistory !! (k * candlesPerGroup)%nat = Some first
           ∧ priceHistory
               !! (min (k * candlesPerGroup + candlesPerGroup) (length priceHistory) - 1)%nat
             = Some last_
           ∧ Candle.time candle = (ChartPoint.timestamp first / 1000)%Z
           ∧ Some (Candle.open candle) = toFixed2 <$> ChartPoint.price first
           ∧ Some (Candle.close candle) = toFixed2 <$> ChartPoint.price last_
           ∧ isValidCandle candle = true)
    ∧ (Forall isNumber priceHistory →
       ∀ k : nat,
         is_Some (candles !! k) ↔ (k * candlesPerGroup < length priceHistory)%nat).
Proof.
  intros Hg. eexists. split; [by apply nanAware_convertToCandlesticks_spec|].
  split; [reflexivity|].
  split; [|split].
  - intros k. by apply nanAware_group_candle.
  - intros k candle Hc.
    assert (k * candlesPerGroup < length priceHistory)%nat as Hlt.
    { apply (groupAt_nonempty _ _ _ Hg). intros Hnil. rewrite Hnil in Hc. discriminate. }
    apply nanAware_candleOf_Some in Hc
      as (first & last_ & Hhead & Hlast & Htime & Hopen & Hclose & Hvalid).
    exists first, last_. split; [|split; [|done]].
    + rewrite head_lookup in Hhead. unfold groupAt in Hhead.
      rewrite lookup_take_lt, lookup_drop in Hhead by lia.
      by rewrite Nat.add_0_r in Hhead.
    + rewrite last_lookup in Hlast. unfold groupAt in Hlast.
      rewrite length_take, length_drop in Hlast.
      rewrite lookup_take_lt, lookup_drop in Hlast by lia.
      rewrite <- Hlast. f_equal. lia.
  - intros Hall k.
    apply numbers_asChartPoint in Hall as [points ->].
    pose proof (nanAware_convertToCandlesticks_spec (map asChartPoint points)
                  candlesPerGroup Hg) as Hspec.
    rewrite nanAware_convertToCandlesticks_numbers in Hspec.
    destruct (convertToCandlesticks_spec points candlesPerGroup Hg)
      as (candles & Hconv & Hk).
    rewrite Hconv in Hspec. injection Hspec as <-.
    rewrite length_map, <- not_eq_None_Some, (proj1 (Hk k)). lia.
Qed.

Lemma nanAware_convertToCandlesticks_groups_witness :
  ∃ candles : list Candle.t,
    NaNAware.convertToCandlesticks gappedPoints 2 = Some candles
    ∧ length candles = 2%nat
    ∧ NaNAware.candleOf (groupAt gappedPoints 2 0) = None
    ∧ is_Some (NaNAware.candleOf (groupAt gappedPoints 2 1)).
Proof.
  destruct (nanAware_convertToCandlesticks_groups gappedPoints 2 ltac:(lia))
    as (candles & Hconv & -> & Hgroups & _).
  eexists. split; [exact Hconv|]. split; [vm_compute; reflexivity|].
  split; [vm_compute; reflexivity|].
  apply Hgroups. split; [vm_compute; lia|].
  repeat constructor; eexists; reflexivity.
Defined.
Lemma List_filter_all {A} (f : A → bool) (l : list A) :
  Forall (fun x => f x = true) l → List.filter f l = l.
Proof. induction 1 as [|x l Hx _ IH]; simpl; [done|]. by rewrite Hx, IH. Qed.

Lemma nanAware_candles_valid (priceHistory : list ChartPoint.t) (g : nat) :
  List.filter isValidCandle
    (omap (fun k => NaNAware.candleOf (groupAt priceHistory g k))
          (seq 0 (length priceHistory)))
  = omap (fun k => NaNAware.candleOf (groupAt priceHistory g k))
         (seq 0 (length priceHistory)).
Proof.
  apply List_filter_all, Forall_forall. intros candle (k & _ & Hc)%list_elem_of_omap.
  by apply nanAware_candleOf_Some in Hc as (_ & _ & _ & _ & _ & _ & _ & ->).
Qed.

(** X17. The update of the chart, on a history whose prices can be NaN.  On
    an empty history the chart is cleared.  Otherwise the candles are those
    of the last 100 points, two points per candle, and the validity filter
    keeps them all: when there is none, which is so exactly when every pair
    of these points holds a NaN, the effect ends without a call of [setData]
    and the chart keeps what it shows; when there is one, [setData] gets the
    candles on the first load and their merge into the bars the series holds
    later. *)
Theorem nanAware_chartUpdate_calls (existingDataRaw : list SeriesItem)
    (priceHistory : list ChartPoint.t) :
  let recentHistory := drop (length priceHistory - 100) priceHistory in
  ∃ candles : list Candle.t,
    NaNAware.convertToCandlesticks recentHistory 2 = Some candles
    ∧ NaNAware.chartUpdate existingDataRaw priceHistory
      = Some (if (length priceHistory =? 0)%nat then SetData []
              else match candles, existingDataRaw with
                   | [], _ => NoCall
                   | _ :: _, [] => SetData candles
                   | _ :: _, _ :: _ =>
                       SetData (mergeCandles (barsOf existingDataRaw) candles)
                   end)
    ∧ (candles ≠ []
       ↔ ∃ k : nat, (k * 2 < length recentHistory)%nat
                    ∧ Forall isNumber (groupAt recentHistory 2 k)).
Proof.
  intros recentHistory.
  pose proof (nanAware_convertToCandlesticks_spec recentHistory 2 ltac:(lia)) as Hconv.
  eexists. split; [exact Hconv|].
  set (candles := omap _ _) in *.
  assert (candles ≠ []
          ↔ ∃ k : nat, (k * 2 < length recentHistory)%nat
                       ∧ Forall isNumber (groupAt recentHistory 2 k)) as Hiff.
  { split.
    - intros Hne. destruct candles as [|candle rest] eqn:Hcandles; [done|].
      assert (candle ∈ candles) as Hin by (rewrite Hcandles; left).
      apply list_elem_of_omap in Hin as (k & _ & Hk).
      exists k. apply (nanAware_group_candle recentHistory 2 k); [lia | eauto].
    - intros (k & Hk & Hall) Hnil.
      assert (is_Some (NaNAware.candleOf (groupAt recentHistory 2 k))) as [candle Hc]
        by (apply nanAware_group_candle; [lia | done]).
      assert (candle ∈ candles) as Hin.
      { apply list_elem_of_omap. exists k. split; [|exact Hc].
        apply elem_of_seq. lia. }
      rewrite Hnil in Hin. by apply elem_of_nil in Hin. }
  split; [|exact Hiff].
  unfold NaNAware.chartUpdate.
  destruct (Nat.eqb_spec (length priceHistory) 0) as [|_]; [reflexivity|].
  assert ((if (100 <? length priceHistory)%nat
           then drop (length priceHistory - 100) priceHistory else priceHistory)
          = recentHistory) as ->.
  { subst recentHistory.
    destruct (Nat.ltb_spec 100 (length priceHistory)) as [|Hle]; [done|].
    replace (length priceHistory - 100)%nat with 0%nat by lia. done. }
  rewrite Hconv. subst candles. rewrite nanAware_candles_valid.
  set (candles := omap _ _) in *.
  destruct candles as [|candle rest]; [reflexivity|]. simpl.
  by destruct existingDataRaw.
Qed.

Lemma nanAware_chartUpdate_calls_witness :
  NaNAware.chartUpdate [] nanPoints = Some NoCall
  ∧ ∃ candle rest, NaNAware.chartUpdate [] gappedPoints = Some (SetData (candle :: rest)).
Proof.
  split.
  - destruct (nanAware_chartUpdate_calls [] nanPoints) as (candles & Hconv & Hcall & _).
    vm_compute in Hconv. injection Hconv as <-. exact Hcall.
  - destruct (nanAware_chartUpdate_calls [] gappedPoints) as (candles & Hconv & Hcall & Hiff).
    destruct candles as [|candle rest].
    + exfalso. apply (proj2 Hiff); [|reflexivity].
      exists 1%nat. split; [vm_compute; lia|]. repeat constructor; eexists; reflexivity.
    + exists candle, rest. exact Hcall.
Defined.

(** The candles of the five points: the pair that holds the NaN gives none. *)
Example nanAware_convertToCandlesticks_gappedPoints :
  option_map (map (fun c => (Candle.time c, Qred (Candle.open c), Qred (Candle.high c),
                             Qred (Candle.low c), Qred (Candle.close c))))
    (NaNAware.convertToCandlesticks gappedPoints 2)
  = Some [ (8%Z, Qred 101, Qred 101.25, Qred 100.95, Qred 101.2);
           (16%Z, Qred 102, Qred 102.05, Qred 101.95, Qred 102) ].
Proof. vm_compute. reflexivity. Qed.
